(** * Interval algebra of lisa.datautils

    A shallow embedding of the windowing, refitting, squashing, deduplication,
    signal-alignment, integration, extremum and filtering helpers of
    [lisa/datautils.py].

    Tables are lists of rows [(index, payload)], in row order; index values are
    rationals (the float arithmetic of the source is abstracted by exact
    rational arithmetic).  Python exceptions are the [Err] case of a small
    error monad. *)

From Stdlib Require Import QArith Qfield Qminmax Qround Qabs Lqa List ZArith Lia.
From Stdlib Require Strings.String.
Import ListNotations.
Import (notations) Stdlib.Strings.String.

Open Scope Q_scope.

(** ** Python exceptions and the error monad *)

Inductive exc := IndexError | KeyError | TypeError | ValueError | AssertionError.

Inductive res (A : Type) : Type :=
| Ok : A -> res A
| Err : exc -> res A.
Arguments Ok {A} _.
Arguments Err {A} _.

Definition bind {A B} (m : res A) (f : A -> res B) : res B :=
  match m with Ok a => f a | Err e => Err e end.

Notation "x <- m ;; k" := (bind m (fun x => k))
  (at level 61, m at next level, right associativity).

(** Numeric comparisons as booleans. *)
Definition qle (x y : Q) : bool := Qle_bool x y.
Definition qlt (x y : Q) : bool := negb (Qle_bool y x).
Definition qeq (x y : Q) : bool := Qeq_bool x y.

(** A table: rows in order, each with its index value. *)
Definition table (R : Type) := list (Q * R).

Fixpoint last_opt {A} (l : list A) : option A :=
  match l with
  | [] => None
  | [x] => Some x
  | _ :: l' => last_opt l'
  end.

(** The index is strictly increasing (the invariant of every table). *)
Fixpoint increasing (l : list Q) : bool :=
  match l with
  | x :: ((y :: _) as l') => qlt x y && increasing l'
  | _ => true
  end.

(** ** pandas primitives used by the code *)

(** Number of leading elements satisfying [p]: [searchsorted] on a sorted
    index. *)
Fixpoint count_while {A} (p : A -> bool) (l : list A) : nat :=
  match l with
  | [] => O
  | x :: l' => if p x then S (count_while p l') else O
  end.

(** [index.searchsorted(x, side='left')] and [side='right']. *)
Definition searchsorted_left (x : Q) (idx : list Q) : nat :=
  count_while (fun t => qlt t x) idx.
Definition searchsorted_right (x : Q) (idx : list Q) : nat :=
  count_while (fun t => qle t x) idx.

(** [data.iloc[a:b]] for [0 <= a] (Python slice semantics: an empty result
    when [b <= a], [b] clipped to the length). *)
Definition iloc_slice {A} (a b : nat) (l : list A) : list A :=
  firstn (b - a) (skipn a l).

(** [data[slice(start, end)]] on a monotonic [Float64Index]: label based,
    both bounds inclusive, via [slice_locs]. *)
Definition label_slice {R} (w : option Q * option Q) (data : table R)
  : table R :=
  let idx := map fst data in
  let a := match fst w with None => O | Some s => searchsorted_left s idx end in
  let b := match snd w with
           | None => length idx
           | Some e => searchsorted_right e idx end in
  iloc_slice a b data.

(** Fill methods of [Index.get_loc(x, method=...)]. *)
Inductive fill := FFill | BFill | FNearest.

(** [get_indexer([x], method='pad')]: last position with index [<= x]. *)
Definition pad_indexer (idx : list Q) (x : Q) : option nat :=
  match searchsorted_right x idx with O => None | S k => Some k end.

(** [get_indexer([x], method='backfill')]: first position with index [>= x]. *)
Definition backfill_indexer (idx : list Q) (x : Q) : option nat :=
  let k := searchsorted_left x idx in
  if Nat.ltb k (length idx) then Some k else None.

(** [get_loc]: -1 from the indexer raises [KeyError]. For [nearest], the
    left candidate wins only when strictly closer (pandas uses [<] on a
    monotonic increasing index); a missing side yields the other one. *)
Definition get_loc (idx : list Q) (x : Q) (m : fill) : res nat :=
  match m with
  | FFill => match pad_indexer idx x with Some k => Ok k | None => Err KeyError end
  | BFill => match backfill_indexer idx x with Some k => Ok k | None => Err KeyError end
  | FNearest =>
      match pad_indexer idx x, backfill_indexer idx x with
      | Some l, Some r =>
          let dl := Qabs (nth l idx 0 - x) in
          let dr := Qabs (nth r idx 0 - x) in
          if qlt dl dr then Ok l else Ok r
      | Some l, None => Ok l
      | None, Some r => Ok r
      | None, None => Err KeyError
      end
  end.

(** ** [_data_window] *)

(** The [method] argument; any other string raises [ValueError]. *)
Inductive method := Inclusive | Exclusive | Nearest | Pre | Post | Unsupported.

(** The clipping step of [_data_window] ([clip_window=True]); [index[0]] on
    an empty index raises [IndexError]. *)
Definition clip (idx : list Q) (w : option Q * option Q)
  : res (option Q * option Q) :=
  match idx with
  | [] => Err IndexError
  | first :: _ =>
      let last := last idx first in
      let start := match fst w with None => first | Some s => s end in
      let end_ := match snd w with None => last | Some e => e end in
      if qle start first && qle end_ first then Ok (Some first, Some first)
      else if qle last start && qle last end_ then Ok (Some last, Some last)
      else Ok (Some (if qle start first then first else start),
               Some (if qle last end_ then last else end_))
  end.

(** [index.get_loc(x, method=m) if x is not None else None], then
    [window[1] + 1] ([None + 1] raises [TypeError]) and
    [data.iloc[slice(start_pos, end_pos)]]. *)
Definition lookup_slice {R} (data : table R) (w : option Q * option Q)
  (ms : fill * fill) : res (table R) :=
  let idx := map fst data in
  a <- match fst w with
       | None => Ok None
       | Some x => k <- get_loc idx x (fst ms) ;; Ok (Some k) end ;;
  b <- match snd w with
       | None => Err TypeError
       | Some x => get_loc idx x (snd ms) end ;;
  Ok (iloc_slice (match a with None => O | Some k => k end) (S b) data).

(** [_data_window(data, window, method, clip_window)].  [float_index] says
    whether [data.index] is a [pd.Float64Index], which selects the native
    slicing fast path of the [inclusive] method. *)
Definition _data_window {R} (data : table R) (window : option Q * option Q)
  (m : method) (clip_window : bool) (float_index : bool) : res (table R) :=
  window <- (if clip_window then clip (map fst data) window else Ok window) ;;
  match m with
  | Inclusive =>
      if float_index then Ok (label_slice window data)
      else lookup_slice data window (FFill, BFill)
  | Exclusive => lookup_slice data window (BFill, FFill)
  | Nearest => lookup_slice data window (FNearest, FNearest)
  | Pre => lookup_slice data window (FFill, FFill)
  | Post => lookup_slice data window (BFill, BFill)
  | Unsupported => Err ValueError
  end.

(** [series_window] and [df_window]: [clip_window] defaults to [True]. *)
Definition series_window {R} (series : table R) window m clip_window float_index :=
  @_data_window R series window m clip_window float_index.
Definition df_window {R} (df : table R) window m clip_window float_index :=
  @_data_window R df window m clip_window float_index.

(** ** [_data_refit_index] *)

(** [index.iloc[-1] = v] and [index.iloc[0] = v] on a series of index
    values; both raise [IndexError] on an empty series. *)
Definition set_last (l : list Q) (v : Q) : res (list Q) :=
  match l with
  | [] => Err IndexError
  | _ => Ok (removelast l ++ [v])
  end.
Definition set_first (l : list Q) (v : Q) : res (list Q) :=
  match l with
  | [] => Err IndexError
  | _ :: l' => Ok (v :: l')
  end.

Definition _data_refit_index {R} (data : table R) (start end_ : option Q)
  (m : method) (float_index : bool) : res (table R) :=
  match data with
  | [] => Ok data
  | _ =>
      data <- _data_window data (start, end_) m true float_index ;;
      let index := map fst data in
      index <- match end_ with None => Ok index | Some e => set_last index e end ;;
      index <- match start with None => Ok index | Some s => set_first index s end ;;
      Ok (combine index (map snd data))
  end.

Definition series_refit_index {R} (series : table R) start end_ m float_index :=
  @_data_refit_index R series start end_ m float_index.
Definition df_refit_index {R} (df : table R) start end_ m float_index :=
  @_data_refit_index R df start end_ m float_index.

(** ** [df_squash] *)

(** A row of a duration-encoded table: its [delta] column (the [column]
    argument, ['delta'] by default) and the other columns. *)
Record srow (A : Type) := mk_srow { delta : Q; cols : A }.
Arguments mk_srow {A} _ _.
Arguments delta {A} _.
Arguments cols {A} _.

(** [x in t.index] *)
Definition in_index {R} (x : Q) (t : table R) : bool :=
  existsb (fun r => qeq (fst r) x) t.

(** [t.drop([x])] *)
Definition drop_label {R} (x : Q) (t : table R) : table R :=
  filter (fun r => negb (qeq (fst r) x)) t.

(** Apply [f] to the last element ([t.at[t.index[-1], ...] = ...]). *)
Fixpoint map_last {A} (f : A -> A) (l : list A) : list A :=
  match l with
  | [] => []
  | [x] => [f x]
  | x :: l' => x :: map_last f l'
  end.

(** [delta = min(end - res_df.index[-1], res_df[column].values[-1])] set on
    the last row. *)
Definition cap_delta {A} (end_ : Q) (r : Q * srow A) : Q * srow A :=
  (fst r, mk_srow (Qmin (end_ - fst r) (delta (snd r))) (cols (snd r))).

Definition df_squash {A} (df : table (srow A)) (start end_ : Q)
  : table (srow A) :=
  match last_opt df with
  | None => df
  | Some (last_t, last_r) =>
      let end_ := Qmin end_ (last_t + delta last_r) in
      if qlt end_ start then [] else
      let prev_df := label_slice (None, Some start) df in
      let middle_df := label_slice (Some start, Some end_) df in
      (* Tweak the closest previous event to include it in the slice *)
      let res_df :=
        match last_opt prev_df with
        | Some (_, p) =>
            if in_index start middle_df then []
            else
              let e1 := match middle_df with [] => end_ | (t, _) :: _ => t end in
              [(start, mk_srow (Qmin (e1 - start) (end_ - start)) (cols p))]
        | None => []
        end in
      match middle_df with
      | [] => res_df
      | _ :: _ =>
          let res_df := res_df ++ middle_df in
          if in_index end_ res_df then
            (* e_last and s1 collide, ditch e_last *)
            drop_label end_ res_df
          else
            (* Fix the delta for the last row *)
            map_last (cap_delta end_) res_df
      end
  end.

(** ** [_data_deduplicate] on a [pandas.Series] *)

(** The [keep] argument; any other value raises [ValueError]. *)
Inductive keep_t := KeepFirst | KeepLast | KeepOther.

(** [series.shift(n)] on the values: [None] stands for the NaN filled in. *)
Definition shift_values (n : Z) (l : list Z) : list (option Z) :=
  let m := map Some l in
  if (0 <=? n)%Z then firstn (length l) (repeat None (Z.to_nat n) ++ m)
  else firstn (length l) (skipn (Z.to_nat (- n)) m ++ repeat None (Z.to_nat (- n))).

(** [v != w] where [w] may be NaN ([NaN != v] is [True]). *)
Definition ne_shifted (v : Z) (w : option Z) : bool :=
  match w with None => true | Some w => negb (Z.eqb v w) end.

(** [data[cond]] with a boolean mask. *)
Fixpoint mask {A} (l : list A) (cond : list bool) : list A :=
  match l, cond with
  | x :: l', c :: cond' => if c then x :: mask l' cond' else mask l' cond'
  | _, _ => []
  end.

(** [data.drop_duplicates(keep='first')]: a row survives when its value
    was not seen on an earlier row. *)
Fixpoint drop_dup_first (seen : list Z) (l : table Z) : table Z :=
  match l with
  | [] => []
  | (t, v) :: l' =>
      if existsb (Z.eqb v) seen then drop_dup_first seen l'
      else (t, v) :: drop_dup_first (v :: seen) l'
  end.

(** [data.drop_duplicates(keep=keep)] *)
Definition drop_duplicates (keep : keep_t) (l : table Z) : table Z :=
  match keep with
  | KeepLast => rev (drop_dup_first [] (rev l))
  | _ => drop_dup_first [] l
  end.

(** Python truthiness of the [all_col] argument ([None] is falsy). *)
Definition truthy (b : option bool) : bool :=
  match b with Some true => true | _ => false end.

(** [_data_deduplicate(data, keep, consecutives, cols=None, all_col)] for a
    series ([isinstance(data, pd.DataFrame)] is false). *)
Definition _data_deduplicate (data : table Z) (keep : keep_t)
  (consecutives : bool) (all_col : option bool) : res (table Z) :=
  shift <- match keep with
           | KeepFirst => Ok 1%Z
           | KeepLast => Ok (-1)%Z
           | KeepOther => Err ValueError
           end ;;
  if consecutives then
    let vals := map snd data in
    let cond := map (fun p => ne_shifted (fst p) (snd p))
                    (combine vals (shift_values shift vals)) in
    Ok (mask data cond)
  else if negb (truthy all_col) then Err ValueError
  else Ok (drop_duplicates keep data).

(** [series_deduplicate] passes [cols=None, all_col=None]. *)
Definition series_deduplicate (series : table Z) (keep : keep_t)
  (consecutives : bool) : res (table Z) :=
  _data_deduplicate series keep consecutives None.

(** Row-by-row reading of the consecutive mask, used in the proofs: with
    [keep='first'] a row survives when its value differs from the previous
    one, with [keep='last'] when it differs from the next one. *)
Fixpoint dedup_first_go (prev : option Z) (l : table Z) : table Z :=
  match l with
  | [] => []
  | (t, v) :: l' =>
      if ne_shifted v prev then (t, v) :: dedup_first_go (Some v) l'
      else dedup_first_go (Some v) l'
  end.

Fixpoint dedup_last_go (l : table Z) : table Z :=
  match l with
  | [] => []
  | (t, v) :: l' =>
      if ne_shifted v (option_map snd (hd_error l')) then (t, v) :: dedup_last_go l'
      else dedup_last_go l'
  end.

(** ** Shift capping of [series_align_signal]

    [shift] is [correlation.argmax() - len(to_align)] and [period] the
    code's [period], the smallest index step of the two signals; both are
    computed by [series_align_signal] below.  The samples of the resampled
    signals are [(end - start) / (num - 1)] apart, not [period] apart.  The
    function returns the shift [s] such that [to_align.shift(-s)] is
    returned. *)

(** Python [int()] on a number: truncation toward zero. *)
Definition py_int (q : Q) : Z :=
  if qle 0 q then Qfloor q else (- Qfloor (- q))%Z.

Definition cap_shift (shift : Z) (max_shift : option Q) (period : Q) : res Z :=
  match max_shift with
  | None => Ok shift
  | Some ms =>
      if negb (qle 0 ms) then Err AssertionError
      else
        (* Turn max_shift into a number of samples in the resampled signal *)
        let ms := py_int (ms / period) in
        (* Adjust the sign of max_shift to match shift *)
        let ms := (ms * (if (shift <? 0)%Z then -1 else 1))%Z in
        if (Z.abs ms <? Z.abs shift)%Z then Ok ms else Ok shift
  end.

(** ** [series_derivate], [series_integrate], [series_mean]

    A float result is [Fin q] (a finite value) or [NonFin] (NaN or an
    infinity).  The input series hold finite values; on the way, the code
    only subtracts, adds, and divides by a finite number or by the NaN that
    [diff] puts first, and all of these propagate NaN and the infinities
    alike, so a single non-finite case is exact for them. *)
Inductive fl := Fin (q : Q) | NonFin.

Definition fl_sub (a b : fl) : fl :=
  match a, b with Fin x, Fin y => Fin (x - y) | _, _ => NonFin end.
Definition fl_add (a b : fl) : fl :=
  match a, b with Fin x, Fin y => Fin (x + y) | _, _ => NonFin end.

(** [a / b]; a division by zero gives an infinity or NaN. *)
Definition fl_div (a b : fl) : fl :=
  match a, b with
  | Fin x, Fin y => if qeq y 0 then NonFin else Fin (x / y)
  | _, _ => NonFin
  end.

(** An element-wise operation on two series sharing their index. *)
Fixpoint zip_with {A B C} (f : A -> B -> C) (l1 : list A) (l2 : list B) : list C :=
  match l1, l2 with
  | x :: l1', y :: l2' => f x y :: zip_with f l1' l2'
  | _, _ => []
  end.

Fixpoint diff_from (prev : fl) (l : list fl) : list fl :=
  match l with
  | [] => []
  | x :: l' => fl_sub x prev :: diff_from x l'
  end.

(** [s.diff()]: NaN, then [s[i] - s[i-1]]. *)
Definition fl_diff (l : list fl) : list fl :=
  match l with [] => [] | x :: l' => NonFin :: diff_from x l' end.

(** [_resolve_x(y, x)]: the values of [x] (a series sharing the index of
    [y]), or the index of [y] when [x] is [None]. *)
Definition _resolve_x (y : table Q) (x : option (list Q)) : list Q :=
  match x with None => map fst y | Some xs => xs end.

(** [series_derivate(y, x, order)]: [order] times [y = y.diff() / x.diff()]
    ([range(order)] is empty for a negative [order]). *)
Definition series_derivate (y : table Q) (x : option (list Q)) (order : Z)
  : table fl :=
  let x := _resolve_x y x in
  let step v := zip_with fl_div (fl_diff v) (fl_diff (map Fin x)) in
  combine (map fst y) (Nat.iter (Z.to_nat order) step (map Fin (map snd y))).

(** The [sign] argument ['+'], ['-'], [None], or another value. *)
Inductive sign_t := SignPlus | SignMinus | SignNone | SignOther.
(** The [method] argument ['rect'], ['trapz'], ['simps'], or another value. *)
Inductive imethod := Rect | Trapz | Simps | IOther.

(** The same series operations on finite values, where [None] is NaN. *)
Fixpoint q_diff_from (prev : Q) (l : list Q) : list (option Q) :=
  match l with
  | [] => []
  | x :: l' => Some (x - prev) :: q_diff_from x l'
  end.

(** [x.diff()] *)
Definition q_diff (l : list Q) : list (option Q) :=
  match l with [] => [] | x :: l' => None :: q_diff_from x l' end.

(** [s.shift(-1)] *)
Definition shift_back {A} (l : list (option A)) : list (option A) :=
  match l with [] => [] | _ :: l' => l' ++ [None] end.

(** [s.sum()], which skips NaN. *)
Fixpoint nan_sum (l : list (option Q)) : Q :=
  match l with
  | [] => 0
  | Some v :: l' => v + nan_sum l'
  | None :: l' => nan_sum l'
  end.

(** [np.trapz(y, x)]: [sum(diff(x) * (y[1:] + y[:-1]) / 2)]. *)
Fixpoint trapz (ys xs : list Q) : Q :=
  match ys, xs with
  | y0 :: ((y1 :: _) as ys'), x0 :: ((x1 :: _) as xs') =>
      (x1 - x0) * (y1 + y0) / 2 + trapz ys' xs'
  | _, _ => 0
  end.

(** [x.max()] and [x.min()]; [None] (NaN) on an empty series. *)
Fixpoint list_max (l : list Q) : option Q :=
  match l with
  | [] => None
  | x :: l' => Some (match list_max l' with None => x | Some m => Qmax x m end)
  end.
Fixpoint list_min (l : list Q) : option Q :=
  match l with
  | [] => None
  | x :: l' => Some (match list_min l' with None => x | Some m => Qmin x m end)
  end.

Section Integrate.

(** [scipy.integrate.simps(y, x)], library code. *)
Variable simps : list Q -> list Q -> Q.

(** [series_integrate(y, x, sign, method, rect_step)]; [rect_post] says
    whether [rect_step == 'post'].  The model covers series without NaN
    values only: both series hold finite values, so the [dropna()] of the
    [trapz] and [simps] methods drops nothing.  On a series with NaN values
    [trapz] and [simps] drop the NaN rows, and the intervals around them
    merge, while [rect] keeps the rows and skips only their products; the
    theorems below about [series_integrate] say nothing about that case. *)
Definition series_integrate (y : table Q) (x : option (list Q)) (sign : sign_t)
  (method : imethod) (rect_post : bool) : res Q :=
  let x := _resolve_x y x in
  ys <- match sign with
        | SignPlus => Ok (map (fun v => Qmax v 0) (map snd y))
        | SignMinus => Ok (map (fun v => Qmin v 0) (map snd y))
        | SignNone => Ok (map snd y)
        | SignOther => Err ValueError
        end ;;
  match method with
  | Rect =>
      let dx := q_diff x in
      let dx := if rect_post then shift_back dx else dx in
      Ok (nan_sum (zip_with (fun v d => option_map (Qmult v) d) ys dx))
  | Trapz => Ok (trapz ys x)
  | Simps => Ok (simps ys x)
  | IOther => Err ValueError
  end.

(** [series_mean(y, x, **kwargs)]: the integral divided by
    [x.max() - x.min()]. *)
Definition series_mean (y : table Q) (x : option (list Q)) (sign : sign_t)
  (method : imethod) (rect_post : bool) : res fl :=
  let x := _resolve_x y x in
  integral <- series_integrate y (Some x) sign method rect_post ;;
  Ok (match list_max x, list_min x with
      | Some a, Some b => fl_div (Fin integral) (Fin (a - b))
      | _, _ => NonFin
      end).

(** ** [series_local_extremum] and [series_tunnel_mean] *)

(** The [kind] argument ['min'], ['max'], or another value. *)
Inductive kind_t := KindMin | KindMax | KindOther.

(** [data.take(i, mode='clip')] *)
Definition take_clip (data : list Q) (i : Z) : Q :=
  nth (Z.to_nat (Z.max 0 (Z.min i (Z.of_nat (length data) - 1)))) data 0.

(** [scipy.signal._boolrelextrema(data, comparator, order=1, mode='clip')]:
    each point compared with its right, then its left neighbour, the
    neighbours of the end points being clipped to the end points. *)
Definition boolrelextrema (comparator : Q -> Q -> bool) (data : list Q) : list bool :=
  map (fun i => let i := Z.of_nat i in
         comparator (take_clip data i) (take_clip data (i + 1)) &&
         comparator (take_clip data i) (take_clip data (i - 1)))
      (seq 0 (length data)).

(** [series.iloc[argrelextrema(series.values, comparator)]], with
    [np.less_equal] for ['min'] and [np.greater_equal] for ['max']. *)
Definition series_local_extremum (series : table Q) (kind : kind_t) : res (table Q) :=
  comparator <- match kind with
                | KindMin => Ok qle
                | KindMax => Ok (fun a b => qle b a)
                | KindOther => Err ValueError
                end ;;
  Ok (mask series (boolrelextrema comparator (map snd series))).

Definition series_tunnel_mean (series : table Q) : res fl :=
  maxs <- series_local_extremum series KindMax ;;
  mins <- series_local_extremum series KindMin ;;
  maxs_mean <- series_mean maxs None SignNone Rect true ;;
  mins_mean <- series_mean mins None SignNone Rect true ;;
  Ok (fl_add (fl_div (fl_sub maxs_mean mins_mean) (Fin 2)) mins_mean).

End Integrate.

(** ** [series_align_signal]

    The two signals hold finite values, so the NaN check at the top never
    raises.  A value that pandas computes as NaN ([index.min()] of an empty
    series, the [min()] of an empty [diff()]) is [None]; Python's builtin
    [min] and [max] keep their first argument unless the second compares
    strictly smaller (larger), so a NaN first argument wins and a NaN second
    one is ignored.  The reindexing is read for a strictly increasing index
    (pandas refuses a duplicated one, and reads [ffill] on a decreasing one
    differently). *)

Definition py_min (a b : option Q) : option Q :=
  match a, b with Some x, Some y => if qlt y x then Some y else Some x | _, _ => a end.
Definition py_max (a b : option Q) : option Q :=
  match a, b with Some x, Some y => if qlt x y then Some y else Some x | _, _ => a end.

Fixpoint index_steps (l : list Q) : list Q :=
  match l with
  | x :: ((y :: _) as l') => (y - x) :: index_steps l'
  | _ => []
  end.

(** [get_period(series)]: [pd.Series(series.index).diff().min()]. *)
Definition get_period (s : table Q) : option Q := list_min (index_steps (map fst s)).

(** The spacing of [np.linspace(start, stop, num)]. *)
Definition linspace_step (start stop : Q) (num : Z) : Q := (stop - start) / inject_Z (num - 1).

(** [np.linspace(start, stop, num)]: [ValueError] for a negative [num]. *)
Definition linspace (start stop : Q) (num : Z) : res (list Q) :=
  if (num <? 0)%Z then Err ValueError
  else if (num =? 1)%Z then Ok [start]
  else Ok (map (fun i => start + inject_Z (Z.of_nat i) * linspace_step start stop num)
               (seq 0 (Z.to_nat num))).

(** [series.reindex(new_index, method='ffill')]: the value of the last row
    at or before each new index value, NaN when there is none. *)
Definition reindex_ffill (s : table Q) (idx : list Q) : list (option Q) :=
  map (fun p => option_map snd (last_opt (filter (fun r => qle (fst r) p) s))) idx.

Definition opt_add (a b : option Q) : option Q :=
  match a, b with Some x, Some y => Some (x + y) | _, _ => None end.
Definition opt_mul (a b : option Q) : option Q :=
  match a, b with Some x, Some y => Some (x * y) | _, _ => None end.

(** [scipy.signal.correlate(x, y)] in the default [full] mode:
    [z[k] = sum_l x[l] * y[l - k + N - 1]] for [k = 0 .. len(x) + len(y) - 2],
    with [N = max(len(x), len(y))]. *)
Definition correlate (x y : list (option Q)) : list (option Q) :=
  let n := Z.of_nat (Nat.max (length x) (length y)) in
  map (fun k =>
         fold_left (fun acc l =>
                      let j := (Z.of_nat l - Z.of_nat k + n - 1)%Z in
                      if ((0 <=? j) && (j <? Z.of_nat (length y)))%Z
                      then opt_add acc (opt_mul (nth l x None) (nth (Z.to_nat j) y None))
                      else acc)
                   (seq 0 (length x)) (Some 0))
      (seq 0 (length x + length y - 1)).

Fixpoint first_nan (i : nat) (l : list (option Q)) : option nat :=
  match l with
  | [] => None
  | None :: _ => Some i
  | Some _ :: l' => first_nan (S i) l'
  end.

Fixpoint argmax_from (i bi : nat) (b : Q) (l : list (option Q)) : nat :=
  match l with
  | [] => bi
  | Some x :: l' => if qlt b x then argmax_from (S i) i x l' else argmax_from (S i) bi b l'
  | None :: l' => argmax_from (S i) bi b l'
  end.

(** [np.argmax]: the first NaN if there is one, else the first maximum;
    [ValueError] on an empty array. *)
Definition argmax (l : list (option Q)) : res nat :=
  match l with
  | [] => Err ValueError
  | x :: l' =>
      match first_nan 0 l with
      | Some i => Ok i
      | None => Ok (match x with Some q => argmax_from 1 0 q l' | None => O end)
      end
  end.

(** [series.shift(n)] on values that may be NaN. *)
Definition shift_opt (n : Z) (l : list (option Q)) : list (option Q) :=
  if (0 <=? n)%Z then firstn (length l) (repeat None (Z.to_nat n) ++ l)
  else firstn (length l) (skipn (Z.to_nat (- n)) l ++ repeat None (Z.to_nat (- n))).

(** The resampling of [series_align_signal]: [period], [new_index] and the
    resampled values of [ref] and [to_align].  [math.ceil] of a NaN raises
    [ValueError]; a zero [period] (a repeated index value) makes it raise
    [OverflowError] or [ValueError], both [ValueError] here. *)
Definition align_prepare (ref to_align : table Q)
  : res (Q * list Q * list (option Q) * list (option Q)) :=
  let start := py_max (list_min (map fst ref)) (list_min (map fst to_align)) in
  let end_ := py_min (list_max (map fst ref)) (list_max (map fst to_align)) in
  let period := py_min (get_period ref) (get_period to_align) in
  match start, end_, period with
  | Some s, Some e, Some p =>
      if qeq p 0 then Err ValueError
      else
        new_index <- linspace s e (Qceiling ((e - s) / p)) ;;
        Ok (p, new_index, reindex_ffill ref new_index, reindex_ffill to_align new_index)
  | _, _, _ => Err ValueError
  end.

(** [series_align_signal(ref, to_align, max_shift)]: the new index, the
    values of the resampled [ref] and of [to_align.shift(-shift)]. *)
Definition series_align_signal (ref to_align : table Q) (max_shift : option Q)
  : res (list Q * list (option Q) * list (option Q)) :=
  p <- align_prepare ref to_align ;;
  let '(period, new_index, ref_v, to_align_v) := p in
  i <- argmax (correlate to_align_v ref_v) ;;
  let shift := (Z.of_nat i - Z.of_nat (length to_align_v))%Z in
  s <- cap_shift shift max_shift period ;;
  Ok (new_index, ref_v, shift_opt (- s) to_align_v).

(** ** [_data_deduplicate] on a [pandas.DataFrame]

    A frame row holds one integer per column; [cols=None], so every column
    is considered. *)

(** [df.shift(n)]: [None] stands for the row of NaN filled in. *)
Definition shift_rows (n : Z) (l : list (list Z)) : list (option (list Z)) :=
  let m := map Some l in
  if (0 <=? n)%Z then firstn (length l) (repeat None (Z.to_nat n) ++ m)
  else firstn (length l) (skipn (Z.to_nat (- n)) m ++ repeat None (Z.to_nat (- n))).

(** [row != shifted_row], column by column. *)
Definition ne_row (r : list Z) (w : option (list Z)) : list bool :=
  match w with
  | None => map (fun _ => true) r
  | Some w => zip_with (fun a b => negb (Z.eqb a b)) r w
  end.

(** Two rows are duplicates when they agree on every column. *)
Definition row_eqb (a b : list Z) : bool :=
  if list_eq_dec Z.eq_dec a b then true else false.

(** [df.drop_duplicates(keep='first')] *)
Fixpoint drop_dup_rows_first (seen : list (list Z)) (l : table (list Z)) : table (list Z) :=
  match l with
  | [] => []
  | (t, v) :: l' =>
      if existsb (row_eqb v) seen then drop_dup_rows_first seen l'
      else (t, v) :: drop_dup_rows_first (v :: seen) l'
  end.

(** [df.drop_duplicates(keep=keep)] *)
Definition drop_duplicates_rows (keep : keep_t) (l : table (list Z)) : table (list Z) :=
  match keep with
  | KeepLast => rev (drop_dup_rows_first [] (rev l))
  | _ => drop_dup_rows_first [] l
  end.

(** [_data_deduplicate(data, keep, consecutives, cols=None, all_col)] for a
    data frame: [cond.any(axis=1)] when [all_col] is true,
    [cond.all(axis=1)] otherwise. *)
Definition _data_deduplicate_frame (data : table (list Z)) (keep : keep_t)
  (consecutives : bool) (all_col : bool) : res (table (list Z)) :=
  shift <- match keep with
           | KeepFirst => Ok 1%Z
           | KeepLast => Ok (-1)%Z
           | KeepOther => Err ValueError
           end ;;
  if consecutives then
    let vals := map snd data in
    let cond := map (fun p => let c := ne_row (fst p) (snd p) in
                              if all_col then existsb (fun b => b) c
                              else forallb (fun b => b) c)
                    (combine vals (shift_rows shift vals)) in
    Ok (mask data cond)
  else if negb all_col then Err ValueError
  else Ok (drop_duplicates_rows keep data).

(** [df_deduplicate(df, keep, consecutives, cols=None, all_col)] *)
Definition df_deduplicate (df : table (list Z)) (keep : keep_t) (consecutives : bool)
  (all_col : bool) : res (table (list Z)) :=
  _data_deduplicate_frame df keep consecutives all_col.

(** ** Data frames: [df_filter] and [df_filter_task_ids]

    A frame has string column labels (distinct) and rows holding one cell
    per column. *)
Inductive value := VInt (z : Z) | VStr (s : String.string).

(** [==] on two cells; an integer never equals a string. *)
Definition value_eqb (a b : value) : bool :=
  match a, b with
  | VInt x, VInt y => Z.eqb x y
  | VStr x, VStr y => String.eqb x y
  | _, _ => false
  end.

Record frame := mk_frame { columns : list String.string; frows : table (list value) }.

Fixpoint col_pos (c : String.string) (cs : list String.string) : option nat :=
  match cs with
  | [] => None
  | c' :: cs' => if String.eqb c c' then Some O
                 else match col_pos c cs' with Some i => Some (S i) | None => None end
  end.

(** The cell of row [r] in column position [i]. *)
Definition cell (i : nat) (r : Q * list value) : value := nth i (snd r) (VInt 0).

(** [df[c]]; a missing column raises [KeyError]. *)
Definition get_col (df : frame) (c : String.string) : res (list value) :=
  match col_pos c (columns df) with
  | None => Err KeyError
  | Some i => Ok (map (cell i) (frows df))
  end.

(** [df[mask]] with a boolean series. *)
Definition select (df : frame) (m : list bool) : frame :=
  mk_frame (columns df) (mask (frows df) m).

Fixpoint res_map {A B} (f : A -> res B) (l : list A) : res (list B) :=
  match l with
  | [] => Ok []
  | x :: l' => y <- f x ;; ys <- res_map f l' ;; Ok (y :: ys)
  end.

(** [df_filter(df, filter_columns)]: [functools.reduce(operator.and_, ...)]
    over the masks [df[col] == val], in the order of the dict; [reduce] of
    an empty sequence raises [TypeError]. *)
Definition df_filter (df : frame) (filter_columns : list (String.string * value))
  : res frame :=
  keys <- res_map (fun cv => col <- get_col df (fst cv) ;;
                             Ok (map (fun v => value_eqb v (snd cv)) col))
                  filter_columns ;;
  match keys with
  | [] => Err TypeError
  | k :: ks => Ok (select df (fold_left (zip_with andb) ks k))
  end.

(** A [TaskID]: [pid] and [comm], either possibly [None]. *)
Record task_id := mk_task_id { pid : option Z; comm : option String.string }.

(** A Python boolean or a boolean series. *)
Inductive bkey := KBool (b : bool) | KMask (m : list bool).

(** [a & b] and [a | b], a boolean being broadcast over a series. *)
Definition bkey_and (a b : bkey) : bkey :=
  match a, b with
  | KBool x, KBool y => KBool (x && y)
  | KBool x, KMask m => KMask (map (andb x) m)
  | KMask m, KBool y => KMask (map (fun v => v && y) m)
  | KMask m1, KMask m2 => KMask (zip_with andb m1 m2)
  end.
Definition bkey_or (a b : bkey) : bkey :=
  match a, b with
  | KBool x, KBool y => KBool (x || y)
  | KBool x, KMask m => KMask (map (orb x) m)
  | KMask m, KBool y => KMask (map (fun v => v || y) m)
  | KMask m1, KMask m2 => KMask (zip_with orb m1 m2)
  end.

(** Python truthiness of a column name argument ([None] and the empty
    string are false). *)
Definition col_given (c : option String.string) : option String.string :=
  match c with
  | Some s => if String.eqb s String.EmptyString then None else Some s
  | None => None
  end.

(** [make_filter(task_id)] of [df_filter_task_ids]; [comm[:comm_max_len]]
    for a non-negative [comm_max_len]. *)
Definition make_filter (df : frame) (pid_col comm_col : option String.string)
  (comm_max_len : nat) (t : task_id) : res bkey :=
  p <- match col_given pid_col, pid t with
       | Some c, Some v => col <- get_col df c ;;
                           Ok (KMask (map (fun x => value_eqb x (VInt v)) col))
       | _, _ => Ok (KBool true)
       end ;;
  c <- match col_given comm_col, comm t with
       | Some c, Some s => col <- get_col df c ;;
                           Ok (KMask (map (fun x => value_eqb x
                                             (VStr (String.substring 0 comm_max_len s))) col))
       | _, _ => Ok (KBool true)
       end ;;
  Ok (bkey_and p c).

(** [df_filter_task_ids(df, task_ids, pid_col, comm_col, invert,
    comm_max_len)].  The filters are or-ed from [False].  When the result is
    a boolean series it selects rows ([~] negating it); when it is a Python
    [bool], [df[key]] is a column lookup of [False], [True], or, inverted,
    [~False = -1] or [~True = -2], none of which is a (string) column
    label: [KeyError]. *)
Definition df_filter_task_ids (df : frame) (task_ids : list task_id)
  (pid_col comm_col : option String.string) (invert : bool) (comm_max_len : nat)
  : res frame :=
  filters <- res_map (make_filter df pid_col comm_col comm_max_len) task_ids ;;
  match fold_left bkey_or filters (KBool false) with
  | KMask m => Ok (select df (if invert then map negb m else m))
  | KBool _ => Err KeyError
  end.

(** * Predicates and sample tables *)

(** The index of a table is strictly increasing. *)
Definition sorted_rows {R} (t : table R) : Prop := increasing (map fst t) = true.

(** Window predicate of a label slice. *)
Definition in_window (w : option Q * option Q) (t : Q) : bool :=
  (match fst w with None => true | Some s => qle s t end) &&
  (match snd w with None => true | Some e => qle t e end).

(** A duration-encoded table is gap-free: every row but the last is
    followed by a row at [index + delta]. *)
Fixpoint gap_free {A} (df : table (srow A)) : bool :=
  match df with
  | r :: ((r2 :: _) as df') => qeq (fst r2) (fst r + delta (snd r)) && gap_free df'
  | _ => true
  end.

(** No two neighbours are equal. *)
Fixpoint adj_distinct {A} (eqb : A -> A -> bool) (l : list A) : bool :=
  match l with
  | x :: ((y :: _) as l') => negb (eqb x y) && adj_distinct eqb l'
  | _ => true
  end.

(** Total duration of a duration-encoded table. *)
Definition sum_delta {A} (df : table (srow A)) : Q :=
  fold_right (fun r acc => delta (snd r) + acc) 0 df.

(** A two-row table used by the witnesses below. *)
Definition two_rows : table Z := [(0, 1%Z); (10, 2%Z)].

(** A numeric series with values of both signs, used by the witnesses below. *)
Definition three_values : table Q := [(0, -1); (1, 3); (3, 2)].

(** A three-row table used by the witnesses below. *)
Definition three_rows : table Z := [(0, 1%Z); (10, 2%Z); (20, 3%Z)].

(** Two signals sampled at [0, 1, ..., 10], with a single pulse at index
    [2] ([ref]) and at index [6] ([to_align]). *)
Definition pulse_ref : table Q :=
  map (fun i => (inject_Z (Z.of_nat i), if Nat.eqb i 2 then 1 else 0)) (seq 0 11).
Definition pulse_to_align : table Q :=
  map (fun i => (inject_Z (Z.of_nat i), if Nat.eqb i 6 then 1 else 0)) (seq 0 11).

(** A frame with a [pid] and a [comm] column. *)
Definition task_frame : frame :=
  mk_frame ["pid"%string; "comm"%string]
    [(0, [VInt 1; VStr "sh"]); (1, [VInt 2; VStr "bash"]); (2, [VInt 1; VStr "bash"])].

(** The series [[1, 2, 2, 3, 4, 2]] on the index [[1, 2, 20, 30, 40, 50]] of
    the [series_deduplicate] docstring. *)
Definition dedup_example : table Z :=
  [(1, 1%Z); (2, 2%Z); (20, 2%Z); (30, 3%Z); (40, 4%Z); (50, 2%Z)].

(** Two rows of a duration-encoded table are the same: equal index and
    [delta] values (as numbers) and equal other columns. *)
Definition srow_eqv {A} (r1 r2 : Q * srow A) : Prop :=
  fst r1 == fst r2 /\ delta (snd r1) == delta (snd r2) /\ cols (snd r1) = cols (snd r2).

(** The table of the [df_squash] docstring: columns [Time], [len], [state]. *)
Definition squash_example : table (srow Z) :=
  [(15, mk_srow 1 1%Z); (16, mk_srow 1 0%Z); (17, mk_srow 1 1%Z); (18, mk_srow 1 0%Z)].

(** * Properties *)

(** ** Comparisons *)

Lemma qle_iff x y : qle x y = true <-> x <= y.
Proof. apply Qle_bool_iff. Qed.

Lemma qlt_iff x y : qlt x y = true <-> x < y.
Proof.
  unfold qlt. rewrite Bool.negb_true_iff. split; intro H.
  - apply Qnot_le_lt. intro H'. apply Qle_bool_iff in H'. congruence.
  - destruct (Qle_bool y x) eqn:E; [|reflexivity].
    apply Qle_bool_iff in E. exfalso. apply (Qlt_not_le _ _ H E).
Qed.

Lemma qle_false x y : qle x y = false <-> y < x.
Proof.
  split; intro H.
  - apply Qnot_le_lt. intro H'. apply qle_iff in H'. congruence.
  - destruct (qle x y) eqn:E; [|reflexivity].
    apply qle_iff in E. exfalso. apply (Qlt_not_le _ _ H E).
Qed.

Lemma qlt_false x y : qlt x y = false <-> y <= x.
Proof.
  unfold qlt. rewrite Bool.negb_false_iff. apply Qle_bool_iff.
Qed.

Lemma qeq_iff x y : qeq x y = true <-> x == y.
Proof. apply Qeq_bool_iff. Qed.

(** Rewrite boolean comparisons into propositions, or close the goal. *)
Ltac qbool :=
  repeat match goal with
  | H : qle _ _ = true |- _ => apply qle_iff in H
  | H : qle _ _ = false |- _ => apply qle_false in H
  | H : qlt _ _ = true |- _ => apply qlt_iff in H
  | H : qlt _ _ = false |- _ => apply qlt_false in H
  | H : qeq _ _ = true |- _ => apply qeq_iff in H
  end.

(** ** Sorted tables *)


Lemma increasing_cons x l :
  increasing (x :: l) = true -> Forall (fun y => x < y) l /\ increasing l = true.
Proof.
  revert x. induction l as [|y l IH]; intros x H; [split; auto|].
  cbn [increasing] in H. apply andb_prop in H as [Hxy Hl].
  apply qlt_iff in Hxy. split; [|exact Hl].
  destruct (IH y Hl) as [Hf _]. constructor; [exact Hxy|].
  eapply Forall_impl; [|exact Hf]. intros z Hz. cbn beta in Hz. apply (Qlt_trans _ y); auto.
Qed.

Lemma sorted_rows_cons {R} (x : Q * R) l :
  sorted_rows (x :: l) -> Forall (fun y => fst x < fst y) l /\ sorted_rows l.
Proof.
  unfold sorted_rows. cbn [map]. intro H. apply increasing_cons in H as [Hf Hl].
  split; [|exact Hl]. rewrite Forall_map in Hf. exact Hf.
Qed.

Lemma count_while_false {A} (p : A -> bool) l :
  Forall (fun y => p y = false) l -> count_while p l = O.
Proof. destruct l; intros H; [reflexivity|]. inversion H; subst; cbn. now rewrite H2. Qed.

Lemma filter_false {A} (p : A -> bool) l :
  Forall (fun y => p y = false) l -> filter p l = [].
Proof. induction 1; cbn; [reflexivity|]. now rewrite H. Qed.


(** On a sorted table, label slicing selects the rows inside the window. *)
Lemma label_slice_filter {R} (w : option Q * option Q) (data : table R) :
  sorted_rows data ->
  label_slice w data = filter (fun r => in_window w (fst r)) data.
Proof.
  destruct w as [s e]. unfold label_slice, in_window, iloc_slice; cbn [fst snd].
  induction data as [|x l IH]; intro Hs.
  - destruct s, e; reflexivity.
  - apply sorted_rows_cons in Hs as [Hf Hs]. specialize (IH Hs).
    cbn [map length filter].
    destruct s as [s|], e as [e|];
      unfold searchsorted_left, searchsorted_right in *; cbn [count_while] in *.
    + destruct (qlt (fst x) s) eqn:E1, (qle (fst x) e) eqn:E2; qbool.
      * cbn [skipn Nat.sub]. rewrite IH.
        replace (qle s (fst x)) with false by (symmetry; apply qle_false; auto).
        reflexivity.
      * rewrite filter_false; [destruct (qle s (fst x)); reflexivity|].
        eapply Forall_impl; [|exact Hf]. intros y Hy; cbn beta in Hy.
        apply andb_false_iff. right. apply qle_false. apply (Qlt_trans _ (fst x)); auto.
      * replace (qle s (fst x)) with true by (symmetry; apply qle_iff; auto).
        replace (qle (fst x) e) with true by (symmetry; apply qle_iff; auto).
        cbn [andb skipn Nat.sub firstn].
        rewrite (count_while_false (fun t => qlt t s)) in IH.
        -- rewrite <- IH. cbn [skipn]. rewrite ?Nat.sub_0_r. reflexivity.
        -- rewrite Forall_map. eapply Forall_impl; [|exact Hf]. intros y Hy; cbn beta in Hy.
           apply qlt_false. apply Qlt_le_weak. apply (Qle_lt_trans _ (fst x)); auto.
      * replace (qle (fst x) e) with false by (symmetry; apply qle_false; auto).
        rewrite andb_false_r. cbn [firstn].
        rewrite filter_false; [reflexivity|].
        eapply Forall_impl; [|exact Hf]. intros y Hy; cbn beta in Hy.
        apply andb_false_iff. right. apply qle_false. apply (Qlt_trans _ (fst x)); auto.
    + destruct (qlt (fst x) s) eqn:E1; qbool.
      * cbn [skipn Nat.sub]. rewrite IH.
        replace (qle s (fst x)) with false by (symmetry; apply qle_false; auto).
        reflexivity.
      * replace (qle s (fst x)) with true by (symmetry; apply qle_iff; auto).
        cbn [andb skipn Nat.sub firstn].
        rewrite (count_while_false (fun t => qlt t s)) in IH.
        -- rewrite <- IH. cbn [skipn]. rewrite ?Nat.sub_0_r. reflexivity.
        -- rewrite Forall_map. eapply Forall_impl; [|exact Hf]. intros y Hy; cbn beta in Hy.
           apply qlt_false. apply Qlt_le_weak. apply (Qle_lt_trans _ (fst x)); auto.
    + destruct (qle (fst x) e) eqn:E2; qbool.
      * cbn [andb skipn Nat.sub firstn] in *. rewrite <- IH.
        rewrite ?Nat.sub_0_r. reflexivity.
      * cbn [andb firstn]. rewrite filter_false; [reflexivity|].
        eapply Forall_impl; [|exact Hf]. intros y Hy; cbn beta in Hy.
        apply qle_false. apply (Qlt_trans _ (fst x)); auto.
    + cbn [andb skipn Nat.sub] in *. rewrite ?Nat.sub_0_r in *.
      rewrite length_map in *. rewrite firstn_all in *. cbn [firstn].
      rewrite firstn_all. rewrite <- IH. reflexivity.
Qed.

(** ** Positional slices *)

Lemma iloc_slice_contig {A} (a b : nat) (l : list A) :
  exists pre suf, l = pre ++ iloc_slice a b l ++ suf.
Proof.
  exists (firstn a l), (skipn (b - a) (skipn a l)). unfold iloc_slice.
  now rewrite !firstn_skipn.
Qed.

Lemma lookup_slice_iloc {R} (data : table R) w ms d :
  lookup_slice data w ms = Ok d -> exists a b, d = iloc_slice a b data.
Proof.
  unfold lookup_slice, bind. destruct w as [s e]; cbn [fst snd].
  destruct s as [s|]; [destruct (get_loc (map fst data) s (fst ms))|];
    try discriminate; destruct e as [e|]; try discriminate;
    destruct (get_loc (map fst data) e (snd ms)); try discriminate;
    intro H; injection H as <-; eauto.
Qed.

Lemma data_window_iloc {R} (data : table R) w m clip_window fi d :
  _data_window data w m clip_window fi = Ok d -> exists a b, d = iloc_slice a b data.
Proof.
  unfold _data_window. destruct (if clip_window then _ else _) as [w'|]; cbn [bind];
    [|discriminate].
  destruct m; try destruct fi; intro H;
    try (injection H as <-; unfold label_slice; eauto);
    try (eapply lookup_slice_iloc; exact H); discriminate.
Qed.

(** ** Exact boundary lookups *)

Lemma increasing_last l y :
  increasing (l ++ [y]) = true -> Forall (fun z => z < y) l /\ increasing l = true.
Proof.
  induction l as [|z l IH]; intro H; [split; [constructor | reflexivity]|].
  cbn [app] in H. pose proof (increasing_cons _ _ H) as [Hf Hl].
  destruct (IH Hl) as [IHf IHl]. split.
  - constructor; [|exact IHf]. apply Forall_app in Hf as [_ Hy].
    now inversion Hy.
  - destruct l as [|w l]; [reflexivity|].
    change (qlt z w && increasing ((w :: l) ++ [y]) = true) in H.
    change (qlt z w && increasing (w :: l) = true).
    apply andb_prop in H as [H1 _]. now rewrite H1, IHl.
Qed.

Lemma get_loc_exact idx x k :
  pad_indexer idx x = Some k -> backfill_indexer idx x = Some k ->
  forall f, get_loc idx x f = Ok k.
Proof.
  intros Hp Hb f. destruct f; cbn [get_loc]; rewrite ?Hp, ?Hb; try reflexivity.
  now destruct (qlt _ _).
Qed.

Lemma get_loc_first x l :
  increasing (x :: l) = true -> forall f, get_loc (x :: l) x f = Ok O.
Proof.
  intro H. apply increasing_cons in H as [Hf _]. apply get_loc_exact.
  - unfold pad_indexer, searchsorted_right. cbn [count_while].
    replace (qle x x) with true by (symmetry; apply qle_iff; apply Qle_refl).
    rewrite count_while_false; [reflexivity|].
    eapply Forall_impl; [|exact Hf]. intros y Hy. now apply qle_false.
  - unfold backfill_indexer, searchsorted_left. cbn [count_while].
    replace (qlt x x) with false by (symmetry; apply qlt_false; apply Qle_refl).
    reflexivity.
Qed.

Lemma get_loc_last l y :
  increasing (l ++ [y]) = true -> forall f, get_loc (l ++ [y]) y f = Ok (length l).
Proof.
  intro H. apply increasing_last in H as [Hf _]. apply get_loc_exact.
  - unfold pad_indexer, searchsorted_right.
    assert (E : count_while (fun t => qle t y) (l ++ [y]) = S (length l)).
    { induction Hf as [|z l Hz Hf IH]; cbn [count_while app length].
      - replace (qle y y) with true by (symmetry; apply qle_iff; apply Qle_refl).
        reflexivity.
      - replace (qle z y) with true by (symmetry; apply qle_iff; now apply Qlt_le_weak).
        now rewrite IH. }
    now rewrite E.
  - unfold backfill_indexer, searchsorted_left.
    assert (E : count_while (fun t => qlt t y) (l ++ [y]) = length l).
    { induction Hf as [|z l Hz Hf IH]; cbn [count_while app length].
      - replace (qlt y y) with false by (symmetry; apply qlt_false; apply Qle_refl).
        reflexivity.
      - replace (qlt z y) with true by (symmetry; now apply qlt_iff).
        now rewrite IH. }
    rewrite E, length_app. cbn [length].
    replace (length l <? length l + 1)%nat with true by (symmetry; apply Nat.ltb_lt; lia).
    reflexivity.
Qed.

Lemma last_opt_app {A} (l : list A) x :
  last_opt l = Some x -> exists init, l = init ++ [x].
Proof.
  induction l as [|y l IH]; [discriminate|]. destruct l as [|z l].
  - intro H. injection H as <-. now exists [].
  - intro H. destruct (IH H) as [init E]. exists (y :: init). now rewrite E.
Qed.

Lemma last_opt_snoc {A} (l : list A) x : last_opt (l ++ [x]) = Some x.
Proof.
  induction l as [|y l IH]; [reflexivity|]. cbn [app]. rewrite <- IH.
  destruct l; reflexivity.
Qed.

Lemma filter_sorted_head {R} (x : Q * R) l (p : Q -> bool) :
  sorted_rows (x :: l) -> p (fst x) = true ->
  (forall t, fst x < t -> p t = false) ->
  filter (fun r => p (fst r)) (x :: l) = [x].
Proof.
  intros Hs Hx Hlt. apply sorted_rows_cons in Hs as [Hf _].
  cbn [filter]. rewrite Hx, filter_false; [reflexivity|].
  eapply Forall_impl; [|exact Hf]. intros y Hy. now apply Hlt.
Qed.

Lemma filter_sorted_last {R} init (x : Q * R) (p : Q -> bool) :
  sorted_rows (init ++ [x]) -> p (fst x) = true ->
  (forall t, t < fst x -> p t = false) ->
  filter (fun r => p (fst r)) (init ++ [x]) = [x].
Proof.
  unfold sorted_rows. rewrite map_app. cbn [map]. intros Hs Hx Hlt.
  apply increasing_last in Hs as [Hf _].
  rewrite filter_app, filter_false; cbn [filter]; [now rewrite Hx|].
  rewrite Forall_map in Hf. eapply Forall_impl; [|exact Hf]. intros y Hy. now apply Hlt.
Qed.

Lemma first_le_last {R} (x y : Q * R) l :
  sorted_rows (x :: l) -> last_opt (x :: l) = Some y -> fst x <= fst y.
Proof.
  intros Hs Hl. apply last_opt_app in Hl as [init E].
  destruct init as [|z init].
  - injection E as -> _. apply Qle_refl.
  - injection E as -> E. apply sorted_rows_cons in Hs as [Hf _].
    rewrite E in Hf. apply Forall_app in Hf as [_ Hf]. inversion Hf.
    now apply Qlt_le_weak.
Qed.

(** Clipping, then windowing the clipped bounds. *)
Lemma data_window_clip {R} (data : table R) w m fi :
  _data_window data w m true fi =
  (w' <- clip (map fst data) w ;; _data_window data w' m false fi).
Proof. reflexivity. Qed.

(** A window collapsed onto the first index value selects the first row,
    with every method. *)
Lemma window_at_first {R} (x : Q * R) l m fi :
  sorted_rows (x :: l) -> m <> Unsupported ->
  _data_window (x :: l) (Some (fst x), Some (fst x)) m false fi = Ok [x].
Proof.
  intros Hs Hm.
  assert (Hl : forall ms, lookup_slice (x :: l) (Some (fst x), Some (fst x)) ms = Ok [x]).
  { intro ms. unfold lookup_slice. cbn [fst snd map].
    rewrite !(get_loc_first _ _ Hs). reflexivity. }
  unfold _data_window; cbn [bind].
  destruct m; [destruct fi| | | | |congruence]; rewrite ?Hl; try reflexivity.
  f_equal. rewrite label_slice_filter by exact Hs.
  apply (filter_sorted_head x l (in_window (Some (fst x), Some (fst x)))); auto.
  - unfold in_window; cbn [fst snd].
    replace (qle (fst x) (fst x)) with true by (symmetry; apply qle_iff, Qle_refl).
    reflexivity.
  - intros t Ht. unfold in_window; cbn [fst snd].
    replace (qle t (fst x)) with false by (symmetry; now apply qle_false).
    apply andb_false_r.
Qed.

Lemma window_at_last {R} init (x : Q * R) m fi :
  sorted_rows (init ++ [x]) -> m <> Unsupported ->
  _data_window (init ++ [x]) (Some (fst x), Some (fst x)) m false fi = Ok [x].
Proof.
  intros Hs Hm.
  assert (Hl : forall ms, lookup_slice (init ++ [x]) (Some (fst x), Some (fst x)) ms = Ok [x]).
  { intro ms. unfold lookup_slice. cbn [fst snd]. pose proof Hs as Hs'.
    unfold sorted_rows in Hs'. rewrite map_app in *. cbn [map] in *.
    rewrite !(get_loc_last _ _ Hs'). cbn [bind].
    unfold iloc_slice. rewrite length_map.
    replace (S (length init) - length init)%nat with 1%nat by lia.
    rewrite skipn_app, skipn_all, Nat.sub_diag. reflexivity. }
  unfold _data_window; cbn [bind].
  destruct m; [destruct fi| | | | |congruence]; rewrite ?Hl; try reflexivity.
  f_equal. rewrite label_slice_filter by exact Hs.
  apply (filter_sorted_last init x (in_window (Some (fst x), Some (fst x)))); auto.
  - unfold in_window; cbn [fst snd].
    replace (qle (fst x) (fst x)) with true by (symmetry; apply qle_iff, Qle_refl).
    reflexivity.
  - intros t Ht. unfold in_window; cbn [fst snd].
    replace (qle (fst x) t) with false by (symmetry; now apply qle_false).
    reflexivity.
Qed.

(** C8 (clip clamping). On a non-empty table with a strictly increasing
    index, windowing with [clip_window=True] and any supported method
    returns only the first row when the requested window lies entirely
    before the data, and only the last row when it lies entirely after. *)
Theorem window_clip_outside {R} (data : table R) (m : method) (fi : bool)
  (first_row last_row : Q * R)
  (Hs : sorted_rows data) (Hm : m <> Unsupported)
  (Hfirst : hd_error data = Some first_row) (Hlast : last_opt data = Some last_row) :
  (forall s e, (forall s', s = Some s' -> s' < fst first_row) -> e < fst first_row ->
     _data_window data (s, Some e) m true fi = Ok [first_row]) /\
  (forall s e, fst last_row < s -> (forall e', e = Some e' -> fst last_row < e') ->
     _data_window data (Some s, e) m true fi = Ok [last_row]).
Proof.
  destruct data as [|x l]; [discriminate|]. injection Hfirst as <-.
  pose proof (first_le_last _ _ _ Hs Hlast) as Hfl.
  pose proof (last_opt_app _ _ Hlast) as [init Einit].
  assert (Elast : last (fst x :: map fst l) (fst x) = fst last_row).
  { change (fst x :: map fst l) with (map fst (x :: l)).
    rewrite Einit, map_app. apply last_last. }
  split.
  - intros s e Hs' He. rewrite data_window_clip. unfold clip. cbn [map bind fst snd].
    rewrite Elast.
    replace (qle (match s with Some s => s | None => fst x end) (fst x)) with true.
    2:{ symmetry. apply qle_iff. destruct s as [s|]; [|apply Qle_refl].
        apply Qlt_le_weak. now apply Hs'. }
    replace (qle e (fst x)) with true by (symmetry; apply qle_iff; now apply Qlt_le_weak).
    cbn [andb bind]. now apply window_at_first.
  - intros s e Hs' He. rewrite data_window_clip. unfold clip. cbn [map bind fst snd].
    rewrite Elast.
    replace (qle s (fst x)) with false
      by (symmetry; apply qle_false; apply (Qle_lt_trans _ (fst last_row)); auto).
    replace (qle (fst last_row) s) with true by (symmetry; apply qle_iff; now apply Qlt_le_weak).
    replace (qle (fst last_row) (match e with Some e => e | None => fst last_row end)) with true.
    2:{ symmetry. apply qle_iff. destruct e as [e|]; [|apply Qle_refl].
        apply Qlt_le_weak. now apply He. }
    cbn [andb bind]. rewrite Einit. apply window_at_last; [|exact Hm].
    now rewrite <- Einit.
Qed.


Lemma window_clip_outside_witness :
  _data_window two_rows (Some (-5), Some (-1)) Pre true false = Ok [(0, 1%Z)] /\
  _data_window two_rows (Some 12, None) Nearest true true = Ok [(10, 2%Z)].
Proof.
  split.
  - refine (proj1 (window_clip_outside two_rows Pre false (0, 1%Z) (10, 2%Z)
                     _ _ _ _) _ _ _ _);
      [reflexivity | discriminate | reflexivity | reflexivity | | reflexivity].
    intros s' H. injection H as <-. reflexivity.
  - refine (proj2 (window_clip_outside two_rows Nearest true (0, 1%Z) (10, 2%Z)
                     _ _ _ _) _ _ _ _);
      [reflexivity | discriminate | reflexivity | reflexivity | reflexivity |].
    intros e' H. discriminate.
Defined.

(** C10 (windowing returns an untouched contiguous block). Whenever
    [series_window]/[df_window] return a table, it is a contiguous block of
    the input rows: the input is [pre ++ result ++ suf], so the surviving
    rows keep their order, their index values and their column values. *)
Theorem window_contiguous {R} (data : table R) w m clip_window fi d
  (H : _data_window data w m clip_window fi = Ok d) :
  exists pre suf, data = pre ++ d ++ suf.
Proof.
  apply data_window_iloc in H as [a [b ->]]. apply iloc_slice_contig.
Qed.

Lemma window_contiguous_witness :
  exists pre suf, [(0, 1%Z); (5, 7%Z); (10, 2%Z)] =
                  pre ++ [(5, 7%Z); (10, 2%Z)] ++ suf.
Proof.
  apply (window_contiguous [(0, 1%Z); (5, 7%Z); (10, 2%Z)] (Some 3, Some 10)
           Inclusive false true).
  reflexivity.
Defined.

(** C5 (inclusive windowing path equivalence). On the index [[0, 10]] and
    the window [(3, 7)] with [method='inclusive'], the native
    [Float64Index] slicing fast path returns no row while the position
    lookup path (ffill for the start, bfill for the end) returns both rows:
    the two paths of the same method disagree. *)
Theorem inclusive_paths_differ :
  _data_window two_rows (Some 3, Some 7) Inclusive false true = Ok [] /\
  _data_window two_rows (Some 3, Some 7) Inclusive false false = Ok two_rows.
Proof. split; reflexivity. Qed.

(** C6 (empty input). [series_window]/[df_window] with the default
    [clip_window=True] raise [IndexError] on an empty table ([index[0]]),
    for every method and index type, while [df_squash] and
    [df_refit_index] return the empty table unchanged. *)
Theorem window_empty_raises {R} (m : method) (fi : bool) (w : option Q * option Q) :
  series_window (R := R) [] w m true fi = Err IndexError /\
  df_window (R := R) [] w m true fi = Err IndexError /\
  df_refit_index (R := R) [] (fst w) (snd w) m fi = Ok [] /\
  (forall A start end_, df_squash (A := A) [] start end_ = []).
Proof. repeat split. Qed.


(** C7 (deduplication round trip). With [keep='first'] and
    [consecutives=True] the result holds the values [[1, 2, 3, 4, 2]]; with
    [consecutives=False] the call raises [ValueError] instead of returning
    [[1, 2, 3, 4]], since [series_deduplicate] passes [all_col=None]. *)
Theorem series_deduplicate_example :
  (match series_deduplicate dedup_example KeepFirst true with
   | Ok s => map snd s = [1; 2; 3; 4; 2]%Z
   | Err _ => False
   end) /\
  series_deduplicate dedup_example KeepFirst false = Err ValueError /\
  _data_deduplicate dedup_example KeepFirst false (Some true)
    = Ok [(1, 1%Z); (2, 2%Z); (30, 3%Z); (40, 4%Z)].
Proof. repeat split; reflexivity. Qed.

(** ** Shift capping *)

(** The resampled signals of [series_align_signal] are sampled
    [linspace_step] apart, which is more than [period] whenever there are
    at least two samples: [num - 1 < (end - start) / period]. *)
Lemma linspace_step_gt_period (s e p : Q) :
  0 < p -> s < e -> (2 <= Qceiling ((e - s) / p))%Z ->
  p < linspace_step s e (Qceiling ((e - s) / p)).
Proof.
  intros Hp Hse Hn. unfold linspace_step.
  set (n := Qceiling ((e - s) / p)) in *.
  assert (Hc : inject_Z (n - 1) < (e - s) / p) by apply Qceiling_lt.
  assert (Hn1 : 0 < inject_Z (n - 1)) by (change 0 with (inject_Z 0); rewrite <- Zlt_Qlt; lia).
  apply Qlt_shift_div_l; [exact Hn1|].
  apply (Qmult_lt_r _ _ (/ p)); [now apply Qinv_lt_0_compat|].
  apply (Qlt_le_trans _ ((e - s) / p)); [|apply Qle_refl].
  setoid_replace (p * inject_Z (n - 1) * / p) with (inject_Z (n - 1)); [exact Hc|].
  field. intro E. rewrite E in Hp. discriminate.
Qed.

(** C9 (alignment boundedness), refuted by the code.  [pulse_ref] and
    [pulse_to_align] are sampled at [0 .. 10], so [period = 1] and
    [num = ceil(10 / 1) = 10]: the resampled signals are [10/9] apart.  The
    correlation peaks at [13], an uncapped shift of [3] samples, which
    [max_shift = 1] caps to [int(1 / 1) = 1] sample: [to_align] comes back
    with its pulse moved from sample [6] to sample [5], that is by [10/9]
    index units, more than [max_shift].  The sample spacing always exceeds
    [period] when there are two samples or more.  Besides, a [max_shift]
    below [period] caps a shift of [5] to [0], whose sign is not the sign
    of [5]. *)
Theorem align_shift_exceeds_max :
  (exists period new_index ref_v to_align_v,
     (align_prepare pulse_ref pulse_to_align = Ok (period, new_index, ref_v, to_align_v)) /\
     (period == 1) /\
     (argmax (correlate to_align_v ref_v) = Ok 13%nat) /\
     ((Z.of_nat 13 - Z.of_nat (length to_align_v))%Z = 3%Z) /\
     (cap_shift 3 (Some 1) period = Ok 1%Z) /\
     (series_align_signal pulse_ref pulse_to_align (Some 1) =
        Ok (new_index, ref_v, shift_opt (-1) to_align_v)) /\
     (nth 6 to_align_v None = Some 1) /\
     (nth 5 (shift_opt (-1) to_align_v) None = Some 1) /\
     (nth 6 new_index 0 - nth 5 new_index 0 == 10 # 9) /\ (1 < 10 # 9)) /\
  (forall s e p, 0 < p -> s < e -> (2 <= Qceiling ((e - s) / p))%Z ->
     p < linspace_step s e (Qceiling ((e - s) / p))) /\
  (cap_shift 5 (Some 0) 1 = Ok 0%Z) /\ (Z.sgn 0 <> Z.sgn 5).
Proof.
  split; [|split; [exact linspace_step_gt_period | split; [reflexivity | discriminate]]].
  destruct (align_prepare pulse_ref pulse_to_align) as [[[[p idx] rv] tv]|e] eqn:E;
    vm_compute in E; [|discriminate].
  injection E as <- <- <- <-.
  exists 1, [0 # 9; 10 # 9; 20 # 9; 30 # 9; 40 # 9; 50 # 9; 60 # 9; 70 # 9; 80 # 9; 90 # 9].
  do 2 eexists. split; [vm_compute; reflexivity|].
  repeat split; vm_compute; reflexivity.
Qed.

(** ** Squashing *)



(** C2 (squash worked example). *)
Theorem df_squash_example :
  Forall2 srow_eqv (df_squash squash_example 16.5 17.5)
    [(16.5, mk_srow 0.5 0%Z); (17, mk_srow 0.5 1%Z)] /\
  Forall2 srow_eqv (df_squash squash_example 16.2 16.8)
    [(16.2, mk_srow 0.6 0%Z)].
Proof. split; vm_compute; repeat constructor. Qed.

Lemma last_opt_none {A} (l : list A) : last_opt l = None -> l = [].
Proof.
  induction l as [|x l IH]; [reflexivity|]. destruct l; [discriminate|].
  intro H. specialize (IH H). discriminate.
Qed.

Lemma in_index_In {R} (x : Q) (t : table R) r :
  In r t -> fst r == x -> in_index x t = true.
Proof.
  intros Hin Hr. apply existsb_exists. exists r. split; [exact Hin|]. now apply qeq_iff.
Qed.

Lemma drop_label_spec {R} (x : Q) (t : table R) r :
  In r (drop_label x t) -> ~ fst r == x.
Proof.
  unfold drop_label. intros Hin E. apply filter_In in Hin as [_ H].
  apply qeq_iff in E. now rewrite E in H.
Qed.

(** C3 (squash end-collision rule). On a table with a strictly increasing
    index, when [start < end], [end] does not exceed the data's extent
    ([last_index + last_delta]) and some row has index [end], no row of the
    [df_squash] result has index [end]. *)
Theorem df_squash_end_dropped {A} (df : table (srow A)) (start end_ : Q)
  (r : Q * srow A)
  (Hs : sorted_rows df) (Hlt : start < end_) (Hin : In r df) (Hr : fst r == end_)
  (Hext : forall lt lr, last_opt df = Some (lt, lr) -> end_ <= lt + delta lr) :
  forall r', In r' (df_squash df start end_) -> ~ fst r' == end_.
Proof.
  unfold df_squash. destruct (last_opt df) as [[lt lr]|] eqn:El.
  2:{ apply last_opt_none in El. subst df. destruct Hin. }
  specialize (Hext lt lr eq_refl).
  assert (He' : Qmin end_ (lt + delta lr) == end_) by now apply Q.min_l.
  set (e' := Qmin end_ (lt + delta lr)) in *.
  replace (qlt e' start) with false by (symmetry; apply qlt_false; rewrite He'; now apply Qlt_le_weak).
  assert (Hmid : In r (label_slice (Some start, Some e') df)).
  { rewrite label_slice_filter by exact Hs. apply filter_In. split; [exact Hin|].
    unfold in_window; cbn [fst snd]. apply andb_true_intro. split; apply qle_iff.
    - rewrite Hr. now apply Qlt_le_weak.
    - rewrite Hr, He'. apply Qle_refl. }
  cbn zeta. destruct (label_slice (Some start, Some e') df) as [|m ms] eqn:Em;
    [destruct Hmid|].
  rewrite (in_index_In e' _ r); [|apply in_or_app; now right | now rewrite He'].
  intros r' Hr' E. apply drop_label_spec in Hr'. apply Hr'. now rewrite E, He'.
Qed.

Lemma df_squash_end_dropped_witness :
  Forall (fun r' => ~ fst r' == 17) (df_squash squash_example 16.5 17).
Proof.
  apply Forall_forall.
  apply (df_squash_end_dropped squash_example 16.5 17 (17, mk_srow 1 1%Z)).
  - reflexivity.
  - reflexivity.
  - cbn. auto.
  - reflexivity.
  - intros lt lr H. injection H as <- <-. compute. discriminate.
Defined.

(** ** Refitting *)

Lemma count_while_prefix {A} (p : A -> bool) l d :
  forall i, (i < count_while p l)%nat -> p (nth i l d) = true.
Proof.
  induction l as [|x l IH]; cbn [count_while]; intros i Hi; [lia|].
  destruct (p x) eqn:E; [|lia]. destruct i; [exact E|]. apply IH. cbn. lia.
Qed.

Lemma count_while_stop {A} (p : A -> bool) l d :
  (count_while p l < length l)%nat -> p (nth (count_while p l) l d) = false.
Proof.
  induction l as [|x l IH]; cbn [count_while length]; intro H; [lia|].
  destruct (p x) eqn:E; [|exact E]. apply IH. lia.
Qed.

Lemma count_while_le {A} (p : A -> bool) l : (count_while p l <= length l)%nat.
Proof. induction l; cbn; [lia|]. destruct (p a); lia. Qed.

Lemma pad_indexer_spec idx x p :
  pad_indexer idx x = Some p -> (p < length idx)%nat /\ nth p idx 0 <= x.
Proof.
  unfold pad_indexer, searchsorted_right. intro H.
  pose proof (count_while_le (fun t => qle t x) idx) as Hle.
  pose proof (count_while_prefix (fun t => qle t x) idx 0 p) as Hp.
  destruct (count_while _ idx) as [|k]; [discriminate|]. injection H as <-.
  split; [lia|]. apply qle_iff, Hp. lia.
Qed.

Lemma backfill_indexer_spec idx y q :
  backfill_indexer idx y = Some q -> (q < length idx)%nat /\ y <= nth q idx 0.
Proof.
  unfold backfill_indexer, searchsorted_left. intro H.
  destruct (Nat.ltb_spec (count_while (fun t => qlt t y) idx) (length idx)) as [Hl|];
    [|discriminate].
  injection H as <-. split; [exact Hl|].
  apply qlt_false. exact (count_while_stop (fun t => qlt t y) idx 0 Hl).
Qed.

Lemma pad_indexer_some x l v :
  x <= v -> exists p, pad_indexer (x :: l) v = Some p.
Proof.
  intro H. unfold pad_indexer, searchsorted_right. cbn [count_while].
  replace (qle x v) with true by (symmetry; now apply qle_iff). eauto.
Qed.

Lemma backfill_indexer_some l y v :
  v <= y -> exists q, backfill_indexer (l ++ [y]) v = Some q.
Proof.
  intro H. unfold backfill_indexer, searchsorted_left.
  destruct (Nat.ltb_spec (count_while (fun t => qlt t v) (l ++ [y])) (length (l ++ [y])))
    as [|Hge]; [eauto|].
  exfalso. pose proof (count_while_le (fun t => qlt t v) (l ++ [y])).
  pose proof (count_while_prefix (fun t => qlt t v) (l ++ [y]) 0 (length l)) as Hp.
  rewrite length_app in *. cbn [length] in *.
  rewrite app_nth2, Nat.sub_diag in Hp by lia. cbn [nth] in Hp.
  specialize (Hp ltac:(lia)). apply qlt_iff in Hp. apply (Qlt_not_le _ _ Hp H).
Qed.

Lemma increasing_nth l i j :
  increasing l = true -> (i < j)%nat -> (j < length l)%nat -> nth i l 0 < nth j l 0.
Proof.
  revert i j. induction l as [|x l IH]; intros i j Hs Hij Hj; cbn [length] in Hj; [lia|].
  apply increasing_cons in Hs as [Hf Hs]. destruct j as [|j]; [lia|].
  destruct i as [|i]; cbn [nth].
  - rewrite Forall_forall in Hf. apply Hf, nth_In. lia.
  - apply IH; auto; lia.
Qed.

Lemma map_fst_combine {A B} (l1 : list A) (l2 : list B) :
  length l1 = length l2 -> map fst (combine l1 l2) = l1.
Proof.
  revert l2. induction l1 as [|x l1 IH]; intros [|y l2] H; try discriminate; [reflexivity|].
  cbn. f_equal. apply IH. now injection H.
Qed.

Lemma length_removelast_snoc {A} (l : list A) (e : A) :
  l <> [] -> length (removelast l ++ [e]) = length l.
Proof.
  intro H. rewrite (app_removelast_last e H) at 2. rewrite !length_app. reflexivity.
Qed.

(** The index rewriting of [_data_refit_index], once the window is a
    non-empty table [d]. *)
Lemma refit_from_window {R} (data d : table R) start end_ m fi :
  data <> [] ->
  _data_window data (start, end_) m true fi = Ok d ->
  d <> [] ->
  (forall s e, start = Some s -> end_ = Some e -> length d = 1%nat -> s == e) ->
  exists d0, _data_refit_index data start end_ m fi = Ok d0 /\ d0 <> [] /\
    (forall s, start = Some s -> hd_error (map fst d0) = Some s) /\
    (forall e, end_ = Some e -> exists q, last_opt (map fst d0) = Some q /\ q == e).
Proof.
  intros Hne Hw Hd Hone. unfold _data_refit_index.
  destruct data as [|x l]; [congruence|]. rewrite Hw. cbn [bind].
  destruct d as [|y d']; [congruence|].
  assert (Hc : forall idx : list Q, length idx = length (y :: d') ->
                 map fst (combine idx (map snd (y :: d'))) = idx).
  { intros idx Hl. apply map_fst_combine. now rewrite length_map. }
  destruct end_ as [e|]; cbn [map set_last bind].
  - set (X := removelast (fst y :: map fst d') ++ [e]).
    assert (HX : length X = length (y :: d')).
    { unfold X. rewrite length_removelast_snoc by discriminate. cbn. now rewrite length_map. }
    destruct start as [s|].
    + destruct d' as [|z d''].
      * cbn in X. subst X. cbn [set_first bind].
        eexists; split; [reflexivity|]. split; [discriminate|].
        split; [intros s0 H; now injection H as <-|].
        intros e0 H. injection H as <-. exists s. split; [reflexivity|].
        now apply (Hone s e).
      * assert (EX : X = fst y :: (removelast (fst z :: map fst d'') ++ [e])) by reflexivity.
        rewrite EX. cbn [set_first bind].
        eexists; split; [reflexivity|]. split; [discriminate|].
        rewrite Hc by (rewrite <- HX, EX; reflexivity). split.
        -- intros s0 H. now injection H as <-.
        -- intros e0 H. injection H as <-. exists e. split; [|apply Qeq_refl].
           change (s :: removelast (fst z :: map fst d'') ++ [e])
             with ((s :: removelast (fst z :: map fst d'')) ++ [e]).
           apply last_opt_snoc.
    + cbn [bind]. eexists; split; [reflexivity|]. split.
      * destruct X; discriminate.
      * rewrite Hc by exact HX. split; [discriminate|].
        intros e0 H. injection H as <-. exists e. split; [apply last_opt_snoc | apply Qeq_refl].
  - destruct start as [s|]; cbn [set_first bind].
    + eexists; split; [reflexivity|]. split; [discriminate|].
      rewrite Hc by (cbn; now rewrite length_map). split; [|discriminate].
      intros s0 H. now injection H as <-.
    + eexists; split; [reflexivity|]. split; [discriminate|].
      split; discriminate.
Qed.

(** Clipping a window that overlaps the index range keeps an ordered pair
    of bounds inside it. *)
Lemma clip_overlap (f L : Q) rest (start end_ : option Q) :
  last (f :: rest) f = L ->
  let sv := match start with Some s => s | None => f end in
  let ev := match end_ with Some e => e | None => L end in
  f < L -> sv < L -> f < ev -> sv <= ev ->
  exists s' e', clip (f :: rest) (start, end_) = Ok (Some s', Some e') /\
    f <= s' /\ s' <= e' /\ e' <= L /\ (sv < ev -> s' < e').
Proof.
  intros EL sv ev HfL HsL HfE Hse. unfold clip. cbn [fst snd]. rewrite EL.
  fold sv ev.
  replace (qle ev f) with false by (symmetry; now apply qle_false).
  replace (qle L sv) with false by (symmetry; now apply qle_false).
  rewrite !andb_false_r.
  exists (if qle sv f then f else sv), (if qle L ev then L else ev).
  split; [reflexivity|].
  destruct (qle sv f) eqn:E1, (qle L ev) eqn:E2; qbool; repeat split;
    try intros; lra.
Qed.

(** C4 as stated, refuted: on a one-row table whose window [(3, 7)]
    overlaps the single index value [5], the refitted table is the single
    row re-indexed at [start = 3] (the code applies [start] last on purpose),
    so its last index value is not [end = 7].  This holds on both paths. *)
Lemma refit_single_row_counterexample :
  df_refit_index [(5, 1%Z)] (Some 3) (Some 7) Inclusive true = Ok [(3, 1%Z)] /\
  df_refit_index [(5, 1%Z)] (Some 3) (Some 7) Inclusive false = Ok [(3, 1%Z)] /\
  ~ (3 == 7).
Proof.
  split; [reflexivity|]. split; [reflexivity|]. compute. discriminate.
Qed.

(** C4 (refit exactness, amended). On the position-lookup path of the
    [inclusive] method (an index that is not a [Float64Index]), for a table
    with a strictly increasing index and at least two rows, and bounds that
    overlap the index range ([start < last_index], [first_index < end],
    [start <= end]): the refitted table is non-empty, its first index value
    is [start] when [start] is given, and its last index value equals [end]
    when [end] is given. *)
Theorem refit_exact_lookup {R} (data : table R) (start end_ : option Q)
  (first_row last_row : Q * R)
  (Hs : sorted_rows data) (H2 : (2 <= length data)%nat)
  (Hfirst : hd_error data = Some first_row) (Hlast : last_opt data = Some last_row)
  (Hstart : forall s, start = Some s -> s < fst last_row)
  (Hend : forall e, end_ = Some e -> fst first_row < e)
  (Hse : forall s e, start = Some s -> end_ = Some e -> s <= e) :
  exists d, df_refit_index data start end_ Inclusive false = Ok d /\ d <> [] /\
    (forall s, start = Some s -> hd_error (map fst d) = Some s) /\
    (forall e, end_ = Some e -> exists q, last_opt (map fst d) = Some q /\ q == e).
Proof.
  destruct data as [|x l]; [discriminate|]. injection Hfirst as <-.
  pose proof (last_opt_app _ _ Hlast) as [init Einit].
  set (f := fst x) in *. set (L := fst last_row) in *.
  assert (Elast : last (f :: map fst l) f = L).
  { change (f :: map fst l) with (map fst (x :: l)).
    rewrite Einit, map_app. apply last_last. }
  assert (HfL : f < L).
  { pose proof Hs as Hs'. unfold sorted_rows in Hs'. rewrite Einit, map_app in Hs'.
    apply increasing_last in Hs' as [Hf _].
    destruct init as [|z init]; [rewrite Einit in H2; cbn in H2; lia|].
    injection Einit as -> _. now inversion Hf. }
  set (sv := match start with Some s => s | None => f end).
  set (ev := match end_ with Some e => e | None => L end).
  assert (HsL : sv < L) by (unfold sv; destruct start; auto).
  assert (HfE : f < ev) by (unfold ev; destruct end_; auto).
  assert (Hsev : sv <= ev).
  { unfold sv, ev. destruct start as [s|], end_ as [e|]; auto; try lra.
    - specialize (Hstart s eq_refl). lra.
    - specialize (Hend e eq_refl). lra. }
  destruct (clip_overlap f L (map fst l) start end_ Elast HfL HsL HfE Hsev)
    as [s' [e' [Hclip [Hfs [Hse' [HeL Hlt]]]]]].
  assert (Hp : exists p, pad_indexer (map fst (x :: l)) s' = Some p)
    by (apply pad_indexer_some; exact Hfs).
  assert (Hq : exists q, backfill_indexer (map fst (x :: l)) e' = Some q)
    by (rewrite Einit, map_app; apply backfill_indexer_some; exact HeL).
  destruct Hp as [p Hp], Hq as [q Hq].
  pose proof (pad_indexer_spec _ _ _ Hp) as [Hpn Hpv].
  pose proof (backfill_indexer_spec _ _ _ Hq) as [Hqn Hqv].
  assert (Hinc : increasing (map fst (x :: l)) = true) by exact Hs.
  assert (Hpq : (p <= q)%nat).
  { destruct (Nat.le_gt_cases p q) as [|Hqp]; [assumption|].
    pose proof (increasing_nth _ _ _ Hinc Hqp Hpn). lra. }
  assert (Hpq' : sv < ev -> (p < q)%nat).
  { intro Hlt'. specialize (Hlt Hlt').
    destruct (Nat.lt_ge_cases p q) as [|Hqp]; [assumption|].
    assert (p = q) as <- by lia. lra. }
  assert (Hw : _data_window (x :: l) (start, end_) Inclusive true false
               = Ok (iloc_slice p (S q) (x :: l))).
  { rewrite data_window_clip. cbn [map]. fold f. rewrite Hclip.
    cbn [bind _data_window]. unfold lookup_slice, get_loc. cbn [fst snd].
    rewrite Hp, Hq. reflexivity. }
  assert (Hlen : length (iloc_slice p (S q) (x :: l)) = (S q - p)%nat).
  { unfold iloc_slice. rewrite length_firstn, length_skipn.
    rewrite length_map in Hqn. lia. }
  unfold df_refit_index. eapply refit_from_window; [intro E; discriminate E | exact Hw | |].
  - intro E. rewrite E in Hlen. cbn [length] in Hlen. lia.
  - intros s e Es Ee H1. rewrite H1 in Hlen.
    assert (~ sv < ev) by (intro Hlt'; specialize (Hpq' Hlt'); lia).
    unfold sv, ev in *. rewrite Es, Ee in *. lra.
Qed.

Lemma refit_exact_lookup_witness :
  exists d, df_refit_index [(0, 1%Z); (10, 2%Z); (20, 3%Z)] (Some 3) (Some 17)
              Inclusive false = Ok d /\ d <> [] /\
    (forall s, Some 3 = Some s -> hd_error (map fst d) = Some s) /\
    (forall e, Some 17 = Some e -> exists q, last_opt (map fst d) = Some q /\ q == e).
Proof.
  apply (refit_exact_lookup _ (Some 3) (Some 17) (0, 1%Z) (20, 3%Z)).
  - reflexivity.
  - cbn. lia.
  - reflexivity.
  - reflexivity.
  - intros s H. injection H as <-. reflexivity.
  - intros e H. injection H as <-. reflexivity.
  - intros s e H1 H2. injection H1 as <-. injection H2 as <-. compute. discriminate.
Defined.

(** ** Time conservation of [df_squash] *)

Lemma sorted_rows_cons_inv {R} (x : Q * R) l :
  Forall (fun y => fst x < fst y) l -> sorted_rows l -> sorted_rows (x :: l).
Proof.
  unfold sorted_rows. intros Hf Hs. destruct l as [|y l]; [reflexivity|].
  inversion Hf; subst. cbn [map]. change (qlt (fst x) (fst y) && increasing (map fst (y :: l)) = true).
  apply andb_true_intro. split; [now apply qlt_iff | exact Hs].
Qed.

Lemma sorted_rows_filter {R} (p : Q * R -> bool) l :
  sorted_rows l -> sorted_rows (filter p l).
Proof.
  induction l as [|x l IH]; intro Hs; [reflexivity|].
  apply sorted_rows_cons in Hs as [Hf Hs]. cbn [filter]. destruct (p x); auto.
  apply sorted_rows_cons_inv; auto. rewrite Forall_forall in *.
  intros y Hy. apply filter_In in Hy as [Hy _]. auto.
Qed.

Lemma gap_free_cons {A} (x : Q * srow A) l :
  gap_free (x :: l) = true -> gap_free l = true.
Proof. destruct l; [reflexivity|]. cbn [gap_free]. now intros [_ H]%andb_prop. Qed.

Lemma gap_free_next {A} (x y : Q * srow A) l :
  gap_free (x :: y :: l) = true -> fst y == fst x + delta (snd x).
Proof. cbn [gap_free]. intros [H _]%andb_prop. now apply qeq_iff. Qed.

(** The rows of a gap-free table inside [[s, e]] form a gap-free block, and
    when its last row starts before [e], that row lasts at least until [e]
    (provided [e] does not exceed the end of the table). *)
Lemma block_props {A} (df : table (srow A)) s e :
  sorted_rows df -> gap_free df = true ->
  (forall ll, last_opt df = Some ll -> e <= fst ll + delta (snd ll)) ->
  let M := filter (fun r => in_window (Some s, Some e) (fst r)) df in
  gap_free M = true /\
  (forall ml, last_opt M = Some ml -> fst ml < e -> e - fst ml <= delta (snd ml)).
Proof.
  induction df as [|x df IH]; intros Hs Hg Hext M; [split; [reflexivity | discriminate]|].
  pose proof (sorted_rows_cons _ _ Hs) as [Hf Hs'].
  pose proof (gap_free_cons _ _ Hg) as Hg'.
  assert (Hext' : forall ll, last_opt df = Some ll -> e <= fst ll + delta (snd ll)).
  { intros ll Hl. apply Hext. destruct df; [discriminate|]. exact Hl. }
  destruct (IH Hs' Hg' Hext') as [IHg IHl]. clear IH.
  unfold M. cbn [filter].
  destruct (in_window (Some s, Some e) (fst x)) eqn:Ex.
  - unfold in_window in Ex; cbn [fst snd] in Ex. apply andb_prop in Ex as [Hsx Hxe]. qbool.
    destruct df as [|y df].
    + cbn [filter]. split; [reflexivity|].
      intros ml Hml Hlt. injection Hml as <-. specialize (Hext x eq_refl). lra.
    + pose proof (gap_free_next _ _ _ Hg) as Hxy. inversion Hf as [|? ? Hxy' _]; subst.
      cbn [filter] in *.
      destruct (qle (fst y) e) eqn:Hye; qbool.
      * assert (Hiy : in_window (Some s, Some e) (fst y) = true)
          by (unfold in_window; cbn [fst snd]; apply andb_true_intro; split;
              apply qle_iff; lra).
        rewrite Hiy in *. split.
        -- change (qeq (fst y) (fst x + delta (snd x)) &&
                   gap_free (y :: filter (fun r => in_window (Some s, Some e) (fst r)) df) = true).
           apply andb_true_intro. split; [now apply qeq_iff|]. exact IHg.
        -- intros ml Hml. apply IHl. exact Hml.
      * assert (Hiy : in_window (Some s, Some e) (fst y) = false)
          by (unfold in_window; cbn [fst snd]; apply andb_false_iff; right;
              now apply qle_false).
        rewrite Hiy in *.
        rewrite filter_false.
        2:{ rewrite Forall_forall. intros z Hz. unfold in_window; cbn [fst snd].
            apply andb_false_iff. right. apply qle_false.
            pose proof (sorted_rows_cons _ _ Hs') as [Hfy _]. rewrite Forall_forall in Hfy.
            specialize (Hfy z Hz). lra. }
        split; [reflexivity|]. intros ml Hml Hlt. injection Hml as <-. lra.
  - split; [exact IHg|]. exact IHl.
Qed.

Lemma in_index_cons {R} e (m : Q * R) l :
  in_index e (m :: l) = qeq (fst m) e || in_index e l.
Proof. reflexivity. Qed.

(** When the block contains a row at [e], dropping it leaves rows whose
    durations add up to [e - first index]. *)
Lemma drop_label_sum {A} (m : Q * srow A) M e :
  sorted_rows (m :: M) -> gap_free (m :: M) = true ->
  Forall (fun r => fst r <= e) (m :: M) -> in_index e (m :: M) = true ->
  sum_delta (drop_label e (m :: M)) == e - fst m.
Proof.
  revert m. induction M as [|y M IH]; intros m Hs Hg Hle Hin.
  - rewrite in_index_cons in Hin. cbn [in_index existsb] in Hin.
    rewrite orb_false_r in Hin. unfold drop_label. cbn [filter]. rewrite Hin.
    cbn. qbool. unfold sum_delta. cbn [fold_right]. lra.
  - pose proof (sorted_rows_cons _ _ Hs) as [Hf Hs']. inversion Hf as [|? ? Hmy _]; subst.
    pose proof (gap_free_next _ _ _ Hg) as Hnext.
    inversion Hle as [|? ? _ Hle']; subst. inversion Hle' as [|? ? Hye _]; subst.
    assert (Hme : qeq (fst m) e = false).
    { destruct (qeq (fst m) e) eqn:E; [|reflexivity]. qbool. lra. }
    rewrite in_index_cons, Hme in Hin. cbn [orb] in Hin.
    unfold drop_label. cbn [filter]. rewrite Hme. cbn [negb].
    fold (drop_label e (y :: M)). unfold sum_delta. cbn [fold_right].
    fold (sum_delta (drop_label e (y :: M))).
    rewrite (IH y Hs' (gap_free_cons _ _ Hg) Hle' Hin). lra.
Qed.

(** Otherwise, capping the duration of the last row makes the durations add
    up to [e - first index]. *)
Lemma cap_last_sum {A} (m : Q * srow A) M e :
  sorted_rows (m :: M) -> gap_free (m :: M) = true ->
  Forall (fun r => fst r <= e) (m :: M) -> in_index e (m :: M) = false ->
  (forall ml, last_opt (m :: M) = Some ml -> fst ml < e -> e - fst ml <= delta (snd ml)) ->
  sum_delta (map_last (cap_delta e) (m :: M)) == e - fst m.
Proof.
  revert m. induction M as [|y M IH]; intros m Hs Hg Hle Hin Hlast.
  - rewrite in_index_cons in Hin. apply orb_false_iff in Hin as [Hme _].
    inversion Hle as [|? ? Hm _]; subst.
    assert (Hlt : fst m < e).
    { apply Qle_lteq in Hm as [Hm|Hm]; [exact Hm|]. apply qeq_iff in Hm. congruence. }
    specialize (Hlast m eq_refl Hlt).
    unfold sum_delta. cbn [map_last fold_right cap_delta snd delta].
    rewrite Q.min_l by exact Hlast. lra.
  - pose proof (sorted_rows_cons _ _ Hs) as [_ Hs'].
    pose proof (gap_free_next _ _ _ Hg) as Hnext.
    inversion Hle as [|? ? _ Hle']; subst.
    rewrite in_index_cons in Hin. apply orb_false_iff in Hin as [_ Hin].
    change (map_last (cap_delta e) (m :: y :: M))
      with (m :: map_last (cap_delta e) (y :: M)).
    unfold sum_delta. cbn [fold_right].
    fold (sum_delta (map_last (cap_delta e) (y :: M))).
    rewrite (IH y Hs' (gap_free_cons _ _ Hg) Hle' Hin); [lra|].
    intros ml Hml. apply Hlast. exact Hml.
Qed.

Lemma drop_label_cons_ne {R} e (r : Q * R) l :
  qeq (fst r) e = false -> drop_label e (r :: l) = r :: drop_label e l.
Proof. intro H. unfold drop_label. cbn [filter]. now rewrite H. Qed.

Lemma sum_delta_cons {A} (r : Q * srow A) l :
  sum_delta (r :: l) = delta (snd r) + sum_delta l.
Proof. reflexivity. Qed.

Lemma map_last_cons2 {A} (f : A -> A) x y l :
  map_last f (x :: y :: l) = x :: map_last f (y :: l).
Proof. reflexivity. Qed.

(** In a sorted block whose rows start at or after [s], a row at [s] can
    only be the first one. *)
Lemma in_index_head {R} (m : Q * R) M s :
  sorted_rows (m :: M) -> s <= fst m -> in_index s (m :: M) = true -> fst m == s.
Proof.
  intros Hs Hsm Hin. apply sorted_rows_cons in Hs as [Hf _].
  rewrite in_index_cons in Hin. apply orb_true_iff in Hin as [H|H]; [now apply qeq_iff|].
  apply existsb_exists in H as [r [Hr Hrs]]. qbool.
  rewrite Forall_forall in Hf. specialize (Hf r Hr). lra.
Qed.

(** C1 (squash time conservation). For a gap-free table with a strictly
    increasing index and [first_index <= start <= end <= last_index +
    last_delta], the [delta] column of the [df_squash] result adds up to
    [end - start] (exactly, in rational arithmetic). *)
Theorem df_squash_time_conservation {A} (df : table (srow A)) (start end_ : Q)
  (first_row last_row : Q * srow A)
  (Hs : sorted_rows df) (Hg : gap_free df = true)
  (Hfirst : hd_error df = Some first_row) (Hlast : last_opt df = Some last_row)
  (H1 : fst first_row <= start) (H2 : start <= end_)
  (H3 : end_ <= fst last_row + delta (snd last_row)) :
  sum_delta (df_squash df start end_) == end_ - start.
Proof.
  unfold df_squash. rewrite Hlast. destruct last_row as [lt lr]. cbn [fst snd] in H3.
  assert (He' : Qmin end_ (lt + delta lr) == end_) by now apply Q.min_l.
  assert (Hext : forall ll, last_opt df = Some ll ->
                            Qmin end_ (lt + delta lr) <= fst ll + delta (snd ll)).
  { intros ll Hl. rewrite Hlast in Hl. injection Hl as <-. apply Q.le_min_r. }
  set (e' := Qmin end_ (lt + delta lr)) in *.
  replace (qlt e' start) with false by (symmetry; apply qlt_false; lra).
  cbv beta iota zeta.
  rewrite !label_slice_filter by exact Hs.
  destruct (block_props df start e' Hs Hg Hext) as [HgM HlM].
  pose proof (sorted_rows_filter (fun r => in_window (Some start, Some e') (fst r)) df Hs)
    as HsM.
  assert (HwM : Forall (fun r => start <= fst r /\ fst r <= e')
                  (filter (fun r => in_window (Some start, Some e') (fst r)) df)).
  { rewrite Forall_forall. intros r Hr. apply filter_In in Hr as [_ Hr].
    unfold in_window in Hr; cbn [fst snd] in Hr. apply andb_prop in Hr as [Ha Hb].
    qbool. auto. }
  remember (filter (fun r => in_window (Some start, Some e') (fst r)) df) as M eqn:EM.
  destruct (last_opt (filter (fun r => in_window (None, Some start) (fst r)) df))
    as [[pt p]|] eqn:Eprev.
  2:{ exfalso. apply last_opt_none in Eprev.
      destruct df as [|x df]; [discriminate|]. injection Hfirst as ->.
      cbn [filter] in Eprev. unfold in_window in Eprev; cbn [fst snd andb] in Eprev.
      replace (qle (fst first_row) start) with true in Eprev
        by (symmetry; now apply qle_iff).
      discriminate. }
  assert (HleM : Forall (fun r => fst r <= e') M)
    by (eapply Forall_impl; [|exact HwM]; intros r [_ Hr]; exact Hr).
  destruct (in_index start M) eqn:Ein.
  - destruct M as [|m M']; [discriminate|]. cbn [app].
    pose proof (Forall_inv HwM) as [Hsm _].
    pose proof (in_index_head _ _ _ HsM Hsm Ein) as Hm.
    destruct (in_index e' (m :: M')) eqn:Ee.
    + rewrite drop_label_sum by assumption. lra.
    + rewrite cap_last_sum by assumption. lra.
  - destruct M as [|m M'].
    + unfold sum_delta. cbn [fold_right snd delta].
      rewrite Q.min_l by apply Qle_refl. lra.
    + pose proof (Forall_inv HwM) as [Hsm Hme].
      rewrite in_index_cons in Ein. apply orb_false_iff in Ein as [Hms _].
      assert (Hlt : start < fst m).
      { apply Qle_lteq in Hsm as [Hsm|Hsm]; [exact Hsm|].
        symmetry in Hsm. apply qeq_iff in Hsm. congruence. }
      assert (Hse : qeq start e' = false).
      { destruct (qeq start e') eqn:E; [|reflexivity]. qbool. lra. }
      cbn [app]. rewrite in_index_cons. cbn [fst]. rewrite Hse. cbn [orb].
      destruct (in_index e' (m :: M')) eqn:Ee.
      * rewrite drop_label_cons_ne by exact Hse. rewrite sum_delta_cons.
        cbn [snd delta]. change (let (t, _) := m in t) with (fst m).
        rewrite drop_label_sum by assumption.
        rewrite Q.min_l by lra. lra.
      * rewrite map_last_cons2, sum_delta_cons.
        cbn [snd delta]. change (let (t, _) := m in t) with (fst m).
        rewrite cap_last_sum by assumption.
        rewrite Q.min_l by lra. lra.
Qed.

Lemma df_squash_time_conservation_witness :
  sorted_rows squash_example /\ gap_free squash_example = true /\
  sum_delta (df_squash squash_example 16.5 17.5) == 17.5 - 16.5.
Proof.
  split; [reflexivity|]. split; [reflexivity|].
  apply (df_squash_time_conservation squash_example 16.5 17.5
           (15, mk_srow 1 1%Z) (18, mk_srow 1 0%Z));
    try reflexivity; compute; discriminate.
Defined.

(** * Further properties of the windowing helpers *)

(** ** Positional slices of a sorted table *)

Lemma firstn_count_while {R} (p : Q -> bool) (l : table R) :
  sorted_rows l -> (forall t t', t' < t -> p t = true -> p t' = true) ->
  firstn (count_while p (map fst l)) l = filter (fun r => p (fst r)) l.
Proof.
  intros Hs Hp. induction l as [|x l IH]; [reflexivity|].
  apply sorted_rows_cons in Hs as [Hf Hs]. cbn [map count_while filter].
  destruct (p (fst x)) eqn:E.
  - cbn [firstn]. now rewrite IH.
  - cbn [firstn]. symmetry. apply filter_false. eapply Forall_impl; [|exact Hf].
    intros y Hy. destruct (p (fst y)) eqn:Ey; [|reflexivity].
    rewrite (Hp _ _ Hy Ey) in E. discriminate.
Qed.

Lemma skipn_count_while {R} (p : Q -> bool) (l : table R) :
  sorted_rows l -> (forall t t', t' < t -> p t = true -> p t' = true) ->
  skipn (count_while p (map fst l)) l = filter (fun r => negb (p (fst r))) l.
Proof.
  intros Hs Hp. induction l as [|x l IH]; [reflexivity|].
  apply sorted_rows_cons in Hs as [Hf Hs]. cbn [map count_while filter].
  destruct (p (fst x)) eqn:E.
  - cbn [skipn negb]. now rewrite IH.
  - cbn [skipn negb]. f_equal. symmetry. rewrite <- (filter_true l) at 2.
    apply filter_ext_in. intros y Hy. rewrite Forall_forall in Hf.
    destruct (p (fst y)) eqn:Ey; [|reflexivity].
    rewrite (Hp _ _ (Hf y Hy) Ey) in E. discriminate.
Qed.

(** Between two searchsorted positions lie the rows between the two
    thresholds. *)
Lemma iloc_count_while {R} (P P' : Q -> bool) (l : table R) :
  sorted_rows l ->
  (forall t t', t' < t -> P t = true -> P t' = true) ->
  (forall t t', t' < t -> P' t = true -> P' t' = true) ->
  iloc_slice (count_while P (map fst l)) (count_while P' (map fst l)) l =
  filter (fun r => negb (P (fst r)) && P' (fst r)) l.
Proof.
  intros Hs HP HP'. induction l as [|x l IH]; [reflexivity|].
  pose proof (sorted_rows_cons _ _ Hs) as [Hf Hs'].
  assert (Hlt : forall p : Q -> bool, (forall t t', t' < t -> p t = true -> p t' = true) ->
            p (fst x) = false -> forall r, In r l -> p (fst r) = false).
  { intros p Hp Ex r Hr. rewrite Forall_forall in Hf.
    destruct (p (fst r)) eqn:Er; [|reflexivity].
    rewrite (Hp _ _ (Hf r Hr) Er) in Ex. discriminate. }
  change (count_while P (map fst (x :: l)))
    with (if P (fst x) then S (count_while P (map fst l)) else O).
  destruct (P (fst x)) eqn:EP.
  - change (count_while P' (map fst (x :: l)))
      with (if P' (fst x) then S (count_while P' (map fst l)) else O).
    cbn [filter]. rewrite EP. cbn [negb andb].
    destruct (P' (fst x)) eqn:EQ.
    + rewrite <- (IH Hs'). reflexivity.
    + rewrite filter_false; [reflexivity|]. rewrite Forall_forall. intros r Hr.
      rewrite (Hlt P' HP' EQ r Hr). apply andb_false_r.
  - unfold iloc_slice. rewrite Nat.sub_0_r. cbn [skipn].
    rewrite firstn_count_while by assumption.
    apply filter_ext_in. intros r [<-|Hr]; [now rewrite EP|].
    now rewrite (Hlt P HP EP r Hr).
Qed.

Lemma skipn_nth_error {A} (l : list A) k x :
  nth_error l k = Some x -> skipn k l = x :: skipn (S k) l.
Proof.
  revert l. induction k as [|k IH]; intros [|y l] H; cbn in H; try discriminate.
  - injection H as ->. reflexivity.
  - cbn [skipn]. now apply IH.
Qed.

Lemma firstn_snoc {A} (m : list A) k x :
  nth_error m k = Some x -> firstn (S k) m = firstn k m ++ [x].
Proof.
  revert m. induction k as [|k IH]; intros [|y m] H; cbn in H; try discriminate.
  - injection H as ->. reflexivity.
  - change (firstn (S (S k)) (y :: m)) with (y :: firstn (S k) m).
    rewrite (IH m H). reflexivity.
Qed.

Lemma iloc_slice_cons {A} (l : list A) k b x :
  nth_error l k = Some x -> (k < b)%nat ->
  iloc_slice k b l = x :: iloc_slice (S k) b l.
Proof.
  intros H Hkb. unfold iloc_slice. rewrite (skipn_nth_error l k x H).
  replace (b - k)%nat with (S (b - S k)) by lia. reflexivity.
Qed.

Lemma iloc_slice_snoc {A} (l : list A) a b x :
  nth_error l b = Some x -> (a <= b)%nat ->
  iloc_slice a (S b) l = iloc_slice a b l ++ [x].
Proof.
  intros H Hab. unfold iloc_slice.
  replace (S b - a)%nat with (S (b - a)) by lia. apply firstn_snoc.
  rewrite nth_error_skipn. now replace (a + (b - a))%nat with b by lia.
Qed.

Lemma count_while_mono {A} (p q : A -> bool) l :
  (forall a, p a = true -> q a = true) -> (count_while p l <= count_while q l)%nat.
Proof.
  intro H. induction l as [|a l IH]; cbn; [lia|].
  destruct (p a) eqn:E; [rewrite (H a E); lia | lia].
Qed.

Lemma count_while_all {A} (p : A -> bool) l :
  Forall (fun a => p a = true) l -> count_while p l = length l.
Proof. induction 1; cbn; [reflexivity|]. now rewrite H, IHForall. Qed.

Lemma count_while_nth {R} (p : Q -> bool) (l : table R) k :
  (k < count_while p (map fst l))%nat -> exists x, nth_error l k = Some x.
Proof.
  intro H. pose proof (count_while_le p (map fst l)) as Hle. rewrite length_map in Hle.
  destruct (nth_error l k) eqn:E; [eauto|]. apply nth_error_None in E. lia.
Qed.

Lemma last_opt_firstn {A} (l : list A) k x :
  nth_error l k = Some x -> last_opt (firstn (S k) l) = Some x.
Proof. intro H. rewrite (firstn_snoc l k x H). apply last_opt_snoc. Qed.

Lemma backfill_indexer_eq idx v q :
  backfill_indexer idx v = Some q -> q = searchsorted_left v idx.
Proof.
  unfold backfill_indexer. destruct (Nat.ltb _ _); [|discriminate].
  intro H. now injection H as <-.
Qed.

(** Every index value lies between the first and the last one. *)
Lemma sorted_bounds {R} (data : table R) (x y : Q * R) :
  sorted_rows data -> hd_error data = Some x -> last_opt data = Some y ->
  Forall (fun r => fst x <= fst r <= fst y) data.
Proof.
  intros Hs Hx Hy. destruct data as [|x' l]; [discriminate|]. injection Hx as <-.
  pose proof (last_opt_app _ _ Hy) as [init E].
  rewrite Forall_forall. intros r Hr. split.
  - destruct Hr as [<-|Hr]; [apply Qle_refl|].
    apply sorted_rows_cons in Hs as [Hf _]. rewrite Forall_forall in Hf.
    now apply Qlt_le_weak, Hf.
  - rewrite E in Hr, Hs. unfold sorted_rows in Hs. rewrite map_app in Hs.
    apply increasing_last in Hs as [Hf _]. rewrite Forall_map, Forall_forall in Hf.
    apply in_app_or in Hr as [Hr|[<-|[]]]; [|apply Qle_refl].
    now apply Qlt_le_weak, Hf.
Qed.

Lemma pad_indexer_count idx v k :
  count_while (fun t => qle t v) idx = S k -> pad_indexer idx v = Some k.
Proof. intro H. unfold pad_indexer, searchsorted_right. now rewrite H. Qed.

Lemma pad_from_first {R} (data : table R) (x : Q * R) v :
  hd_error data = Some x -> fst x <= v ->
  exists k, count_while (fun t => qle t v) (map fst data) = S k.
Proof.
  intros Hx H. destruct data as [|x' l]; [discriminate|]. injection Hx as ->.
  cbn [map count_while]. replace (qle (fst x) v) with true by (symmetry; now apply qle_iff).
  eauto.
Qed.

Lemma backfill_from_last {R} (data : table R) (y : Q * R) v :
  last_opt data = Some y -> v <= fst y ->
  backfill_indexer (map fst data) v = Some (count_while (fun t => qlt t v) (map fst data)).
Proof.
  intros Hy H. pose proof (last_opt_app _ _ Hy) as [init E]. rewrite E, map_app. cbn [map].
  destruct (backfill_indexer_some (map fst init) (fst y) v H) as [q Hq].
  pose proof Hq as Hq'. apply backfill_indexer_eq in Hq'. now rewrite Hq, Hq'.
Qed.

Lemma lookup_slice_ok {R} (data : table R) s e ms a b :
  get_loc (map fst data) s (fst ms) = Ok a -> get_loc (map fst data) e (snd ms) = Ok b ->
  lookup_slice data (Some s, Some e) ms = Ok (iloc_slice a (S b) data).
Proof. intros Ha Hb. unfold lookup_slice. cbn [fst snd]. now rewrite Ha, Hb. Qed.

Lemma get_loc_in_range {R} (data : table R) (x y : Q * R) v f :
  hd_error data = Some x -> last_opt data = Some y -> fst x <= v -> v <= fst y ->
  exists k, get_loc (map fst data) v f = Ok k.
Proof.
  intros Hx Hy H1 H2.
  destruct (pad_from_first data x v Hx H1) as [k Hk].
  pose proof (pad_indexer_count _ _ _ Hk) as Hp.
  pose proof (backfill_from_last data y v Hy H2) as Hb.
  destruct f; cbn [get_loc]; rewrite ?Hp, ?Hb; eauto.
  destruct (qlt _ _); eauto.
Qed.

Lemma last_opt_some {A} (l : list A) : l <> [] -> exists y, last_opt l = Some y.
Proof.
  induction l as [|x l IH]; intro H; [congruence|]. destruct l as [|z l]; [now exists x|].
  apply IH. discriminate.
Qed.

Lemma clip_last {R} (x : Q * R) l y :
  last_opt (x :: l) = Some y -> last (fst x :: map fst l) (fst x) = fst y.
Proof.
  intro Hy. pose proof (last_opt_app _ _ Hy) as [init E].
  change (fst x :: map fst l) with (map fst (x :: l)). rewrite E, map_app. apply last_last.
Qed.

(** Clipping an ordered window on a non-empty sorted index gives bounds
    inside the index range. *)
Lemma clip_in_range (f L : Q) rest (w : option Q * option Q) :
  last (f :: rest) f = L -> f <= L ->
  (forall s e, w = (Some s, Some e) -> s <= e) ->
  exists s' e', clip (f :: rest) w = Ok (Some s', Some e') /\
    f <= s' <= L /\ f <= e' <= L.
Proof.
  intros EL HfL Hw. unfold clip. rewrite EL.
  set (sv := match fst w with Some s => s | None => f end).
  set (ev := match snd w with Some e => e | None => L end).
  assert (H1 : sv <= L \/ L <= ev).
  { destruct (Qlt_le_dec L sv) as [Hl|Hl]; [right|now left].
    unfold sv, ev in *. destruct w as [[s|] [e|]]; cbn [fst snd] in *; try lra.
    specialize (Hw s e eq_refl). lra. }
  assert (H2 : f <= ev \/ sv <= f).
  { destruct (Qlt_le_dec ev f) as [Hl|Hl]; [right|now left].
    unfold sv, ev in *. destruct w as [[s|] [e|]]; cbn [fst snd] in *; try lra.
    specialize (Hw s e eq_refl). lra. }
  destruct (qle sv f) eqn:E1, (qle ev f) eqn:E2, (qle L sv) eqn:E3, (qle L ev) eqn:E4;
    cbn [andb]; do 2 eexists; (split; [reflexivity|]); qbool;
    destruct H1, H2; repeat split; lra.
Qed.

(** On a non-empty sorted table, windowing with [clip_window=True] returns
    a table for every supported method and every window whose bounds are in
    order. *)
Lemma window_clip_ok {R} (data : table R) (w : option Q * option Q) m fi :
  sorted_rows data -> data <> [] -> m <> Unsupported ->
  (forall s e, w = (Some s, Some e) -> s <= e) ->
  exists d, _data_window data w m true fi = Ok d.
Proof.
  intros Hs Hne Hm Hw. destruct data as [|x l]; [congruence|].
  destruct (last_opt_some (x :: l) Hne) as [y Hy].
  pose proof (first_le_last _ _ _ Hs Hy) as Hxy.
  destruct (clip_in_range (fst x) (fst y) (map fst l) w (clip_last x l y Hy) Hxy Hw)
    as [s' [e' [Hc [Hs' He']]]].
  rewrite data_window_clip. cbn [map]. rewrite Hc. cbn [bind].
  assert (Hg : forall v f, fst x <= v <= fst y -> exists k, get_loc (map fst (x :: l)) v f = Ok k)
    by (intros v f [? ?]; apply (get_loc_in_range (x :: l) x y v f); auto).
  assert (Hl : forall ms, exists d, lookup_slice (x :: l) (Some s', Some e') ms = Ok d).
  { intro ms. destruct (Hg s' (fst ms) Hs') as [a Ha]. destruct (Hg e' (snd ms) He') as [b Hb].
    eexists. exact (lookup_slice_ok _ _ _ _ _ _ Ha Hb). }
  unfold _data_window. cbn [bind].
  destruct m; [destruct fi; [eauto|] | | | | | congruence]; apply Hl.
Qed.

Lemma window_whole_all {R} (data : table R) m fi :
  sorted_rows data -> data <> [] -> m <> Unsupported ->
  _data_window data (None, None) m true fi = Ok data.
Proof.
  intros Hs Hne Hm. destruct data as [|x l]; [congruence|].
  destruct (last_opt_some (x :: l) Hne) as [y Hy].
  pose proof (last_opt_app _ _ Hy) as [init E].
  assert (Hc : clip (map fst (x :: l)) (None, None) = Ok (Some (fst x), Some (fst y))).
  { unfold clip. cbn [map fst snd]. rewrite (clip_last x l y Hy).
    destruct l as [|z l].
    - injection Hy as <-. destruct (qle (fst x) (fst x)); reflexivity.
    - assert (Hlt : fst x < fst y).
      { pose proof (sorted_rows_cons _ _ Hs) as [Hf _]. rewrite Forall_forall in Hf. apply Hf.
        change (last_opt (z :: l) = Some y) in Hy.
        destruct (last_opt_app _ _ Hy) as [init' E']. rewrite E'.
        apply in_or_app. right. now left. }
      replace (qle (fst y) (fst x)) with false by (symmetry; now apply qle_false).
      rewrite andb_false_r. cbn [andb].
      destruct (qle (fst x) (fst x)), (qle (fst y) (fst y)); reflexivity. }
  rewrite data_window_clip, Hc. cbn [bind].
  assert (Hb : Forall (fun r => fst x <= fst r <= fst y) (x :: l))
    by (now apply sorted_bounds).
  assert (Hl : forall ms, lookup_slice (x :: l) (Some (fst x), Some (fst y)) ms = Ok (x :: l)).
  { intro ms. rewrite (lookup_slice_ok _ _ _ _ O (length init)).
    - unfold iloc_slice. rewrite Nat.sub_0_r. cbn [skipn]. apply f_equal, firstn_all2.
      rewrite E, length_app. cbn. lia.
    - apply get_loc_first, Hs.
    - rewrite E, map_app. cbn [map]. rewrite <- length_map with (f := fst).
      apply get_loc_last. change [fst y] with (map fst [y]).
      rewrite <- map_app, <- E. apply Hs. }
  unfold _data_window. cbn [bind].
  destruct m; [destruct fi| | | | | congruence]; try apply Hl.
  f_equal. rewrite label_slice_filter by exact Hs. rewrite <- (filter_true (x :: l)) at 2.
  apply filter_ext_in. intros r Hr. rewrite Forall_forall in Hb. destruct (Hb r Hr).
  unfold in_window; cbn [fst snd]. apply andb_true_intro; split; now apply qle_iff.
Qed.
(** On a non-empty sorted table, the window [(None, None)] with
    [clip_window=True] is the whole table for every supported method. *)
Theorem window_whole {R} (data : table R) (m : method) (fi : bool)
  (Hs : sorted_rows data) (Hne : data <> []) (Hm : m <> Unsupported) :
  _data_window data (None, None) m true fi = Ok data.
Proof. now apply window_whole_all. Qed.


(** ** The rows each lookup method selects *)

Lemma qle_down v : forall t t', t' < t -> qle t v = true -> qle t' v = true.
Proof. intros t t' H1 H2. qbool. apply qle_iff. lra. Qed.

Lemma qlt_down v : forall t t', t' < t -> qlt t v = true -> qlt t' v = true.
Proof. intros t t' H1 H2. qbool. apply qlt_iff. lra. Qed.

(** The [pad] position of a value at or after the first index value: the
    last row at or before it. *)
Lemma pad_row {R} (data : table R) (x : Q * R) v :
  sorted_rows data -> hd_error data = Some x -> fst x <= v ->
  exists k r, count_while (fun t => qle t v) (map fst data) = S k /\
    pad_indexer (map fst data) v = Some k /\ nth_error data k = Some r /\
    last_opt (filter (fun r => qle (fst r) v) data) = Some r.
Proof.
  intros Hs Hx H. destruct (pad_from_first data x v Hx H) as [k Hk].
  destruct (count_while_nth (fun t => qle t v) data k) as [r Hr]; [lia|].
  exists k, r. split; [exact Hk|]. split; [now apply pad_indexer_count|].
  split; [exact Hr|]. rewrite <- (firstn_count_while (fun t => qle t v)) by
    (exact Hs || apply qle_down).
  rewrite Hk. now apply last_opt_firstn.
Qed.

(** The [backfill] position of a value at or before the last index value:
    the first row at or after it. *)
Lemma backfill_row {R} (data : table R) (y : Q * R) v :
  sorted_rows data -> last_opt data = Some y -> v <= fst y ->
  exists r, backfill_indexer (map fst data) v =
              Some (count_while (fun t => qlt t v) (map fst data)) /\
    nth_error data (count_while (fun t => qlt t v) (map fst data)) = Some r /\
    hd_error (filter (fun r => qle v (fst r)) data) = Some r.
Proof.
  intros Hs Hy H. pose proof (backfill_from_last data y v Hy H) as Hb.
  pose proof (backfill_indexer_spec _ _ _ Hb) as [Hn _]. rewrite length_map in Hn.
  destruct (nth_error data (count_while (fun t => qlt t v) (map fst data))) as [r|] eqn:Er;
    [|apply nth_error_None in Er; lia].
  exists r. split; [exact Hb|]. split; [reflexivity|].
  pose proof (skipn_count_while (fun t => qlt t v) data Hs (qlt_down v)) as Hsk.
  rewrite (skipn_nth_error _ _ _ Er) in Hsk.
  erewrite filter_ext; [rewrite <- Hsk; reflexivity|].
  intros r'. unfold qlt. now rewrite Bool.negb_involutive.
Qed.

Lemma iloc_between {R} (P P' : Q -> bool) (l : table R) (f : Q -> bool) :
  sorted_rows l ->
  (forall t t', t' < t -> P t = true -> P t' = true) ->
  (forall t t', t' < t -> P' t = true -> P' t' = true) ->
  (forall t, negb (P t) && P' t = f t) ->
  iloc_slice (count_while P (map fst l)) (count_while P' (map fst l)) l =
  filter (fun r => f (fst r)) l.
Proof.
  intros Hs HP HP' Hf. rewrite iloc_count_while by assumption.
  apply filter_ext. intro r. apply Hf.
Qed.

(** On a sorted table, the [exclusive] method without clipping selects the
    rows whose index lies in [[start, end]], provided [start] is at most the
    last index value and [end] at least the first one. *)
Theorem window_exclusive_rows {R} (data : table R) (s e : Q) (x y : Q * R) (fi : bool)
  (Hs : sorted_rows data) (Hx : hd_error data = Some x) (Hy : last_opt data = Some y)
  (H1 : s <= fst y) (H2 : fst x <= e) :
  _data_window data (Some s, Some e) Exclusive false fi =
  Ok (filter (fun r => qle s (fst r) && qle (fst r) e) data).
Proof.
  destruct (pad_row data x e Hs Hx H2) as [k [re [Hk [Hp _]]]].
  destruct (backfill_row data y s Hs Hy H1) as [rs [Hb _]].
  unfold _data_window; cbn [bind].
  rewrite (lookup_slice_ok data s e (BFill, FFill) (count_while (fun t => qlt t s) (map fst data)) k);
    cbn [fst snd get_loc]; [| now rewrite Hb | now rewrite Hp].
  rewrite <- Hk. f_equal.
  apply (iloc_between _ _ _ (fun t => qle s t && qle t e));
    [exact Hs | apply qlt_down | apply qle_down |].
  intro t. unfold qlt. now rewrite Bool.negb_involutive.
Qed.

(** On a sorted table, the [pre] method without clipping selects the last
    row at or before [start], followed by the rows in [(start, end]], when
    [first_index <= start <= end]. *)
Theorem window_pre_rows {R} (data : table R) (s e : Q) (x : Q * R) (fi : bool)
  (Hs : sorted_rows data) (Hx : hd_error data = Some x)
  (H1 : fst x <= s) (H2 : s <= e) :
  exists r, last_opt (filter (fun r => qle (fst r) s) data) = Some r /\
    _data_window data (Some s, Some e) Pre false fi =
    Ok (r :: filter (fun r => qlt s (fst r) && qle (fst r) e) data).
Proof.
  destruct (pad_row data x s Hs Hx H1) as [ka [rs [Hka [Hpa [Hna Hla]]]]].
  destruct (pad_row data x e Hs Hx (Qle_trans _ _ _ H1 H2)) as [kb [re [Hkb [Hpb _]]]].
  exists rs. split; [exact Hla|].
  unfold _data_window; cbn [bind].
  rewrite (lookup_slice_ok data s e (FFill, FFill) ka kb);
    cbn [fst snd get_loc]; [| now rewrite Hpa | now rewrite Hpb].
  assert (Hab : (S ka <= S kb)%nat).
  { rewrite <- Hka, <- Hkb. apply count_while_mono. intros t Ht. qbool. apply qle_iff. lra. }
  rewrite (iloc_slice_cons data ka (S kb) rs Hna) by lia.
  rewrite <- Hka, <- Hkb. do 2 f_equal.
  apply (iloc_between _ _ _ (fun t => qlt s t && qle t e));
    [exact Hs | apply qle_down | apply qle_down | reflexivity].
Qed.

(** On a sorted table, the [post] method without clipping selects the rows
    in [[start, end)], followed by the first row at or after [end], when
    [start <= end <= last_index]. *)
Theorem window_post_rows {R} (data : table R) (s e : Q) (y : Q * R) (fi : bool)
  (Hs : sorted_rows data) (Hy : last_opt data = Some y)
  (H1 : s <= e) (H2 : e <= fst y) :
  exists r, hd_error (filter (fun r => qle e (fst r)) data) = Some r /\
    _data_window data (Some s, Some e) Post false fi =
    Ok (filter (fun r => qle s (fst r) && qlt (fst r) e) data ++ [r]).
Proof.
  destruct (backfill_row data y s Hs Hy (Qle_trans _ _ _ H1 H2)) as [rs [Hba _]].
  destruct (backfill_row data y e Hs Hy H2) as [re [Hbb [Hnb Hhb]]].
  exists re. split; [exact Hhb|].
  unfold _data_window; cbn [bind].
  rewrite (lookup_slice_ok data s e (BFill, BFill)
    (count_while (fun t => qlt t s) (map fst data)) (count_while (fun t => qlt t e) (map fst data)));
    cbn [fst snd get_loc]; [| now rewrite Hba | now rewrite Hbb].
  rewrite (iloc_slice_snoc data _ _ re Hnb)
    by (apply count_while_mono; intros t Ht; qbool; apply qlt_iff; lra).
  do 2 f_equal. apply (iloc_between _ _ _ (fun t => qle s t && qlt t e));
    [exact Hs | apply qlt_down | apply qlt_down |].
  intro t. unfold qlt. now rewrite Bool.negb_involutive.
Qed.

(** On a sorted table whose index is not a [Float64Index], the [inclusive]
    method without clipping selects the last row at or before [start], the
    rows strictly between [start] and [end], and the first row at or after
    [end], when [first_index <= start < end <= last_index]. *)
Theorem window_inclusive_lookup_rows {R} (data : table R) (s e : Q) (x y : Q * R)
  (Hs : sorted_rows data) (Hx : hd_error data = Some x) (Hy : last_opt data = Some y)
  (H1 : fst x <= s) (H2 : s < e) (H3 : e <= fst y) :
  exists rs re, last_opt (filter (fun r => qle (fst r) s) data) = Some rs /\
    hd_error (filter (fun r => qle e (fst r)) data) = Some re /\
    _data_window data (Some s, Some e) Inclusive false false =
    Ok (rs :: filter (fun r => qlt s (fst r) && qlt (fst r) e) data ++ [re]).
Proof.
  destruct (pad_row data x s Hs Hx H1) as [ka [rs [Hka [Hpa [Hna Hla]]]]].
  destruct (backfill_row data y e Hs Hy H3) as [re [Hbb [Hnb Hhb]]].
  exists rs, re. split; [exact Hla|]. split; [exact Hhb|].
  unfold _data_window; cbn [bind].
  rewrite (lookup_slice_ok data s e (FFill, BFill) ka (count_while (fun t => qlt t e) (map fst data)));
    cbn [fst snd get_loc]; [| now rewrite Hpa | now rewrite Hbb].
  assert (Hab : (S ka <= count_while (fun t => qlt t e) (map fst data))%nat).
  { rewrite <- Hka. apply count_while_mono. intros t Ht. qbool. apply qlt_iff. lra. }
  rewrite (iloc_slice_cons data ka _ rs Hna) by lia.
  rewrite (iloc_slice_snoc data _ _ re Hnb) by exact Hab.
  rewrite <- Hka. do 3 f_equal.
  apply (iloc_between _ _ _ (fun t => qlt s t && qlt t e));
    [exact Hs | apply qle_down | apply qlt_down | reflexivity].
Qed.

Lemma window_clip_ok_witness :
  exists d, _data_window three_rows (Some 25, Some 30) Nearest true false = Ok d.
Proof.
  apply (window_clip_ok three_rows (Some 25, Some 30) Nearest false);
    [reflexivity | discriminate | discriminate |].
  intros s e H. injection H as <- <-. compute. discriminate.
Defined.

Lemma window_whole_witness :
  _data_window three_rows (None, None) Post true false = Ok three_rows.
Proof.
  apply (window_whole three_rows Post false); [reflexivity | discriminate | discriminate].
Defined.

Lemma window_exclusive_rows_witness :
  _data_window three_rows (Some 5, Some 15) Exclusive false false =
  Ok (filter (fun r => qle 5 (fst r) && qle (fst r) 15) three_rows).
Proof.
  apply (window_exclusive_rows three_rows 5 15 (0, 1%Z) (20, 3%Z) false);
    try reflexivity; compute; discriminate.
Defined.

Lemma window_pre_rows_witness :
  exists r, last_opt (filter (fun r => qle (fst r) 5) three_rows) = Some r /\
    _data_window three_rows (Some 5, Some 15) Pre false false =
    Ok (r :: filter (fun r => qlt 5 (fst r) && qle (fst r) 15) three_rows).
Proof.
  apply (window_pre_rows three_rows 5 15 (0, 1%Z) false);
    try reflexivity; compute; discriminate.
Defined.

Lemma window_post_rows_witness :
  exists r, hd_error (filter (fun r => qle 15 (fst r)) three_rows) = Some r /\
    _data_window three_rows (Some 5, Some 15) Post false false =
    Ok (filter (fun r => qle 5 (fst r) && qlt (fst r) 15) three_rows ++ [r]).
Proof.
  apply (window_post_rows three_rows 5 15 (20, 3%Z) false);
    try reflexivity; compute; discriminate.
Defined.

Lemma window_inclusive_lookup_rows_witness :
  exists rs re, last_opt (filter (fun r => qle (fst r) 5) three_rows) = Some rs /\
    hd_error (filter (fun r => qle 15 (fst r)) three_rows) = Some re /\
    _data_window three_rows (Some 5, Some 15) Inclusive false false =
    Ok (rs :: filter (fun r => qlt 5 (fst r) && qlt (fst r) 15) three_rows ++ [re]).
Proof.
  apply (window_inclusive_lookup_rows three_rows 5 15 (0, 1%Z) (20, 3%Z));
    try reflexivity; compute; discriminate.
Defined.

(** ** Windows reaching past the index *)

Lemma get_loc_ok_or_key idx v f :
  (exists k, get_loc idx v f = Ok k) \/ get_loc idx v f = Err KeyError.
Proof.
  destruct f; cbn [get_loc]; destruct (pad_indexer idx v), (backfill_indexer idx v);
    try destruct (qlt _ _); eauto.
Qed.

Lemma pad_none_before {R} (data : table R) (x : Q * R) v :
  hd_error data = Some x -> v < fst x -> pad_indexer (map fst data) v = None.
Proof.
  intros Hx H. destruct data as [|x' l]; [discriminate|]. injection Hx as ->.
  unfold pad_indexer, searchsorted_right. cbn [map count_while].
  now replace (qle (fst x) v) with false by (symmetry; now apply qle_false).
Qed.

Lemma backfill_first {R} (data : table R) (x : Q * R) v :
  hd_error data = Some x -> v <= fst x -> backfill_indexer (map fst data) v = Some O.
Proof.
  intros Hx H. destruct data as [|x' l]; [discriminate|]. injection Hx as ->.
  unfold backfill_indexer, searchsorted_left. cbn [map count_while].
  now replace (qlt (fst x) v) with false by (symmetry; now apply qlt_false).
Qed.

Lemma count_while_whole {R} (data : table R) (x y : Q * R) (P : Q -> bool) :
  sorted_rows data -> hd_error data = Some x -> last_opt data = Some y ->
  (forall t, t <= fst y -> P t = true) -> count_while P (map fst data) = length data.
Proof.
  intros Hs Hx Hy HP. rewrite <- (length_map fst data). apply count_while_all.
  rewrite Forall_map. eapply Forall_impl; [|exact (sorted_bounds data x y Hs Hx Hy)].
  intros r [_ Hr]. now apply HP.
Qed.

Lemma backfill_none_after {R} (data : table R) (x y : Q * R) v :
  sorted_rows data -> hd_error data = Some x -> last_opt data = Some y ->
  fst y < v -> backfill_indexer (map fst data) v = None.
Proof.
  intros Hs Hx Hy H. unfold backfill_indexer, searchsorted_left.
  rewrite (count_while_whole data x y) by
    (auto; intros t Ht; apply qlt_iff; lra).
  rewrite length_map. now rewrite Nat.ltb_irrefl.
Qed.

Lemma pad_last_after {R} (data : table R) (x y : Q * R) v :
  sorted_rows data -> hd_error data = Some x -> last_opt data = Some y ->
  fst y <= v -> pad_indexer (map fst data) v = Some (length data - 1)%nat.
Proof.
  intros Hs Hx Hy H. apply pad_indexer_count.
  rewrite (count_while_whole data x y) by
    (auto; intros t Ht; apply qle_iff; lra).
  destruct data; [discriminate|]. cbn. lia.
Qed.

Lemma iloc_slice_whole {A} (l : list A) :
  l <> [] -> iloc_slice O (S (length l - 1)) l = l.
Proof.
  intro H. unfold iloc_slice. apply firstn_all2. destruct l; [congruence|]. cbn. lia.
Qed.

(** Without clipping, a window reaching past both ends of a sorted index
    raises [KeyError] with the [pre] and [post] methods and on the
    position-lookup path of [inclusive], while [exclusive], [nearest] and
    the [Float64Index] path of [inclusive] return the whole table. *)
Theorem window_beyond_range {R} (data : table R) (s e : Q) (x y : Q * R) (fi : bool)
  (Hs : sorted_rows data) (Hx : hd_error data = Some x) (Hy : last_opt data = Some y)
  (H1 : s < fst x) (H2 : fst y < e) :
  _data_window data (Some s, Some e) Pre false fi = Err KeyError /\
  _data_window data (Some s, Some e) Post false fi = Err KeyError /\
  _data_window data (Some s, Some e) Inclusive false false = Err KeyError /\
  _data_window data (Some s, Some e) Inclusive false true = Ok data /\
  _data_window data (Some s, Some e) Exclusive false fi = Ok data /\
  _data_window data (Some s, Some e) Nearest false fi = Ok data.
Proof.
  assert (Hne : data <> []) by (intro E; rewrite E in Hx; discriminate).
  pose proof (pad_none_before data x s Hx H1) as Hps.
  pose proof (backfill_first data x s Hx (Qlt_le_weak _ _ H1)) as Hbs.
  pose proof (backfill_none_after data x y e Hs Hx Hy H2) as Hbe.
  pose proof (pad_last_after data x y e Hs Hx Hy (Qlt_le_weak _ _ H2)) as Hpe.
  unfold _data_window, lookup_slice, get_loc; cbn [bind fst snd].
  rewrite Hps, Hbs, Hbe, Hpe. cbn [bind].
  rewrite iloc_slice_whole by exact Hne.
  repeat split; try reflexivity.
  f_equal. rewrite label_slice_filter by exact Hs. rewrite <- (filter_true data) at 2.
  apply filter_ext_in. intros r Hr.
  pose proof (sorted_bounds data x y Hs Hx Hy) as Hb. rewrite Forall_forall in Hb.
  destruct (Hb r Hr). unfold in_window; cbn [fst snd].
  apply andb_true_intro; split; apply qle_iff; lra.
Qed.

(** Without clipping, a window with no end bound raises an error on every
    position-lookup path: [TypeError] ([None + 1]), or [KeyError] when the
    start bound is not found first. *)
Theorem window_no_end_raises {R} (data : table R) (s : option Q) (m : method) (fi : bool)
  (Hpath : m = Inclusive -> fi = false) :
  _data_window data (s, None) m false fi = Err TypeError \/
  _data_window data (s, None) m false fi = Err KeyError \/
  _data_window data (s, None) m false fi = Err ValueError.
Proof.
  assert (Hl : forall ms, lookup_slice data (s, None) ms = Err TypeError \/
                          lookup_slice data (s, None) ms = Err KeyError).
  { intro ms. unfold lookup_slice. cbn [fst snd]. destruct s as [v|]; cbn [bind]; [|now left].
    destruct (get_loc_ok_or_key (map fst data) v (fst ms)) as [[k Hk]|Hk]; rewrite Hk;
      cbn [bind]; auto. }
  unfold _data_window; cbn [bind].
  destruct m; [rewrite (Hpath eq_refl) | | | | | ]; try (destruct (Hl (FFill, BFill)); auto);
    try (destruct (Hl (BFill, FFill)); auto); try (destruct (Hl (FNearest, FNearest)); auto);
    try (destruct (Hl (FFill, FFill)); auto); try (destruct (Hl (BFill, BFill)); auto).
Qed.

Lemma window_beyond_range_witness :
  _data_window three_rows (Some (-5), Some 25) Pre false false = Err KeyError /\
  _data_window three_rows (Some (-5), Some 25) Post false false = Err KeyError /\
  _data_window three_rows (Some (-5), Some 25) Inclusive false false = Err KeyError /\
  _data_window three_rows (Some (-5), Some 25) Inclusive false true = Ok three_rows /\
  _data_window three_rows (Some (-5), Some 25) Exclusive false false = Ok three_rows /\
  _data_window three_rows (Some (-5), Some 25) Nearest false false = Ok three_rows.
Proof.
  apply (window_beyond_range three_rows (-5) 25 (0, 1%Z) (20, 3%Z) false); reflexivity.
Defined.

Lemma window_no_end_raises_witness :
  _data_window three_rows (Some 5, None) Pre false false = Err TypeError \/
  _data_window three_rows (Some 5, None) Pre false false = Err KeyError \/
  _data_window three_rows (Some 5, None) Pre false false = Err ValueError.
Proof. apply (window_no_end_raises three_rows (Some 5) Pre false). discriminate. Defined.

(** ** What refitting changes *)

Lemma combine_fst_snd {A B} (l : list (A * B)) : combine (map fst l) (map snd l) = l.
Proof. induction l as [|[a b] l IH]; cbn; [reflexivity|]. now rewrite IH. Qed.

Lemma map_snd_combine {A B} (l1 : list A) (l2 : list B) :
  length l1 = length l2 -> map snd (combine l1 l2) = l2.
Proof.
  revert l2. induction l1 as [|x l1 IH]; intros [|y l2] H; try discriminate; [reflexivity|].
  cbn. f_equal. apply IH. now injection H.
Qed.

Lemma nth_removelast {A} (l : list A) i d :
  (S i < length l)%nat -> nth i (removelast l) d = nth i l d.
Proof.
  intro H. assert (Hne : l <> []) by (intro E; rewrite E in H; cbn in H; lia).
  rewrite (app_removelast_last d Hne) at 2. rewrite app_nth1; [reflexivity|].
  pose proof (app_removelast_last d Hne) as E. apply (f_equal (@length A)) in E.
  rewrite length_app in E. cbn in E. lia.
Qed.

Lemma set_last_spec l v l' :
  set_last l v = Ok l' -> length l' = length l /\
  forall i, (S i < length l)%nat -> nth i l' 0 = nth i l 0.
Proof.
  unfold set_last. destruct l as [|a l0] eqn:El; [discriminate|]. rewrite <- El.
  intro H. injection H as <-. assert (Hne : l <> []) by (rewrite El; discriminate).
  split; [now apply length_removelast_snoc|]. intros i Hi.
  rewrite app_nth1 by (rewrite <- (length_removelast_snoc l v Hne) in Hi;
                        rewrite length_app in Hi; cbn in Hi; lia).
  now apply nth_removelast.
Qed.

Lemma set_first_spec l v l' :
  set_first l v = Ok l' -> length l' = length l /\
  forall i, (0 < i)%nat -> nth i l' 0 = nth i l 0.
Proof.
  unfold set_first. destruct l as [|a l0]; [discriminate|]. intro H. injection H as <-.
  split; [reflexivity|]. intros [|i] Hi; [lia|reflexivity].
Qed.

(** Refitting keeps the rows of the window: the same payloads in the same
    order, and the same index values except at the first and last
    positions. *)
Theorem refit_keeps_rows {R} (data : table R) (start end_ : option Q) (m : method)
  (fi : bool) (d0 : table R)
  (Hne : data <> []) (H : _data_refit_index data start end_ m fi = Ok d0) :
  exists d, _data_window data (start, end_) m true fi = Ok d /\
    map snd d0 = map snd d /\ length d0 = length d /\
    forall i, (0 < i)%nat -> (S i < length d)%nat -> nth i (map fst d0) 0 = nth i (map fst d) 0.
Proof.
  unfold _data_refit_index in H. destruct data as [|x l]; [congruence|].
  destruct (_data_window (x :: l) (start, end_) m true fi) as [d|err] eqn:Hw;
    cbn [bind] in H; [|discriminate].
  exists d. split; [reflexivity|].
  assert (HI : exists I, d0 = combine I (map snd d) /\ length I = length d /\
            forall i, (0 < i)%nat -> (S i < length d)%nat -> nth i I 0 = nth i (map fst d) 0).
  { destruct end_ as [e|]; [destruct (set_last (map fst d) e) as [I1|err] eqn:E1|];
      cbn [bind] in H; try discriminate;
      [pose proof (set_last_spec _ _ _ E1) as [L1 N1]; rewrite length_map in L1, N1
      | set (I1 := map fst d) in H;
        assert (L1 : length I1 = length d) by apply length_map;
        assert (N1 : forall i, (S i < length d)%nat -> nth i I1 0 = nth i (map fst d) 0)
          by reflexivity];
      (destruct start as [s|]; [destruct (set_first I1 s) as [I2|err] eqn:E2|];
       cbn [bind] in H; try discriminate; injection H as <-;
       [pose proof (set_first_spec _ _ _ E2) as [L2 N2];
        exists I2; split; [reflexivity|]; split; [congruence|];
        intros i Hi1 Hi2; rewrite N2 by exact Hi1; now apply N1
       | exists I1; split; [reflexivity|]; split; [exact L1|];
        intros i Hi1 Hi2; now apply N1]). }
  destruct HI as [I [-> [HL HN]]].
  rewrite map_snd_combine by (now rewrite length_map).
  rewrite length_combine, length_map, HL, Nat.min_id.
  split; [reflexivity|]. split; [reflexivity|].
  rewrite map_fst_combine by (now rewrite length_map). exact HN.
Qed.

(** Refitting a sorted table with no bounds returns it unchanged, for every
    supported method. *)
Theorem refit_no_bounds {R} (data : table R) (m : method) (fi : bool)
  (Hs : sorted_rows data) (Hm : m <> Unsupported) :
  _data_refit_index data None None m fi = Ok data.
Proof.
  destruct data as [|x l]; [reflexivity|]. unfold _data_refit_index.
  rewrite window_whole_all by (assumption || discriminate). cbn [bind].
  now rewrite combine_fst_snd.
Qed.

Lemma refit_keeps_rows_witness :
  exists d, _data_window three_rows (Some 5, Some 15) Inclusive true false = Ok d /\
    map snd [(5, 1%Z); (10, 2%Z); (15, 3%Z)] = map snd d /\
    length [(5, 1%Z); (10, 2%Z); (15, 3%Z)] = length d /\
    forall i, (0 < i)%nat -> (S i < length d)%nat ->
      nth i (map fst [(5, 1%Z); (10, 2%Z); (15, 3%Z)]) 0 = nth i (map fst d) 0.
Proof.
  apply (refit_keeps_rows three_rows (Some 5) (Some 15) Inclusive false
           [(5, 1%Z); (10, 2%Z); (15, 3%Z)]); [discriminate | reflexivity].
Defined.

Lemma refit_no_bounds_witness :
  _data_refit_index three_rows None None Nearest true = Ok three_rows.
Proof. apply (refit_no_bounds three_rows Nearest true); [reflexivity | discriminate]. Defined.

(** ** Shape of a squashed table *)

Lemma map_fst_map_last {A} (f : Q * A -> Q * A) (l : table A) :
  (forall r, fst (f r) = fst r) -> map fst (map_last f l) = map fst l.
Proof.
  intro Hf. induction l as [|x l IH]; [reflexivity|].
  destruct l as [|y l]; [cbn; now rewrite Hf|].
  replace (map_last f (x :: y :: l)) with (x :: map_last f (y :: l)) by reflexivity.
  cbn [map]. rewrite IH. reflexivity.
Qed.

Lemma Forall_map_last {A} (P : A -> Prop) (f : A -> A) l :
  Forall P l -> (forall r, P r -> P (f r)) -> Forall P (map_last f l).
Proof.
  intros H Hf. induction H as [|x l Hx H IH]; [constructor|].
  destruct l as [|y l]; cbn [map_last]; constructor; auto.
Qed.

Lemma squash_tail {A} (start E : Q) (res0 M : table (srow A)) :
  let P := fun r : Q * srow A => start <= fst r <= E /\ 0 <= delta (snd r) in
  sorted_rows (res0 ++ M) -> Forall P (res0 ++ M) ->
  let R := match M with
           | [] => res0
           | _ :: _ => if in_index E (res0 ++ M) then drop_label E (res0 ++ M)
                       else map_last (cap_delta E) (res0 ++ M)
           end in
  sorted_rows R /\ Forall P R.
Proof.
  intros P Hs Hf R. unfold R. destruct M as [|m M'].
  - rewrite app_nil_r in Hs, Hf. now split.
  - destruct (in_index E (res0 ++ m :: M')).
    + split; [now apply sorted_rows_filter|]. unfold drop_label.
      rewrite Forall_forall in *. intros r Hr. apply filter_In in Hr as [Hr _]. auto.
    + split.
      * unfold sorted_rows. rewrite map_fst_map_last; [exact Hs | reflexivity].
      * apply Forall_map_last; [exact Hf|]. intros [t r] [[H1 H2] H3]. unfold cap_delta, P.
        cbn [fst snd delta] in *. split; [lra|]. apply Q.min_glb; lra.
Qed.

(** On a sorted table whose durations are non-negative, [df_squash] returns
    a sorted table whose index values lie in [[start, end]] and whose
    durations are non-negative. *)
Theorem df_squash_bounded {A} (df : table (srow A)) (start end_ : Q)
  (Hs : sorted_rows df) (Hd : Forall (fun r => 0 <= delta (snd r)) df) :
  sorted_rows (df_squash df start end_) /\
  Forall (fun r => start <= fst r <= end_ /\ 0 <= delta (snd r)) (df_squash df start end_).
Proof.
  unfold df_squash.
  destruct (last_opt df) as [[lt lr]|] eqn:El.
  2: { apply last_opt_none in El. subst. split; [reflexivity | constructor]. }
  set (E := Qmin end_ (lt + delta lr)).
  destruct (qlt E start) eqn:Hlt; [split; [reflexivity | constructor]|]. qbool.
  assert (HE : E <= end_) by apply Q.le_min_l.
  remember (label_slice (Some start, Some E) df) as M eqn:EM.
  assert (HMs : sorted_rows M)
    by (rewrite EM, label_slice_filter by exact Hs; now apply sorted_rows_filter).
  assert (HMf : Forall (fun r => start <= fst r <= E /\ 0 <= delta (snd r)) M).
  { rewrite EM, label_slice_filter by exact Hs. rewrite Forall_forall in *.
    intros r Hr. apply filter_In in Hr as [Hr Hw]. unfold in_window in Hw; cbn [fst snd] in Hw.
    apply andb_prop in Hw as [H1 H2]. qbool. auto. }
  assert (Hweak : forall R : table (srow A),
            Forall (fun r => start <= fst r <= E /\ 0 <= delta (snd r)) R ->
            Forall (fun r => start <= fst r <= end_ /\ 0 <= delta (snd r)) R).
  { intros R HR. eapply Forall_impl; [|exact HR]. intros r [[? ?] ?]. split; [split|]; lra. }
  assert (Hmain : forall res0, sorted_rows (res0 ++ M) ->
            Forall (fun r => start <= fst r <= E /\ 0 <= delta (snd r)) (res0 ++ M) ->
            let R := match M with
                     | [] => res0
                     | _ :: _ => if in_index E (res0 ++ M) then drop_label E (res0 ++ M)
                                 else map_last (cap_delta E) (res0 ++ M)
                     end in
            sorted_rows R /\ Forall (fun r => start <= fst r <= end_ /\ 0 <= delta (snd r)) R).
  { intros res0 H1 H2 R. destruct (squash_tail start E res0 M H1 H2) as [? ?]. split; auto. }
  destruct (last_opt (label_slice (None, Some start) df)) as [[pt p]|];
    [destruct (in_index start M) eqn:Hin|]; apply Hmain; try exact HMs; try exact HMf.
  - assert (Hgt : Forall (fun r => start < fst r) M).
    { rewrite Forall_forall in *. intros r Hr. destruct (HMf r Hr) as [[H1 _] _].
      destruct (Qle_lt_or_eq _ _ H1) as [|Heq]; [assumption|].
      exfalso. assert (in_index start M = true) by (apply (in_index_In _ _ r); auto; now symmetry).
      congruence. }
    apply sorted_rows_cons_inv; [exact Hgt | exact HMs].
  - assert (He1 : start <= match M with [] => E | (t, _) :: _ => t end).
    { destruct M as [|[t r] M']; [exact Hlt|]. inversion HMf as [|? ? [[H1 _] _] _]. exact H1. }
    constructor; [|exact HMf]. cbn [fst snd delta]. split; [split; [apply Qle_refl | exact Hlt]|].
    apply Q.min_glb; lra.
Qed.

Lemma df_squash_bounded_witness :
  sorted_rows (df_squash squash_example 16.5 17.5) /\
  Forall (fun r => 16.5 <= fst r <= 17.5 /\ 0 <= delta (snd r))
    (df_squash squash_example 16.5 17.5).
Proof.
  apply (df_squash_bounded squash_example 16.5 17.5); [reflexivity|].
  repeat constructor; compute; discriminate.
Defined.

(** ** Consecutive deduplication *)

Lemma adj_distinct_cons {A} (eqb : A -> A -> bool) x l :
  adj_distinct eqb (x :: l) =
  match l with [] => true | y :: _ => negb (eqb x y) && adj_distinct eqb l end.
Proof. destruct l; reflexivity. Qed.

Lemma shift_values_first vals :
  shift_values 1 vals = firstn (length vals) (None :: map Some vals).
Proof. reflexivity. Qed.

Lemma shift_values_last vals :
  shift_values (-1) vals = match vals with [] => [] | _ :: vs => map Some vs ++ [None] end.
Proof.
  unfold shift_values. cbn -[firstn skipn]. destruct vals as [|v vs]; [reflexivity|].
  cbn [map skipn length]. apply firstn_all2. rewrite length_app, length_map. cbn. lia.
Qed.

Lemma mask_first_go (data : table Z) prev :
  mask data (map (fun p => ne_shifted (fst p) (snd p))
                 (combine (map snd data) (firstn (length data) (prev :: map Some (map snd data)))))
  = dedup_first_go prev data.
Proof.
  revert prev. induction data as [|[t v] l IH]; intro prev; [reflexivity|].
  cbn [length firstn map combine mask fst snd dedup_first_go].
  specialize (IH (Some v)). cbn [length] in IH.
  destruct l as [|[t2 v2] l'].
  - cbn. destruct (ne_shifted v prev); reflexivity.
  - cbn [map firstn length] in IH |- *. rewrite <- IH. reflexivity.
Qed.

Lemma mask_last_go (data : table Z) :
  mask data (map (fun p => ne_shifted (fst p) (snd p))
                 (combine (map snd data)
                    (match map snd data with [] => [] | _ :: vs => map Some vs ++ [None] end)))
  = dedup_last_go data.
Proof.
  induction data as [|[t v] l IH]; [reflexivity|].
  destruct l as [|[t2 v2] l']; [reflexivity|].
  cbn [map combine mask fst snd dedup_last_go hd_error option_map app] in IH |- *.
  rewrite <- IH. reflexivity.
Qed.

Lemma dedup_first_eq data :
  series_deduplicate data KeepFirst true = Ok (dedup_first_go None data).
Proof.
  unfold series_deduplicate, _data_deduplicate. cbn [bind].
  rewrite shift_values_first, length_map. exact (f_equal Ok (mask_first_go data None)).
Qed.

Lemma dedup_last_eq data :
  series_deduplicate data KeepLast true = Ok (dedup_last_go data).
Proof.
  unfold series_deduplicate, _data_deduplicate. cbn [bind].
  rewrite shift_values_last. exact (f_equal Ok (mask_last_go data)).
Qed.

Lemma dedup_first_incl prev l : incl (dedup_first_go prev l) l.
Proof.
  revert prev. induction l as [|[t v] l IH]; intro prev; cbn [dedup_first_go]; [apply incl_refl|].
  destruct (ne_shifted v prev).
  - apply incl_cons; [now left|]. apply incl_tl, IH.
  - apply incl_tl, IH.
Qed.

Lemma dedup_last_incl l : incl (dedup_last_go l) l.
Proof.
  induction l as [|[t v] l IH]; cbn [dedup_last_go]; [apply incl_refl|].
  destruct (ne_shifted _ _).
  - apply incl_cons; [now left|]. now apply incl_tl.
  - now apply incl_tl.
Qed.

Lemma ne_shifted_false v w : ne_shifted v w = false -> w = Some v.
Proof.
  destruct w as [w|]; cbn; [|discriminate]. intro H. apply Bool.negb_false_iff, Z.eqb_eq in H.
  now subst.
Qed.

Lemma dedup_first_distinct prev l :
  adj_distinct Z.eqb (map snd (dedup_first_go prev l)) = true /\
  (forall r, hd_error (dedup_first_go prev l) = Some r -> ne_shifted (snd r) prev = true).
Proof.
  revert prev. induction l as [|[t v] l IH]; intro prev; [split; [reflexivity|discriminate]|].
  cbn [dedup_first_go]. destruct (IH (Some v)) as [IH1 IH2].
  destruct (ne_shifted v prev) eqn:E.
  - split; [|intros r Hr; now injection Hr as <-].
    cbn [map]. rewrite adj_distinct_cons.
    destruct (dedup_first_go (Some v) l) as [|r rs] eqn:Eg; [reflexivity|].
    cbn [map] in IH1 |- *. rewrite IH1, andb_true_r. pose proof (IH2 r eq_refl) as H.
    cbn in H |- *. now rewrite Z.eqb_sym.
  - apply ne_shifted_false in E. subst prev. split; [exact IH1 | exact IH2].
Qed.

Lemma dedup_last_head l y :
  hd_error l = Some y -> exists r, hd_error (dedup_last_go l) = Some r /\ snd r = snd y.
Proof.
  revert y. induction l as [|[t v] l IH]; intros y Hy; [discriminate|].
  injection Hy as <-. cbn [dedup_last_go].
  destruct (ne_shifted v (option_map snd (hd_error l))) eqn:E; [eexists; split; reflexivity|].
  apply ne_shifted_false in E. destruct l as [|y2 l]; [discriminate|].
  cbn [hd_error option_map] in E. injection E as E.
  destruct (IH y2 eq_refl) as [r [Hr Hv]]. exists r. split; [exact Hr|]. cbn. congruence.
Qed.

Lemma dedup_last_distinct l : adj_distinct Z.eqb (map snd (dedup_last_go l)) = true.
Proof.
  induction l as [|[t v] l IH]; [reflexivity|]. cbn [dedup_last_go].
  destruct (ne_shifted v (option_map snd (hd_error l))) eqn:E; [|exact IH].
  cbn [map]. rewrite adj_distinct_cons.
  destruct l as [|y l]; [reflexivity|].
  destruct (dedup_last_head (y :: l) y eq_refl) as [r [Hr Hv]].
  destruct (dedup_last_go (y :: l)) as [|r' rs]; [discriminate|]. injection Hr as ->.
  cbn [map] in IH |- *. rewrite IH, andb_true_r. cbn [hd_error option_map ne_shifted] in E.
  now rewrite Hv.
Qed.

Lemma last_opt_cons2 {A} (x y : A) l : last_opt (x :: y :: l) = last_opt (y :: l).
Proof. reflexivity. Qed.

Lemma dedup_last_last l : last_opt (dedup_last_go l) = last_opt l.
Proof.
  induction l as [|[t v] l IH]; [reflexivity|]. cbn [dedup_last_go].
  destruct l as [|y l]; [reflexivity|].
  assert (Hne : dedup_last_go (y :: l) <> []).
  { destruct (dedup_last_head (y :: l) y eq_refl) as [r [Hr _]]. intro E. now rewrite E in Hr. }
  destruct (ne_shifted _ _).
  - destruct (dedup_last_go (y :: l)) as [|p l0] eqn:E; [congruence|].
    rewrite !last_opt_cons2. exact IH.
  - rewrite last_opt_cons2. exact IH.
Qed.

Lemma dedup_first_keep_all prev l :
  adj_distinct Z.eqb (map snd l) = true ->
  (forall r, hd_error l = Some r -> ne_shifted (snd r) prev = true) ->
  dedup_first_go prev l = l.
Proof.
  revert prev. induction l as [|[t v] l IH]; intros prev Ha Hh; [reflexivity|].
  cbn [dedup_first_go]. replace (ne_shifted v prev) with true by (symmetry; exact (Hh _ eq_refl)).
  f_equal. apply IH.
  - cbn [map] in Ha. rewrite adj_distinct_cons in Ha. destruct l; [reflexivity|].
    now apply andb_prop in Ha as [_ Ha].
  - intros r Hr. destruct l as [|y l]; [discriminate|]. injection Hr as <-.
    cbn [map] in Ha. rewrite adj_distinct_cons in Ha. apply andb_prop in Ha as [Ha _].
    cbn. now rewrite Z.eqb_sym.
Qed.

Lemma dedup_last_keep_all l :
  adj_distinct Z.eqb (map snd l) = true -> dedup_last_go l = l.
Proof.
  induction l as [|[t v] l IH]; intro Ha; [reflexivity|]. cbn [dedup_last_go].
  cbn [map] in Ha. rewrite adj_distinct_cons in Ha.
  destruct l as [|y l]; [reflexivity|]. apply andb_prop in Ha as [H1 H2].
  cbn [hd_error option_map ne_shifted fst snd] in H1 |- *. rewrite H1. f_equal. now apply IH.
Qed.

(** With [consecutives=True] and [keep='first'], [series_deduplicate]
    returns rows of the input in which no two neighbours hold the same
    value, and the first row is always kept. *)
Theorem dedup_consecutive_first (data : table Z) :
  exists d, series_deduplicate data KeepFirst true = Ok d /\
    adj_distinct Z.eqb (map snd d) = true /\ incl d data /\ hd_error d = hd_error data.
Proof.
  exists (dedup_first_go None data). split; [apply dedup_first_eq|].
  split; [apply (dedup_first_distinct None data)|]. split; [apply dedup_first_incl|].
  destruct data as [|[t v] l]; reflexivity.
Qed.

(** With [consecutives=True] and [keep='last'], [series_deduplicate]
    returns rows of the input in which no two neighbours hold the same
    value, and the last row is always kept. *)
Theorem dedup_consecutive_last (data : table Z) :
  exists d, series_deduplicate data KeepLast true = Ok d /\
    adj_distinct Z.eqb (map snd d) = true /\ incl d data /\ last_opt d = last_opt data.
Proof.
  exists (dedup_last_go data). split; [apply dedup_last_eq|].
  split; [apply dedup_last_distinct|]. split; [apply dedup_last_incl|].
  apply dedup_last_last.
Qed.

(** Consecutive deduplication is idempotent: deduplicating its result
    again with the same [keep] returns it unchanged. *)
Theorem dedup_consecutive_idempotent (data d : table Z) (keep : keep_t)
  (H : series_deduplicate data keep true = Ok d) :
  series_deduplicate d keep true = Ok d.
Proof.
  destruct keep.
  - rewrite dedup_first_eq in H. injection H as <-. rewrite dedup_first_eq. f_equal.
    destruct (dedup_first_distinct None data) as [Ha _].
    apply dedup_first_keep_all; [exact Ha|]. intros r _. reflexivity.
  - rewrite dedup_last_eq in H. injection H as <-. rewrite dedup_last_eq. f_equal.
    apply dedup_last_keep_all, dedup_last_distinct.
  - discriminate.
Qed.

Lemma dedup_consecutive_idempotent_witness :
  series_deduplicate [(1, 1%Z); (2, 2%Z); (30, 3%Z); (40, 4%Z); (50, 2%Z)] KeepFirst true =
  Ok [(1, 1%Z); (2, 2%Z); (30, 3%Z); (40, 4%Z); (50, 2%Z)].
Proof. apply (dedup_consecutive_idempotent dedup_example). reflexivity. Defined.

(** ** Non-consecutive deduplication *)

Lemma drop_dup_first_props seen l :
  incl (drop_dup_first seen l) l /\
  NoDup (map snd (drop_dup_first seen l)) /\
  (forall r, In r (drop_dup_first seen l) -> ~ In (snd r) seen) /\
  (forall v, In v (map snd l) -> In v seen \/ In v (map snd (drop_dup_first seen l))).
Proof.
  revert seen. induction l as [|[t v] l IH]; intro seen.
  - split; [apply incl_refl|]. split; [constructor|]. split; cbn; easy.
  - cbn [drop_dup_first]. destruct (existsb (Z.eqb v) seen) eqn:E.
    + destruct (IH seen) as [H1 [H2 [H3 H4]]]. split; [now apply incl_tl|].
      split; [exact H2|]. split; [exact H3|].
      intros w [<-|Hw]; [|now apply H4].
      left. apply existsb_exists in E as [w' [Hw' Hq]]. apply Z.eqb_eq in Hq. now subst.
    + destruct (IH (v :: seen)) as [H1 [H2 [H3 H4]]].
      assert (Hnot : ~ In v seen).
      { intro Hin. assert (existsb (Z.eqb v) seen = true)
          by (apply existsb_exists; exists v; split; [exact Hin | apply Z.eqb_refl]).
        congruence. }
      split; [apply incl_cons; [now left | now apply incl_tl]|].
      split; [cbn [map]; constructor; [|exact H2]|].
      { intro Hin. apply in_map_iff in Hin as [r [Hr Hin]]. apply (H3 r Hin). left. now symmetry. }
      split.
      * intros r [<-|Hr]; [exact Hnot|]. intro Hs. apply (H3 r Hr). now right.
      * intros w [<-|Hw]; [right; now left|].
        destruct (H4 w Hw) as [[<-|Hs]|Hd]; [right; now left | now left | right; now right].
Qed.

(** With [consecutives=False], a truthy [all_col] and [keep] ['first'] or
    ['last'], [_data_deduplicate] returns rows of the input holding pairwise
    distinct values, and every value of the input appears in it. *)
Theorem dedup_all_distinct (data d : table Z) (keep : keep_t)
  (H : _data_deduplicate data keep false (Some true) = Ok d) :
  NoDup (map snd d) /\ incl d data /\ forall v, In v (map snd data) -> In v (map snd d).
Proof.
  unfold _data_deduplicate in H.
  destruct keep; cbn [bind truthy negb] in H; try discriminate; injection H as <-;
    unfold drop_duplicates.
  - destruct (drop_dup_first_props [] data) as [H1 [H2 [_ H4]]].
    split; [exact H2|]. split; [exact H1|]. intros v Hv. now destruct (H4 v Hv).
  - destruct (drop_dup_first_props [] (rev data)) as [H1 [H2 [_ H4]]].
    rewrite map_rev. split; [now apply NoDup_rev|]. split.
    + intros r Hr. rewrite <- in_rev in Hr. apply H1 in Hr. now rewrite <- in_rev in Hr.
    + intros v Hv. rewrite <- in_rev.
      assert (Hv' : In v (map snd (rev data))) by (rewrite map_rev; now rewrite <- in_rev).
      destruct (H4 v Hv') as [[]|Hd]; exact Hd.
Qed.

Lemma dedup_all_distinct_witness :
  NoDup (map snd [(1, 1%Z); (2, 2%Z); (30, 3%Z); (40, 4%Z)]) /\
  incl [(1, 1%Z); (2, 2%Z); (30, 3%Z); (40, 4%Z)] dedup_example /\
  forall v, In v (map snd dedup_example) -> In v (map snd [(1, 1%Z); (2, 2%Z); (30, 3%Z); (40, 4%Z)]).
Proof. apply (dedup_all_distinct dedup_example _ KeepFirst). reflexivity. Defined.

(** ** Integrals and means *)

Lemma last_cons_default {A} (a : A) l d : last (a :: l) d = last l a.
Proof.
  revert a d. induction l as [|b l IH]; intros a d; [reflexivity|].
  change (last (b :: l) d = last (b :: l) a). now rewrite !IH.
Qed.

(** [series_integrate] with a sign clips the values first: the same as
    integrating the clipped series without a sign. *)
Lemma integrate_plus_none simps (y : table Q) m post :
  series_integrate simps y None SignPlus m post =
  series_integrate simps (map (fun r => (fst r, Qmax (snd r) 0)) y) None SignNone m post.
Proof. unfold series_integrate, _resolve_x. cbn [bind]. now rewrite !map_map. Qed.

Lemma integrate_minus_none simps (y : table Q) m post :
  series_integrate simps y None SignMinus m post =
  series_integrate simps (map (fun r => (fst r, Qmin (snd r) 0)) y) None SignNone m post.
Proof. unfold series_integrate, _resolve_x. cbn [bind]. now rewrite !map_map. Qed.

Lemma sorted_rows_map_snd {A B} (f : A -> B) (y : table A) :
  sorted_rows y -> sorted_rows (map (fun r => (fst r, f (snd r))) y).
Proof. unfold sorted_rows. now rewrite map_map. Qed.

Lemma pre_bounds lo hi prev (r : table Q) :
  Forall (fun q => prev <= fst q) r -> sorted_rows r ->
  Forall (fun q => lo <= snd q <= hi) r ->
  lo * (last (map fst r) prev - prev) <=
    nan_sum (zip_with (fun v d => option_map (Qmult v) d) (map snd r) (q_diff_from prev (map fst r)))
  <= hi * (last (map fst r) prev - prev).
Proof.
  revert prev. induction r as [|[x1 y1] r IH]; intros prev Hp Hs Hb; [cbn; lra|].
  pose proof (sorted_rows_cons _ _ Hs) as [Hf Hs'].
  inversion Hp as [|? ? Hx1 _]; subst. inversion Hb as [|? ? [Hlo Hhi] Hb']; subst.
  cbn [fst snd] in *.
  assert (Hf' : Forall (fun q => x1 <= fst q) r)
    by (eapply Forall_impl; [|exact Hf]; intros q Hq; now apply Qlt_le_weak).
  destruct (IH x1 Hf' Hs' Hb') as [IH1 IH2].
  change (map fst ((x1, y1) :: r)) with (x1 :: map fst r).
  change (map snd ((x1, y1) :: r)) with (y1 :: map snd r). rewrite last_cons_default.
  change (nan_sum (zip_with (fun v d => option_map (Qmult v) d) (y1 :: map snd r)
            (q_diff_from prev (x1 :: map fst r))))
    with (y1 * (x1 - prev) + nan_sum (zip_with (fun v d => option_map (Qmult v) d)
            (map snd r) (q_diff_from x1 (map fst r)))).
  assert (Hd : 0 <= x1 - prev) by lra.
  pose proof (Qmult_le_compat_r _ _ _ Hlo Hd). pose proof (Qmult_le_compat_r _ _ _ Hhi Hd).
  lra.
Qed.

Lemma post_bounds lo hi x0 y0 (r : table Q) :
  Forall (fun q => x0 <= fst q) r -> sorted_rows r -> lo <= y0 <= hi ->
  Forall (fun q => lo <= snd q <= hi) r ->
  lo * (last (map fst r) x0 - x0) <=
    nan_sum (zip_with (fun v d => option_map (Qmult v) d) (y0 :: map snd r)
               (q_diff_from x0 (map fst r) ++ [None]))
  <= hi * (last (map fst r) x0 - x0).
Proof.
  revert x0 y0. induction r as [|[x1 y1] r IH]; intros x0 y0 Hp Hs Hy0 Hb; [cbn; lra|].
  pose proof (sorted_rows_cons _ _ Hs) as [Hf Hs'].
  inversion Hp as [|? ? Hx1 _]; subst. inversion Hb as [|? ? Hy1 Hb']; subst.
  cbn [fst snd] in *.
  assert (Hf' : Forall (fun q => x1 <= fst q) r)
    by (eapply Forall_impl; [|exact Hf]; intros q Hq; now apply Qlt_le_weak).
  destruct (IH x1 y1 Hf' Hs' Hy1 Hb') as [IH1 IH2].
  change (map fst ((x1, y1) :: r)) with (x1 :: map fst r).
  change (map snd ((x1, y1) :: r)) with (y1 :: map snd r). rewrite last_cons_default.
  change (nan_sum (zip_with (fun v d => option_map (Qmult v) d) (y0 :: y1 :: map snd r)
            (q_diff_from x0 (x1 :: map fst r) ++ [None])))
    with (y0 * (x1 - x0) + nan_sum (zip_with (fun v d => option_map (Qmult v) d)
            (y1 :: map snd r) (q_diff_from x1 (map fst r) ++ [None]))).
  assert (Hd : 0 <= x1 - x0) by lra. destruct Hy0 as [Hlo Hhi].
  pose proof (Qmult_le_compat_r _ _ _ Hlo Hd). pose proof (Qmult_le_compat_r _ _ _ Hhi Hd).
  lra.
Qed.

Lemma trapz_bounds lo hi x0 y0 (r : table Q) :
  Forall (fun q => x0 <= fst q) r -> sorted_rows r -> lo <= y0 <= hi ->
  Forall (fun q => lo <= snd q <= hi) r ->
  lo * (last (map fst r) x0 - x0) <= trapz (y0 :: map snd r) (x0 :: map fst r)
  <= hi * (last (map fst r) x0 - x0).
Proof.
  revert x0 y0. induction r as [|[x1 y1] r IH]; intros x0 y0 Hp Hs Hy0 Hb; [cbn; lra|].
  pose proof (sorted_rows_cons _ _ Hs) as [Hf Hs'].
  inversion Hp as [|? ? Hx1 _]; subst. inversion Hb as [|? ? Hy1 Hb']; subst.
  cbn [fst snd] in *.
  assert (Hf' : Forall (fun q => x1 <= fst q) r)
    by (eapply Forall_impl; [|exact Hf]; intros q Hq; now apply Qlt_le_weak).
  destruct (IH x1 y1 Hf' Hs' Hy1 Hb') as [IH1 IH2].
  change (map fst ((x1, y1) :: r)) with (x1 :: map fst r).
  change (map snd ((x1, y1) :: r)) with (y1 :: map snd r). rewrite last_cons_default.
  change (trapz (y0 :: y1 :: map snd r) (x0 :: x1 :: map fst r))
    with ((x1 - x0) * (y1 + y0) / 2 + trapz (y1 :: map snd r) (x1 :: map fst r)).
  assert (Hd : 0 <= x1 - x0) by lra. destruct Hy0, Hy1.
  unfold Qdiv. change (/ 2) with (1#2).
  assert (Hlo : lo <= (y1 + y0) * (1#2)) by lra. assert (Hhi : (y1 + y0) * (1#2) <= hi) by lra.
  pose proof (Qmult_le_compat_r _ _ _ Hlo Hd). pose proof (Qmult_le_compat_r _ _ _ Hhi Hd).
  lra.
Qed.

(** On a sorted table whose values lie in [[lo, hi]], the [rect] and
    [trapz] integrals lie between [lo] and [hi] times the index span. *)
Lemma integral_bounds simps (p : table Q) x0 y0 r lo hi m post v :
  p = (x0, y0) :: r -> sorted_rows p -> Forall (fun q => lo <= snd q <= hi) p ->
  m = Rect \/ m = Trapz -> series_integrate simps p None SignNone m post = Ok v ->
  lo * (last (map fst r) x0 - x0) <= v <= hi * (last (map fst r) x0 - x0).
Proof.
  intros -> Hs Hb Hm H. pose proof (sorted_rows_cons _ _ Hs) as [Hf Hs'].
  assert (Hf' : Forall (fun q => x0 <= fst q) r)
    by (eapply Forall_impl; [|exact Hf]; intros q Hq; now apply Qlt_le_weak).
  inversion Hb as [|? ? Hy0 Hb']; subst.
  unfold series_integrate, _resolve_x in H. cbn [bind] in H.
  destruct Hm as [->| ->]; injection H as <-.
  - destruct post.
    + exact (post_bounds lo hi x0 y0 r Hf' Hs' Hy0 Hb').
    + exact (pre_bounds lo hi x0 r Hf' Hs' Hb').
  - exact (trapz_bounds lo hi x0 y0 r Hf' Hs' Hy0 Hb').
Qed.

Lemma table_bounded (l : table Q) : exists lo hi, Forall (fun q => lo <= snd q <= hi) l.
Proof.
  induction l as [|[x v] l [lo [hi IH]]]; [exists 0, 0; constructor|].
  exists (Qmin v lo), (Qmax v hi). constructor.
  - cbn [snd]. split; [apply Q.le_min_l | apply Q.le_max_l].
  - eapply Forall_impl; [|exact IH]. intros q [H1 H2]. split.
    + eapply Qle_trans; [apply Q.le_min_r | exact H1].
    + eapply Qle_trans; [exact H2 | apply Q.le_max_r].
Qed.

Lemma integrate_nil simps m post v :
  m = Rect \/ m = Trapz -> series_integrate simps [] None SignNone m post = Ok v -> v == 0.
Proof.
  intros [->| ->] H; unfold series_integrate in H; cbn in H; [destruct post|];
    injection H as <-; reflexivity.
Qed.

(** On a sorted index, integrating with [sign='+'] gives a non-negative
    result and with [sign='-'] a non-positive one, for the [rect] and
    [trapz] methods. *)
Theorem integrate_sign simps (y : table Q) (m : imethod) (post : bool)
  (Hs : sorted_rows y) (Hm : m = Rect \/ m = Trapz) :
  (forall v, series_integrate simps y None SignPlus m post = Ok v -> 0 <= v) /\
  (forall v, series_integrate simps y None SignMinus m post = Ok v -> v <= 0).
Proof.
  split; intros v H; [rewrite integrate_plus_none in H | rewrite integrate_minus_none in H];
    (destruct y as [|[x0 y0] r];
     [cbn [map] in H; pose proof (integrate_nil simps m post v Hm H); lra|]);
    cbn [map fst snd] in H.
  - destruct (table_bounded (map (fun r => (fst r, Qmax (snd r) 0)) ((x0, y0) :: r)))
      as [lo0 [hi Hhi]].
    assert (Hb : Forall (fun q => 0 <= snd q <= hi)
                   (map (fun r => (fst r, Qmax (snd r) 0)) ((x0, y0) :: r))).
    { rewrite Forall_forall in *. intros q Hq. split; [|apply Hhi, Hq].
      apply in_map_iff in Hq as [q' [<- _]]. apply Q.le_max_r. }
    pose proof (integral_bounds simps _ x0 (Qmax y0 0) _ 0 hi m post v eq_refl
                  (sorted_rows_map_snd (fun v => Qmax v 0) _ Hs) Hb Hm H). lra.
  - destruct (table_bounded (map (fun r => (fst r, Qmin (snd r) 0)) ((x0, y0) :: r)))
      as [lo [hi0 Hlo]].
    assert (Hb : Forall (fun q => lo <= snd q <= 0)
                   (map (fun r => (fst r, Qmin (snd r) 0)) ((x0, y0) :: r))).
    { rewrite Forall_forall in *. intros q Hq. split; [apply Hlo, Hq|].
      apply in_map_iff in Hq as [q' [<- _]]. apply Q.le_min_r. }
    pose proof (integral_bounds simps _ x0 (Qmin y0 0) _ lo 0 m post v eq_refl
                  (sorted_rows_map_snd (fun v => Qmin v 0) _ Hs) Hb Hm H). lra.
Qed.

Lemma list_max_spec l a :
  list_max l = Some a -> (forall z, In z l -> z <= a) /\ exists z, In z l /\ z == a.
Proof.
  revert a. induction l as [|x l IH]; intros a H; [discriminate|]. cbn [list_max] in H.
  injection H as <-. destruct (list_max l) as [m|] eqn:Em.
  - destruct (IH m eq_refl) as [Hle [z [Hz Hzm]]]. split.
    + intros w [<-|Hw]; [apply Q.le_max_l|].
      eapply Qle_trans; [apply Hle, Hw | apply Q.le_max_r].
    + destruct (Q.max_spec x m) as [[_ E]|[_ E]].
      * exists z. split; [now right|]. rewrite E. exact Hzm.
      * exists x. split; [now left|]. rewrite E. reflexivity.
  - destruct l; [|cbn in Em; discriminate]. split.
    + intros w [<-|[]]. apply Qle_refl.
    + exists x. split; [now left | reflexivity].
Qed.

Lemma list_min_spec l b :
  list_min l = Some b -> (forall z, In z l -> b <= z) /\ exists z, In z l /\ z == b.
Proof.
  revert b. induction l as [|x l IH]; intros b H; [discriminate|]. cbn [list_min] in H.
  injection H as <-. destruct (list_min l) as [m|] eqn:Em.
  - destruct (IH m eq_refl) as [Hle [z [Hz Hzm]]]. split.
    + intros w [<-|Hw]; [apply Q.le_min_l|].
      eapply Qle_trans; [apply Q.le_min_r | apply Hle, Hw].
    + destruct (Q.min_spec x m) as [[_ E]|[_ E]].
      * exists x. split; [now left|]. rewrite E. reflexivity.
      * exists z. split; [now right|]. rewrite E. exact Hzm.
  - destruct l; [|cbn in Em; discriminate]. split.
    + intros w [<-|[]]. apply Qle_refl.
    + exists x. split; [now left | reflexivity].
Qed.

Lemma list_max_some (l : list Q) : l <> [] -> exists a, list_max l = Some a.
Proof. destruct l; [congruence|]. intros _. cbn. eauto. Qed.

Lemma list_min_some (l : list Q) : l <> [] -> exists a, list_min l = Some a.
Proof. destruct l; [congruence|]. intros _. cbn. eauto. Qed.

(** On a sorted index, [x.max()] is the last index value and [x.min()] the
    first one. *)
Lemma max_min_sorted (y : table Q) (x0 y0 : Q) r :
  y = (x0, y0) :: r -> sorted_rows y ->
  exists a b, list_max (map fst y) = Some a /\ list_min (map fst y) = Some b /\
    a == last (map fst r) x0 /\ b == x0.
Proof.
  intros Ey Hs. destruct (last_opt_some y) as [yl Hyl]; [subst; discriminate|].
  assert (EL : last (map fst r) x0 = fst yl).
  { subst y. rewrite <- (clip_last (x0, y0) r yl Hyl). cbn [fst].
    now rewrite last_cons_default. }
  pose proof (sorted_bounds y (x0, y0) yl Hs (f_equal (@hd_error _) Ey) Hyl) as Hb.
  rewrite Forall_forall in Hb.
  assert (Hin : forall z, In z (map fst y) -> x0 <= z <= fst yl).
  { intros z Hz. apply in_map_iff in Hz as [q [<- Hq]]. exact (Hb q Hq). }
  destruct (list_max_some (map fst y)) as [a Ha]; [subst; discriminate|].
  destruct (list_min_some (map fst y)) as [b Hb'']; [subst; discriminate|].
  exists a, b. split; [exact Ha|]. split; [exact Hb''|].
  destruct (list_max_spec _ _ Ha) as [Hle [z [Hz Hza]]].
  destruct (list_min_spec _ _ Hb'') as [Hge [w [Hw Hwb]]].
  rewrite EL. split.
  - apply Qle_antisym.
    + rewrite <- Hza. apply Hin, Hz.
    + apply Hle. apply in_map_iff. exists yl. split; [reflexivity|].
      destruct (last_opt_app _ _ Hyl) as [init E]. rewrite E. apply in_or_app. right. now left.
  - apply Qle_antisym.
    + apply Hge. subst y. now left.
    + rewrite <- Hwb. apply Hin, Hw.
Qed.

Lemma mean_bounds_core simps (y : table Q) (m : imethod) (post : bool) (lo hi : Q)
  (Hs : sorted_rows y) (H2 : (2 <= length y)%nat) (Hm : m = Rect \/ m = Trapz)
  (Hb : Forall (fun r => lo <= snd r <= hi) y) :
  exists mu, series_mean simps y None SignNone m post = Ok (Fin mu) /\ lo <= mu <= hi.
Proof.
  destruct y as [|[x0 y0] r]; [cbn in H2; lia|].
  set (L := last (map fst r) x0).
  assert (HxL : x0 < L).
  { destruct r as [|q r]; [cbn in H2; lia|].
    destruct (last_opt_some (q :: r)) as [yl Hyl]; [discriminate|].
    assert (EL : L = fst yl).
    { unfold L. change (map fst (q :: r)) with (fst q :: map fst r).
      rewrite last_cons_default. rewrite <- (clip_last q r yl Hyl).
      now rewrite last_cons_default. }
    rewrite EL. apply sorted_rows_cons in Hs as [Hf _]. rewrite Forall_forall in Hf. apply Hf.
    destruct (last_opt_app _ _ Hyl) as [init E]. rewrite E. apply in_or_app. right. now left. }
  destruct (series_integrate simps ((x0, y0) :: r) None SignNone m post) as [I|err] eqn:HI.
  2: { destruct Hm as [-> | ->]; discriminate. }
  pose proof (integral_bounds simps _ x0 y0 r lo hi m post I eq_refl Hs Hb Hm HI) as [HI1 HI2].
  destruct (max_min_sorted _ x0 y0 r eq_refl Hs) as [a [b [Ha [Hb' [Ea Eb]]]]].
  fold L in Ea.
  assert (Hab : a - b == L - x0) by (rewrite Ea, Eb; reflexivity).
  assert (Hpos : 0 < a - b) by (rewrite Hab; lra).
  exists (I / (a - b)). split.
  - unfold series_mean. change (_resolve_x ((x0, y0) :: r) None) with (map fst ((x0, y0) :: r)).
    change (series_integrate simps ((x0, y0) :: r) (Some (map fst ((x0, y0) :: r))) SignNone m post)
      with (series_integrate simps ((x0, y0) :: r) None SignNone m post).
    rewrite HI. cbn [bind]. rewrite Ha, Hb'. unfold fl_div.
    replace (qeq (a - b) 0) with false; [reflexivity|].
    symmetry. destruct (qeq (a - b) 0) eqn:E; [|reflexivity]. apply qeq_iff in E. lra.
  - split.
    + apply Qle_shift_div_l; [exact Hpos|]. rewrite Hab. exact HI1.
    + apply Qle_shift_div_r; [exact Hpos|]. rewrite Hab. exact HI2.
Qed.

(** On a sorted table with at least two rows whose values lie in
    [[lo, hi]], [series_mean] with the [rect] or [trapz] method is a finite
    number in [[lo, hi]]. *)
Theorem mean_bounds simps (y : table Q) (m : imethod) (post : bool) (lo hi : Q)
  (Hs : sorted_rows y) (H2 : (2 <= length y)%nat) (Hm : m = Rect \/ m = Trapz)
  (Hb : Forall (fun r => lo <= snd r <= hi) y) :
  exists mu, series_mean simps y None SignNone m post = Ok (Fin mu) /\ lo <= mu <= hi.
Proof. exact (mean_bounds_core simps y m post lo hi Hs H2 Hm Hb). Qed.

Lemma trapz_average_core x0 y0 (r : table Q) :
  trapz (y0 :: map snd r) (x0 :: map fst r) ==
  (nan_sum (zip_with (fun v d => option_map (Qmult v) d) (map snd r) (q_diff_from x0 (map fst r))) +
   nan_sum (zip_with (fun v d => option_map (Qmult v) d) (y0 :: map snd r)
              (q_diff_from x0 (map fst r) ++ [None]))) / 2.
Proof.
  revert x0 y0. induction r as [|[x1 y1] r IH]; intros x0 y0; [reflexivity|].
  change (map fst ((x1, y1) :: r)) with (x1 :: map fst r).
  change (map snd ((x1, y1) :: r)) with (y1 :: map snd r).
  change (trapz (y0 :: y1 :: map snd r) (x0 :: x1 :: map fst r))
    with ((x1 - x0) * (y1 + y0) / 2 + trapz (y1 :: map snd r) (x1 :: map fst r)).
  change (nan_sum (zip_with (fun v d => option_map (Qmult v) d) (y1 :: map snd r)
            (q_diff_from x0 (x1 :: map fst r))))
    with (y1 * (x1 - x0) + nan_sum (zip_with (fun v d => option_map (Qmult v) d)
            (map snd r) (q_diff_from x1 (map fst r)))).
  change (nan_sum (zip_with (fun v d => option_map (Qmult v) d) (y0 :: y1 :: map snd r)
            (q_diff_from x0 (x1 :: map fst r) ++ [None])))
    with (y0 * (x1 - x0) + nan_sum (zip_with (fun v d => option_map (Qmult v) d)
            (y1 :: map snd r) (q_diff_from x1 (map fst r) ++ [None]))).
  rewrite (IH x1 y1). unfold Qdiv. change (/ 2) with (1#2). lra.
Qed.

Lemma trapz_average_none simps (p : table Q) :
  exists a b t, series_integrate simps p None SignNone Rect false = Ok a /\
    series_integrate simps p None SignNone Rect true = Ok b /\
    series_integrate simps p None SignNone Trapz false = Ok t /\ t == (a + b) / 2.
Proof.
  destruct p as [|[x0 y0] r].
  - exists 0, 0, 0. repeat split; reflexivity.
  - do 3 eexists. split; [reflexivity|]. split; [reflexivity|]. split; [reflexivity|].
    apply trapz_average_core.
Qed.

(** For a series without NaN values (the model's values are finite), the
    [trapz] integral is the average of the [rect] integrals with
    [rect_step='pre'] and [rect_step='post'], for every supported sign.
    With NaN values it can fail: [trapz] drops the NaN rows first. *)
Theorem integrate_trapz_average simps (y : table Q) (s : sign_t) (Hsg : s <> SignOther) :
  exists a b t, series_integrate simps y None s Rect false = Ok a /\
    series_integrate simps y None s Rect true = Ok b /\
    series_integrate simps y None s Trapz false = Ok t /\ t == (a + b) / 2.
Proof.
  destruct s; [| | | congruence].
  - rewrite !integrate_plus_none. apply trapz_average_none.
  - rewrite !integrate_minus_none. apply trapz_average_none.
  - apply trapz_average_none.
Qed.

Lemma integrate_sign_witness :
  (forall v, series_integrate (fun _ _ => 0) three_values None SignPlus Trapz false = Ok v -> 0 <= v) /\
  (forall v, series_integrate (fun _ _ => 0) three_values None SignMinus Trapz false = Ok v -> v <= 0).
Proof. apply (integrate_sign (fun _ _ => 0) three_values Trapz false); [reflexivity | now right]. Defined.

Lemma mean_bounds_witness :
  exists mu, series_mean (fun _ _ => 0) three_values None SignNone Rect true = Ok (Fin mu) /\
    -1 <= mu <= 3.
Proof.
  apply (mean_bounds (fun _ _ => 0) three_values Rect true (-1) 3);
    [reflexivity | cbn; lia | now left |].
  repeat constructor; compute; discriminate.
Defined.

Lemma integrate_trapz_average_witness :
  exists a b t, series_integrate (fun _ _ => 0) three_values None SignMinus Rect false = Ok a /\
    series_integrate (fun _ _ => 0) three_values None SignMinus Rect true = Ok b /\
    series_integrate (fun _ _ => 0) three_values None SignMinus Trapz false = Ok t /\
    t == (a + b) / 2.
Proof. apply (integrate_trapz_average (fun _ _ => 0) three_values SignMinus). discriminate. Defined.

(** ** Derivatives *)

Lemma diff_div_linear (a b : Q) v0 x0 vs xs :
  v0 == a * x0 + b -> Forall2 (fun v x => v == a * x + b) vs xs ->
  increasing (x0 :: xs) = true ->
  exists qs, zip_with fl_div (diff_from (Fin v0) (map Fin vs)) (diff_from (Fin x0) (map Fin xs))
             = map Fin qs /\ length qs = length xs /\ Forall (fun q => q == a) qs.
Proof.
  intros H0 H. revert v0 x0 H0. induction H as [|v1 x1 vs xs Hv1 H IH]; intros v0 x0 H0 Hinc.
  - exists []. repeat split. constructor.
  - apply increasing_cons in Hinc as Hc. destruct Hc as [Hf Hinc'].
    inversion Hf as [|? ? Hx1 _]; subst.
    destruct (IH v1 x1 Hv1 Hinc') as [qs [E [L F]]].
    exists ((v1 - v0) / (x1 - x0) :: qs).
    cbn [map diff_from zip_with fl_sub fl_div].
    replace (qeq (x1 - x0) 0) with false
      by (symmetry; destruct (qeq (x1 - x0) 0) eqn:Eq; [apply qeq_iff in Eq; lra | reflexivity]).
    rewrite E. split; [reflexivity|]. split; [cbn; now rewrite L|]. constructor; [|exact F].
    assert (Hd : v1 - v0 == a * (x1 - x0)) by (rewrite Hv1, H0; ring).
    rewrite Hd. field. intro Ez. lra.
Qed.

Lemma length_zip_with {A B C} (f : A -> B -> C) l1 l2 :
  length l1 = length l2 -> length (zip_with f l1 l2) = length l1.
Proof.
  revert l2. induction l1 as [|x l1 IH]; intros [|w l2] HL; try discriminate; [reflexivity|].
  cbn. f_equal. apply IH. now injection HL.
Qed.

Lemma length_fl_diff l : length (fl_diff l) = length l.
Proof.
  destruct l as [|x l]; [reflexivity|]. cbn [fl_diff length]. f_equal. revert x.
  induction l as [|w l IH]; intro x; [reflexivity|]. cbn. now rewrite IH.
Qed.

Lemma derivate_iter_length (y : table Q) k :
  length (Nat.iter k (fun v => zip_with fl_div (fl_diff v) (fl_diff (map Fin (map fst y))))
            (map Fin (map snd y))) = length y.
Proof.
  induction k as [|k IH]; [change (length (map Fin (map snd y)) = length y); now rewrite !length_map|].
  rewrite Nat.iter_succ. rewrite length_zip_with, length_fl_diff; [exact IH|].
  rewrite !length_fl_diff, !length_map. exact IH.
Qed.

Lemma derivate_snd (y : table Q) (z : Z) :
  map snd (series_derivate y None z) =
  Nat.iter (Z.to_nat z) (fun v => zip_with fl_div (fl_diff v) (fl_diff (map Fin (map fst y))))
    (map Fin (map snd y)).
Proof.
  unfold series_derivate. apply map_snd_combine. rewrite length_map.
  symmetry. apply derivate_iter_length.
Qed.

Lemma derivate_fst (y : table Q) (z : Z) : map fst (series_derivate y None z) = map fst y.
Proof.
  unfold series_derivate. apply map_fst_combine. rewrite length_map.
  symmetry. apply derivate_iter_length.
Qed.


(** On a strictly increasing index, the derivative of a linear series
    [a * t + b] is NaN at the first row (the [diff] of the first row) and
    [a] elsewhere, and its second derivative is NaN at the first two rows
    and [0] elsewhere. *)
Theorem derivate_linear (y : table Q) (a b : Q)
  (Hs : sorted_rows y) (H2 : (2 <= length y)%nat)
  (Hlin : Forall (fun r => snd r == a * fst r + b) y) :
  map fst (series_derivate y None 1) = map fst y /\
  (exists qs, map snd (series_derivate y None 1) = NonFin :: map Fin qs /\
     length qs = (length y - 1)%nat /\ Forall (fun q => q == a) qs) /\
  (exists zs, map snd (series_derivate y None 2) = NonFin :: NonFin :: map Fin zs /\
     length zs = (length y - 2)%nat /\ Forall (fun z => z == 0) zs).
Proof.
  destruct y as [|[x0 v0] r]; [cbn in H2; lia|].
  inversion Hlin as [|? ? Hv0 Hlin']; subst. cbn [fst snd] in Hv0.
  assert (HF : Forall2 (fun v x => v == a * x + b) (map snd r) (map fst r)).
  { clear -Hlin'. induction Hlin'; constructor; auto. }
  destruct (diff_div_linear a b v0 x0 (map snd r) (map fst r) Hv0 HF Hs) as [qs [E1 [L1 F1]]].
  assert (Hstep1 : zip_with fl_div (fl_diff (map Fin (map snd ((x0, v0) :: r))))
                     (fl_diff (map Fin (map fst ((x0, v0) :: r)))) = NonFin :: map Fin qs).
  { cbn [map fl_diff zip_with fl_div fst snd]. now rewrite E1. }
  split; [|split].
  - apply derivate_fst.
  - exists qs. rewrite derivate_snd. change (Z.to_nat 1) with 1%nat.
    change (Nat.iter 1 ?f ?x) with (f x). cbv beta.
    rewrite Hstep1. split; [reflexivity|]. split; [|exact F1].
    rewrite L1, length_map. cbn. lia.
  - rewrite derivate_snd. change (Z.to_nat 2) with 2%nat.
    change (Nat.iter 2 ?f ?x) with (f (f x)). cbv beta. rewrite Hstep1.
    destruct r as [|[x1 v1] r']; [cbn in H2; lia|].
    destruct qs as [|q1 qs']; [cbn in L1; discriminate|].
    inversion F1 as [|? ? Hq1 F1']; subst.
    assert (Hs' : increasing (x1 :: map fst r') = true)
      by (apply sorted_rows_cons in Hs as [_ Hs']; exact Hs').
    assert (HF' : Forall2 (fun v x => v == 0 * x + a) qs' (map fst r')).
    { assert (Lq : length qs' = length (map fst r')).
      { cbn [length map] in L1. rewrite length_map in L1 |- *. lia. }
      clear -F1' Lq. generalize dependent (map fst r'). induction F1' as [|q qs'' Hq F IH];
        intros [|x xs] Lq; try discriminate; constructor.
      - rewrite Hq. ring.
      - apply IH. now injection Lq. }
    destruct (diff_div_linear 0 a q1 x1 qs' (map fst r') ltac:(rewrite Hq1; ring) HF' Hs')
      as [zs [E2 [L2 F2]]].
    exists zs. cbn [map fl_diff diff_from zip_with fl_div fl_sub fst snd].
    rewrite E2. split; [reflexivity|]. split; [|exact F2].
    rewrite L2, length_map. cbn. lia.
Qed.

Lemma derivate_linear_witness :
  map fst (series_derivate [(0, 1); (1, 3); (3, 7)] None 1) = map fst [(0, 1); (1, 3); (3, 7)] /\
  (exists qs, map snd (series_derivate [(0, 1); (1, 3); (3, 7)] None 1) = NonFin :: map Fin qs /\
     length qs = (length [(0, 1); (1, 3); (3, 7)] - 1)%nat /\ Forall (fun q => q == 2) qs) /\
  (exists zs, map snd (series_derivate [(0, 1); (1, 3); (3, 7)] None 2) =
       NonFin :: NonFin :: map Fin zs /\
     length zs = (length [(0, 1); (1, 3); (3, 7)] - 2)%nat /\ Forall (fun z => z == 0) zs).
Proof.
  apply (derivate_linear [(0, 1); (1, 3); (3, 7)] 2 1); [reflexivity | cbn; lia |].
  repeat constructor.
Defined.

(** ** Local extrema and the tunnel mean *)

Lemma take_clip_in (data : list Q) i : data <> [] -> In (take_clip data i) data.
Proof.
  intros H. unfold take_clip. apply nth_In. destruct data as [|x data]; [congruence|].
  cbn [length]. lia.
Qed.





Lemma mask_map_filter {A} (l : list A) g : mask l (map g l) = filter g l.
Proof. induction l as [|x l IH]; [reflexivity|]. cbn. now rewrite IH. Qed.

Lemma mask_all_true {A} (l : list A) m :
  length m = length l -> Forall (fun b => b = true) m -> mask l m = l.
Proof.
  revert m. induction l as [|x l IH]; intros [|c m] HL Hm; try discriminate; [reflexivity|].
  inversion Hm; subst. cbn. f_equal. apply IH; [now injection HL | assumption].
Qed.


Lemma boolrelextrema_all cmp (data : list Q) :
  (forall v w, In v data -> In w data -> cmp v w = true) ->
  Forall (fun b => b = true) (boolrelextrema cmp data).
Proof.
  intros H. apply Forall_forall. intros b Hb.
  unfold boolrelextrema in Hb. apply in_map_iff in Hb as [i [<- Hi]].
  apply in_seq in Hi.
  assert (Hne : data <> []) by (intros E; rewrite E in Hi; cbn in Hi; lia).
  rewrite !H by apply take_clip_in, Hne. reflexivity.
Qed.

Lemma length_boolrelextrema cmp (data : list Q) : length (boolrelextrema cmp data) = length data.
Proof. unfold boolrelextrema. now rewrite length_map, length_seq. Qed.

Lemma local_extremum_constant (y : table Q) c kind :
  kind <> KindOther -> Forall (fun r => snd r == c) y -> series_local_extremum y kind = Ok y.
Proof.
  intros Hk Hc. rewrite Forall_forall in Hc.
  assert (Hv : forall v, In v (map snd y) -> v == c).
  { intros v Hv. apply in_map_iff in Hv as [r [<- Hr]]. exact (Hc r Hr). }
  destruct kind; [| |congruence]; cbn [series_local_extremum bind]; apply (f_equal Ok);
    apply mask_all_true; try (rewrite length_boolrelextrema; apply length_map);
    apply boolrelextrema_all; intros v w Hv' Hw'; apply qle_iff;
    rewrite (Hv v Hv'), (Hv w Hw'); apply Qle_refl.
Qed.


(** On a sorted series with at least two rows whose values all equal [c],
    every row is both a local maximum and a local minimum, and
    [series_tunnel_mean] is [c]. *)
Theorem tunnel_mean_constant simps (y : table Q) (c : Q)
  (Hs : sorted_rows y) (H2 : (2 <= length y)%nat) (Hc : Forall (fun r => snd r == c) y) :
  series_local_extremum y KindMax = Ok y /\ series_local_extremum y KindMin = Ok y /\
  exists mu, series_tunnel_mean simps y = Ok (Fin mu) /\ mu == c.
Proof.
  split; [apply (local_extremum_constant y c); [discriminate | exact Hc]|].
  split; [apply (local_extremum_constant y c); [discriminate | exact Hc]|].
  destruct (mean_bounds_core simps y Rect true c c Hs H2 (or_introl eq_refl))
    as [mu [Hmu Hb]].
  { eapply Forall_impl; [|exact Hc]. intros r Hr. rewrite Hr. split; apply Qle_refl. }
  exists ((mu - mu) / 2 + mu). split.
  - unfold series_tunnel_mean.
    rewrite !(local_extremum_constant y c) by (assumption || discriminate).
    cbn [bind]. rewrite Hmu. cbn [bind fl_sub fl_div fl_add].
    replace (qeq 2 0) with false by reflexivity. reflexivity.
  - unfold Qdiv. change (/ 2) with (1#2). lra.
Qed.

Lemma tunnel_mean_constant_witness :
  series_local_extremum [(0, 5); (1, 5); (2, 5)] KindMax = Ok [(0, 5); (1, 5); (2, 5)] /\
  series_local_extremum [(0, 5); (1, 5); (2, 5)] KindMin = Ok [(0, 5); (1, 5); (2, 5)] /\
  exists mu, series_tunnel_mean (fun _ _ => 0) [(0, 5); (1, 5); (2, 5)] = Ok (Fin mu) /\ mu == 5.
Proof.
  apply (tunnel_mean_constant (fun _ _ => 0) [(0, 5); (1, 5); (2, 5)] 5);
    [reflexivity | cbn; lia | repeat constructor].
Defined.

(** ** Data frame filters *)

Lemma res_map_ok {A B} (f : A -> res B) (P : B -> A -> Prop) (l : list A) :
  (forall x, In x l -> exists y, f x = Ok y /\ P y x) ->
  exists ys, res_map f l = Ok ys /\ Forall2 P ys l.
Proof.
  induction l as [|x l IH]; intros H; [exists []; split; [reflexivity | constructor]|].
  destruct (H x (or_introl eq_refl)) as [y [Hy Py]].
  destruct IH as [ys [Hys Pys]]; [intros z Hz; apply H; now right|].
  exists (y :: ys). split; [cbn; rewrite Hy, Hys; reflexivity | now constructor].
Qed.

Lemma res_map_err {A B} (f : A -> res B) (e : exc) (l : list A) :
  (forall x e', In x l -> f x = Err e' -> e' = e) ->
  (exists x, In x l /\ exists e', f x = Err e') -> res_map f l = Err e.
Proof.
  induction l as [|x l IH]; intros Hall [z [Hz [e' He']]]; [destruct Hz|].
  cbn. destruct (f x) as [y|e''] eqn:Ex.
  - rewrite IH; [reflexivity | intros w e2 Hw; apply Hall; now right|].
    destruct Hz as [<-|Hz]; [congruence|]. eauto.
  - cbn. f_equal. eapply Hall; [now left | exact Ex].
Qed.

Lemma Forall2_eq_map {A B} (f : B -> A) (ks : list A) (l : list B) :
  Forall2 (fun k x => k = f x) ks l -> ks = map f l.
Proof. induction 1; cbn; congruence. Qed.

Lemma Forall2_in_r {A B} (P : A -> B -> Prop) (l1 : list A) (l2 : list B) y :
  Forall2 P l1 l2 -> In y l2 -> exists x, In x l1 /\ P x y.
Proof.
  induction 1 as [|a b l1 l2 Hab HF IH]; intros Hy; [destruct Hy|].
  destruct Hy as [<-|Hy]; [exists a; split; [now left | exact Hab]|].
  destruct IH as [x [Hx Px]]; [exact Hy|]. exists x. split; [now right | exact Px].
Qed.

Lemma Forall2_Forall_l {A B} (P : A -> Prop) (l1 : list A) (l2 : list B) :
  Forall2 (fun a _ => P a) l1 l2 -> Forall P l1.
Proof. induction 1; constructor; assumption. Qed.

Lemma zip_with_andb_map {A} (f g : A -> bool) (l : list A) :
  zip_with andb (map f l) (map g l) = map (fun r => f r && g r) l.
Proof. induction l as [|x l IH]; [reflexivity|]. cbn. now rewrite IH. Qed.

Lemma zip_with_orb_map {A} (f g : A -> bool) (l : list A) :
  zip_with orb (map f l) (map g l) = map (fun r => f r || g r) l.
Proof. induction l as [|x l IH]; [reflexivity|]. cbn. now rewrite IH. Qed.

(** [functools.reduce(operator.and_, masks)] over masks computed row by
    row. *)
Lemma fold_and_maps {A B} (rows : list A) (P : B -> A -> bool) (bs : list B) g0 :
  fold_left (zip_with andb) (map (fun b => map (P b) rows) bs) (map g0 rows) =
  map (fun r => g0 r && forallb (fun b => P b r) bs) rows.
Proof.
  revert g0. induction bs as [|b bs IH]; intros g0; cbn [map fold_left forallb].
  - apply map_ext. intros r. now rewrite andb_true_r.
  - rewrite zip_with_andb_map, IH. apply map_ext. intros r. now rewrite andb_assoc.
Qed.

Lemma bkey_denotes_ext {A} (rows : list A) k (g g' : A -> bool) :
  (forall r, g r = g' r) ->
  ((exists b, k = KBool b /\ forall r, g r = b) \/ k = KMask (map g rows)) ->
  ((exists b, k = KBool b /\ forall r, g' r = b) \/ k = KMask (map g' rows)).
Proof.
  intros E [[b [-> Hb]]| ->]; [left; exists b; split; [reflexivity|]; intros r; now rewrite <- E|].
  right. f_equal. apply map_ext. exact E.
Qed.

Lemma bkey_or_denotes {A} (rows : list A) k1 k2 (g1 g2 : A -> bool) :
  ((exists b, k1 = KBool b /\ forall r, g1 r = b) \/ k1 = KMask (map g1 rows)) ->
  ((exists b, k2 = KBool b /\ forall r, g2 r = b) \/ k2 = KMask (map g2 rows)) ->
  ((exists b, bkey_or k1 k2 = KBool b /\ forall r, g1 r || g2 r = b) \/
   bkey_or k1 k2 = KMask (map (fun r => g1 r || g2 r) rows)).
Proof.
  intros [[b1 [-> H1]]| ->] [[b2 [-> H2]]| ->]; cbn [bkey_or].
  - left. exists (b1 || b2). split; [reflexivity|]. intros r. now rewrite H1, H2.
  - right. f_equal. rewrite map_map. apply map_ext. intros r. now rewrite H1.
  - right. f_equal. rewrite map_map. apply map_ext. intros r. now rewrite H2.
  - right. f_equal. apply zip_with_orb_map.
Qed.

Lemma bkey_and_denotes {A} (rows : list A) k1 k2 (g1 g2 : A -> bool) :
  ((exists b, k1 = KBool b /\ forall r, g1 r = b) \/ k1 = KMask (map g1 rows)) ->
  ((exists b, k2 = KBool b /\ forall r, g2 r = b) \/ k2 = KMask (map g2 rows)) ->
  ((exists b, bkey_and k1 k2 = KBool b /\ forall r, g1 r && g2 r = b) \/
   bkey_and k1 k2 = KMask (map (fun r => g1 r && g2 r) rows)).
Proof.
  intros [[b1 [-> H1]]| ->] [[b2 [-> H2]]| ->]; cbn [bkey_and].
  - left. exists (b1 && b2). split; [reflexivity|]. intros r. now rewrite H1, H2.
  - right. f_equal. rewrite map_map. apply map_ext. intros r. now rewrite H1.
  - right. f_equal. rewrite map_map. apply map_ext. intros r. now rewrite H2.
  - right. f_equal. apply zip_with_andb_map.
Qed.

(** [functools.reduce(operator.or_, filters, k0)]: the result tells, row by
    row, whether the start or one of the filters holds. *)
Lemma fold_or_denotes {A B} (rows : list A) (P : B -> A -> bool) ks ts k0 g0 :
  ((exists b, k0 = KBool b /\ forall r, g0 r = b) \/ k0 = KMask (map g0 rows)) ->
  Forall2 (fun k t => (exists b, k = KBool b /\ forall r, P t r = b) \/ k = KMask (map (P t) rows))
    ks ts ->
  ((exists b, fold_left bkey_or ks k0 = KBool b /\
      forall r, g0 r || existsb (fun t => P t r) ts = b) \/
   fold_left bkey_or ks k0 = KMask (map (fun r => g0 r || existsb (fun t => P t r) ts) rows)).
Proof.
  intros H0 HF. revert k0 g0 H0. induction HF as [|k1 t1 ks1 ts1 Hk HF IH]; intros k0 g0 H0.
  - apply (bkey_denotes_ext rows k0 g0); [|exact H0]. intros r. cbn. now rewrite orb_false_r.
  - cbn [fold_left].
    apply (bkey_denotes_ext rows _ (fun r => (g0 r || P t1 r) || existsb (fun t => P t r) ts1)).
    + intros r. cbn [existsb]. now rewrite orb_assoc.
    + apply IH. now apply bkey_or_denotes.
Qed.

Lemma fold_or_from_mask ks m : exists m', fold_left bkey_or ks (KMask m) = KMask m'.
Proof.
  revert m. induction ks as [|k ks IH]; intros m; [cbn; eauto|].
  cbn [fold_left]. destruct k; cbn [bkey_or]; apply IH.
Qed.

Lemma fold_or_mask ks k0 :
  (exists m, In (KMask m) ks) -> exists m', fold_left bkey_or ks k0 = KMask m'.
Proof.
  revert k0. induction ks as [|k ks IH]; intros k0 [m Hm]; [destruct Hm|].
  cbn [fold_left]. destruct Hm as [->|Hm].
  - destruct k0; cbn [bkey_or]; apply fold_or_from_mask.
  - apply IH. eauto.
Qed.

Lemma fold_or_bool ks b0 :
  Forall (fun k => exists b, k = KBool b) ks -> exists b, fold_left bkey_or ks (KBool b0) = KBool b.
Proof.
  revert b0. induction ks as [|k ks IH]; intros b0 H; [cbn; eauto|].
  inversion H as [|? ? [b ->] H']; subst. cbn [fold_left bkey_or]. now apply IH.
Qed.

(** [make_filter(task_id)] when both column names are given and present. *)
Lemma make_filter_denotes df pc cc ip ic n t :
  String.eqb pc String.EmptyString = false -> String.eqb cc String.EmptyString = false ->
  col_pos pc (columns df) = Some ip -> col_pos cc (columns df) = Some ic ->
  exists k, make_filter df (Some pc) (Some cc) n t = Ok k /\
    ((exists b, k = KBool b /\ forall r,
        (match pid t with Some v => value_eqb (cell ip r) (VInt v) | None => true end &&
         match comm t with Some s => value_eqb (cell ic r) (VStr (String.substring 0 n s))
                           | None => true end) = b) \/
     k = KMask (map (fun r =>
        match pid t with Some v => value_eqb (cell ip r) (VInt v) | None => true end &&
        match comm t with Some s => value_eqb (cell ic r) (VStr (String.substring 0 n s))
                          | None => true end) (frows df))) /\
    (pid t <> None \/ comm t <> None -> exists m, k = KMask m).
Proof.
  intros Hpc Hcc Hip Hic. unfold make_filter. cbn [col_given]. rewrite Hpc, Hcc.
  destruct (pid t) as [v|]; destruct (comm t) as [s|];
    cbn [bind]; unfold get_col; rewrite ?Hip, ?Hic; cbn [bind]; eexists;
    (split; [reflexivity|]); cbn [bkey_and].
  - split; [right; f_equal; rewrite !map_map; apply zip_with_andb_map|eauto].
  - split; [right; f_equal; rewrite !map_map; apply map_ext; intros r; reflexivity|eauto].
  - split; [right; f_equal; rewrite !map_map; reflexivity|eauto].
  - split; [left; exists true; split; reflexivity|]. intros [H|H]; congruence.
Qed.

(** [df_filter] with a non-empty [filter_columns] naming columns of the
    frame keeps, in order, exactly the rows whose cells equal the given
    value in every given column. *)
Theorem df_filter_rows (df : frame) (fcs : list (String.string * value))
  (Hne : fcs <> [])
  (Hcols : Forall (fun cv => col_pos (fst cv) (columns df) <> None) fcs) :
  df_filter df fcs =
  Ok (mk_frame (columns df)
        (filter (fun r => forallb (fun cv => match col_pos (fst cv) (columns df) with
                                             | Some i => value_eqb (cell i r) (snd cv)
                                             | None => false
                                             end) fcs)
                (frows df))).
Proof.
  set (P := fun (cv : String.string * value) r =>
              match col_pos (fst cv) (columns df) with
              | Some i => value_eqb (cell i r) (snd cv)
              | None => false
              end).
  unfold df_filter.
  destruct (res_map_ok (fun cv => col <- get_col df (fst cv) ;;
                                  Ok (map (fun v => value_eqb v (snd cv)) col))
              (fun k cv => k = map (P cv) (frows df)) fcs) as [keys [Hk HF]].
  { intros cv Hcv. rewrite Forall_forall in Hcols. specialize (Hcols cv Hcv).
    destruct (col_pos (fst cv) (columns df)) as [i|] eqn:Ei; [|congruence].
    eexists. split.
    - unfold get_col. rewrite Ei. reflexivity.
    - rewrite map_map. apply map_ext. intros r. unfold P. rewrite Ei. reflexivity. }
  rewrite Hk. cbn [bind]. apply Forall2_eq_map in HF. subst keys.
  destruct fcs as [|cv0 fcs']; [congruence|]. cbn [map]. unfold select.
  rewrite fold_and_maps, mask_map_filter. reflexivity.
Qed.

(** [df_filter] raises [TypeError] ([reduce] of an empty sequence) when
    [filter_columns] is empty, and [KeyError] when one of its columns is
    missing from the frame. *)
Theorem df_filter_errors (df : frame) (fcs : list (String.string * value)) :
  (fcs = [] -> df_filter df fcs = Err TypeError) /\
  ((exists cv, In cv fcs /\ col_pos (fst cv) (columns df) = None) ->
   df_filter df fcs = Err KeyError).
Proof.
  split; [intros ->; reflexivity|]. intros [cv [Hin Hn]]. unfold df_filter.
  erewrite (res_map_err _ KeyError); [reflexivity| |].
  - intros x e' _ H. unfold get_col in H. destruct (col_pos (fst x) (columns df));
      cbn in H; congruence.
  - exists cv. split; [exact Hin|]. exists KeyError. unfold get_col. rewrite Hn. reflexivity.
Qed.

(** With both column names given and present, and one task id giving a
    [pid] or a [comm], [df_filter_task_ids] keeps, in order, the rows that
    match some task id ([pid] equal when given, [comm] equal to the task's
    [comm] cut to [comm_max_len] when given); with [invert] it keeps the
    other rows. *)
Theorem df_filter_task_ids_rows (df : frame) (ts : list task_id)
  (pc cc : String.string) (ip ic : nat) (invert : bool) (n : nat)
  (Hpc : String.eqb pc String.EmptyString = false)
  (Hcc : String.eqb cc String.EmptyString = false)
  (Hip : col_pos pc (columns df) = Some ip) (Hic : col_pos cc (columns df) = Some ic)
  (Hts : exists t, In t ts /\ (pid t <> None \/ comm t <> None)) :
  df_filter_task_ids df ts (Some pc) (Some cc) invert n =
  Ok (mk_frame (columns df)
        (filter (fun r => xorb invert (existsb (fun t =>
                   match pid t with Some v => value_eqb (cell ip r) (VInt v) | None => true end &&
                   match comm t with
                   | Some s => value_eqb (cell ic r) (VStr (String.substring 0 n s))
                   | None => true
                   end) ts))
                (frows df))).
Proof.
  set (P := fun t r =>
              match pid t with Some v => value_eqb (cell ip r) (VInt v) | None => true end &&
              match comm t with
              | Some s => value_eqb (cell ic r) (VStr (String.substring 0 n s))
              | None => true
              end).
  destruct (res_map_ok (make_filter df (Some pc) (Some cc) n)
              (fun k t => ((exists b, k = KBool b /\ forall r, P t r = b) \/
                           k = KMask (map (P t) (frows df))) /\
                          (pid t <> None \/ comm t <> None -> exists m, k = KMask m)) ts)
    as [ks [Hks HF]].
  { intros t _. exact (make_filter_denotes df pc cc ip ic n t Hpc Hcc Hip Hic). }
  assert (HD : Forall2 (fun k t => (exists b, k = KBool b /\ forall r, P t r = b) \/
                                   k = KMask (map (P t) (frows df))) ks ts).
  { eapply Forall2_impl; [|exact HF]. intros k t [H _]. exact H. }
  assert (HM : exists m, In (KMask m) ks).
  { destruct Hts as [t [Ht Hc]].
    destruct (Forall2_in_r _ _ _ _ HF Ht) as [k [Hk [_ Hm]]].
    destruct (Hm Hc) as [m ->]. eauto. }
  unfold df_filter_task_ids. rewrite Hks. cbn [bind].
  destruct (fold_or_mask ks (KBool false) HM) as [m Em].
  destruct (fold_or_denotes (frows df) P ks ts (KBool false) (fun _ => false)
              (or_introl (ex_intro _ false (conj eq_refl (fun _ => eq_refl)))) HD)
    as [[b [Eb _]]|Ef]; rewrite Em in *; [discriminate|].
  injection Ef as ->. unfold select. destruct invert; rewrite ?map_map, mask_map_filter;
    reflexivity.
Qed.

(** When no task id constrains a given column ([pid_col] and [comm_col]
    unset or empty, or the ids' [pid] and [comm] [None]), the filter stays
    a Python [bool] and [df_filter_task_ids] raises [KeyError]. *)
Theorem df_filter_task_ids_unconstrained (df : frame) (ts : list task_id)
  (pid_col comm_col : option String.string) (invert : bool) (n : nat)
  (H : Forall (fun t => (col_given pid_col = None \/ pid t = None) /\
                        (col_given comm_col = None \/ comm t = None)) ts) :
  df_filter_task_ids df ts pid_col comm_col invert n = Err KeyError.
Proof.
  destruct (res_map_ok (make_filter df pid_col comm_col n) (fun k _ => exists b, k = KBool b) ts)
    as [ks [Hks HF]].
  { intros t Ht. rewrite Forall_forall in H. destruct (H t Ht) as [Hp Hc].
    unfold make_filter. revert Hp Hc.
    destruct (col_given pid_col), (pid t); intros Hp Hc;
      [destruct Hp; discriminate| | |]; cbn [bind];
      (revert Hc; destruct (col_given comm_col), (comm t); intros Hc;
        [destruct Hc; discriminate| | |]); cbn [bind bkey_and andb]; eauto. }
  unfold df_filter_task_ids. rewrite Hks. cbn [bind].
  destruct (fold_or_bool ks false (Forall2_Forall_l _ _ _ HF)) as [b ->]. reflexivity.
Qed.

Lemma df_filter_rows_witness :
  [("pid"%string, VInt 1)] <> [] /\
  df_filter task_frame [("pid"%string, VInt 1)] =
  Ok (mk_frame (columns task_frame)
        (filter (fun r => forallb (fun cv => match col_pos (fst cv) (columns task_frame) with
                                             | Some i => value_eqb (cell i r) (snd cv)
                                             | None => false
                                             end) [("pid"%string, VInt 1)])
                (frows task_frame))).
Proof.
  split; [discriminate|].
  apply df_filter_rows; [discriminate | constructor; [cbn; discriminate | constructor]].
Defined.

Lemma df_filter_task_ids_rows_witness :
  df_filter_task_ids task_frame [mk_task_id None (Some "bash"%string)]
    (Some "pid"%string) (Some "comm"%string) true 15 =
  Ok (mk_frame (columns task_frame)
        (filter (fun r => xorb true (existsb (fun t =>
                   match pid t with Some v => value_eqb (cell 0 r) (VInt v) | None => true end &&
                   match comm t with
                   | Some s => value_eqb (cell 1 r) (VStr (String.substring 0 15 s))
                   | None => true
                   end) [mk_task_id None (Some "bash"%string)]))
                (frows task_frame))).
Proof.
  apply df_filter_task_ids_rows; try reflexivity.
  exists (mk_task_id None (Some "bash"%string)). split; [now left | right; discriminate].
Defined.

Lemma df_filter_task_ids_unconstrained_witness :
  df_filter_task_ids task_frame [mk_task_id (Some 1%Z) None; mk_task_id None None]
    None (Some "comm"%string) false 15 = Err KeyError.
Proof.
  apply df_filter_task_ids_unconstrained.
  constructor; [split; [left | right]; reflexivity|].
  constructor; [split; right; reflexivity | constructor].
Defined.

(** ** Deduplication of data frames *)

Lemma shift_rows_single n (vals : list Z) :
  shift_rows n (map (fun v => [v]) vals) = map (option_map (fun v => [v])) (shift_values n vals).
Proof.
  unfold shift_rows, shift_values. rewrite length_map.
  destruct (0 <=? n)%Z; rewrite <- firstn_map, map_app, ?map_repeat, ?skipn_map, ?map_map;
    reflexivity.
Qed.

Lemma combine_map_both {A B C D} (f : A -> C) (g : B -> D) (l1 : list A) (l2 : list B) :
  combine (map f l1) (map g l2) = map (fun p => (f (fst p), g (snd p))) (combine l1 l2).
Proof.
  revert l2. induction l1 as [|x l1 IH]; intros [|y l2]; try reflexivity.
  cbn. now rewrite IH.
Qed.

Lemma mask_map {A B} (f : A -> B) (l : list A) m : mask (map f l) m = map f (mask l m).
Proof.
  revert m. induction l as [|x l IH]; intros [|c m]; try reflexivity.
  cbn. destruct c; cbn; now rewrite IH.
Qed.

Lemma row_eqb_single v w : row_eqb [v] [w] = Z.eqb v w.
Proof.
  unfold row_eqb. destruct (list_eq_dec Z.eq_dec [v] [w]) as [E|E];
    destruct (Z.eqb_spec v w); congruence.
Qed.

Lemma drop_dup_rows_single seen (l : table Z) :
  drop_dup_rows_first (map (fun v => [v]) seen) (map (fun r => (fst r, [snd r])) l) =
  map (fun r => (fst r, [snd r])) (drop_dup_first seen l).
Proof.
  revert seen. induction l as [|[t v] l IH]; intros seen; [reflexivity|].
  cbn [map drop_dup_first fst snd drop_dup_rows_first].
  assert (E : existsb (row_eqb [v]) (map (fun v => [v]) seen) = existsb (Z.eqb v) seen).
  { clear. induction seen as [|w seen IH]; [reflexivity|]. cbn. now rewrite row_eqb_single, IH. }
  rewrite E. destruct (existsb (Z.eqb v) seen); [apply IH|].
  cbn [map fst snd]. f_equal. exact (IH (v :: seen)).
Qed.

Lemma mask_mono {A P} (l : list A) (ps : list P) (f g : P -> bool) :
  (forall p, In p ps -> f p = true -> g p = true) ->
  incl (mask l (map f ps)) (mask l (map g ps)).
Proof.
  revert ps. induction l as [|x l IH]; intros [|p ps] H; cbn; try apply incl_refl.
  assert (IH' := IH ps (fun q Hq => H q (or_intror Hq))).
  destruct (f p) eqn:Ef.
  - rewrite (H p (or_introl eq_refl) Ef). apply incl_cons; [now left|]. now apply incl_tl.
  - destruct (g p); [now apply incl_tl | exact IH'].
Qed.

Lemma in_firstn_l {A} n (l : list A) x : In x (firstn n l) -> In x l.
Proof. intros H. rewrite <- (firstn_skipn n l). apply in_or_app. now left. Qed.

Lemma in_skipn_l {A} n (l : list A) x : In x (skipn n l) -> In x l.
Proof. intros H. rewrite <- (firstn_skipn n l). apply in_or_app. now right. Qed.

Lemma shift_rows_in n l w : In (Some w) (shift_rows n l) -> In w l.
Proof.
  unfold shift_rows. destruct (0 <=? n)%Z; intros H; apply in_firstn_l in H;
    apply in_app_or in H as [H|H];
    try (apply repeat_spec in H; discriminate);
    try (apply in_skipn_l in H);
    apply in_map_iff in H as [w' [E Hw]]; injection E as ->; exact Hw.
Qed.

Lemma forallb_existsb_id (c : list bool) :
  c <> [] -> forallb (fun b => b) c = true -> existsb (fun b => b) c = true.
Proof. destruct c as [|b c]; [congruence|]. cbn. intros _ H. now destruct b. Qed.

Lemma zip_with_nil {A B C} (f : A -> B -> C) l1 l2 :
  l1 <> [] -> l2 <> [] -> zip_with f l1 l2 <> [].
Proof. destruct l1, l2; cbn; congruence. Qed.

(** On a frame with a single column, [df_deduplicate] keeps the same rows
    as [_data_deduplicate] on the series of that column, for every [keep],
    [consecutives] and [all_col], and raises the same errors. *)
Theorem df_dedup_one_column (data : table Z) (keep : keep_t) (consecutives all_col : bool) :
  df_deduplicate (map (fun r => (fst r, [snd r])) data) keep consecutives all_col =
  match _data_deduplicate data keep consecutives (Some all_col) with
  | Ok d => Ok (map (fun r => (fst r, [snd r])) d)
  | Err e => Err e
  end.
Proof.
  assert (Hv : map snd (map (fun r => (fst r, [snd r])) data) = map (fun v => [v]) (map snd data))
    by now rewrite !map_map.
  unfold df_deduplicate, _data_deduplicate_frame, _data_deduplicate.
  destruct keep; cbn [bind]; [| |reflexivity]; (destruct consecutives; [|destruct all_col; reflexivity || cbn [truthy negb]]).
  - rewrite Hv, shift_rows_single, combine_map_both, map_map, mask_map.
    apply (f_equal Ok). f_equal. f_equal. apply map_ext. intros [v w].
    destruct w as [w|], all_col; cbn; try reflexivity; destruct (v =? w)%Z; reflexivity.
  - apply (f_equal Ok). exact (drop_dup_rows_single [] data).
  - rewrite Hv, shift_rows_single, combine_map_both, map_map, mask_map.
    apply (f_equal Ok). f_equal. f_equal. apply map_ext. intros [v w].
    destruct w as [w|], all_col; cbn; try reflexivity; destruct (v =? w)%Z; reflexivity.
  - apply (f_equal Ok). cbn [drop_duplicates drop_duplicates_rows].
    rewrite <- map_rev.
    exact (eq_trans (f_equal (@rev _) (drop_dup_rows_single [] (rev data))) (eq_sym (map_rev _ _))).
Qed.

(** With [consecutives=True] and rows of at least one column,
    [all_col=False] (drop a row when any column repeats) keeps only rows
    that [all_col=True] (drop a row when every column repeats) keeps too. *)
Theorem df_dedup_all_col_incl (data : table (list Z)) (keep : keep_t)
  (Hk : keep <> KeepOther) (Hw : Forall (fun r => snd r <> []) data) :
  exists d1 d2, df_deduplicate data keep true false = Ok d1 /\
    df_deduplicate data keep true true = Ok d2 /\ incl d1 d2.
Proof.
  assert (Hvals : forall w, In w (map snd data) -> w <> []).
  { intros w Hw'. apply in_map_iff in Hw' as [r [<- Hr]]. rewrite Forall_forall in Hw.
    exact (Hw r Hr). }
  assert (Hc : forall s p, In p (combine (map snd data) (shift_rows s (map snd data))) ->
            forallb (fun b => b) (ne_row (fst p) (snd p)) = true ->
            existsb (fun b => b) (ne_row (fst p) (snd p)) = true).
  { intros s [r w] Hp. apply forallb_existsb_id.
    pose proof (in_combine_l _ _ _ _ Hp) as Hr. pose proof (in_combine_r _ _ _ _ Hp) as Hw'.
    destruct w as [w|]; cbn [ne_row fst snd].
    - apply zip_with_nil; apply Hvals; [exact Hr|]. exact (shift_rows_in _ _ _ Hw').
    - pose proof (Hvals r Hr). destruct r; cbn; congruence. }
  unfold df_deduplicate, _data_deduplicate_frame.
  destruct keep; [| |congruence]; cbn [bind]; (eexists _, _; split; [reflexivity|]);
    (split; [reflexivity|]); apply mask_mono; apply Hc.
Qed.

Lemma df_dedup_all_col_incl_witness :
  exists d1 d2,
    df_deduplicate [(0, [1; 2]%Z); (1, [1; 3]%Z); (2, [1; 3]%Z)] KeepFirst true false = Ok d1 /\
    df_deduplicate [(0, [1; 2]%Z); (1, [1; 3]%Z); (2, [1; 3]%Z)] KeepFirst true true = Ok d2 /\
    incl d1 d2.
Proof.
  apply df_dedup_all_col_incl; [discriminate|].
  repeat constructor; cbn; discriminate.
Defined.

(** ** Shift capping *)

(** Capping the shift of [series_align_signal] is idempotent: capping an
    already capped shift with the same [max_shift] and period leaves it
    unchanged. *)
Theorem cap_shift_idempotent (shift : Z) (ms period : Q) (s : Z)
  (H : cap_shift shift (Some ms) period = Ok s) :
  cap_shift s (Some ms) period = Ok s.
Proof.
  unfold cap_shift in *. destruct (negb (qle 0 ms)); [discriminate|].
  set (k := py_int (ms / period)) in *. clearbody k. cbv zeta in *.
  repeat match goal with
         | H : context [if ?c then _ else _] |- _ =>
             lazymatch c with true => fail | false => fail | _ => destruct c eqn:? end
         end.
  all: cbv iota in H; injection H as <-.
  all: repeat match goal with
         | |- context [if ?c then _ else _] =>
             lazymatch c with true => fail | false => fail | _ => destruct c eqn:? end
         end.
  all: try reflexivity.
  all: exfalso; repeat match goal with
                       | E : (_ <? _)%Z = true |- _ => apply Z.ltb_lt in E
                       | E : (_ <? _)%Z = false |- _ => apply Z.ltb_ge in E
                       end; lia.
Qed.

Lemma cap_shift_idempotent_witness :
  cap_shift 5 (Some 2) 1 = Ok 2%Z /\ cap_shift 2 (Some 2) 1 = Ok 2%Z.
Proof. split; [reflexivity | apply (cap_shift_idempotent 5 2 1 2); reflexivity]. Defined.
